(** * SiteForgeAI backend: subscription gating, usage ledger and the
      AI generation request, embedded from [server/storage.ts],
      [server/routes.ts] and the OpenAI response parser. *)

From Stdlib Require Import ZArith QArith Qround Sorted.
From stdpp Require Import gmap strings list.

Local Open Scope Z_scope.

(** ** JavaScript strings

    A JavaScript string is a sequence of UTF-16 code units; [length] is
    [String.prototype.length].  [js] embeds an ASCII literal. *)

Definition JsString := list N.

Definition js (s : string) : JsString :=
  map Ascii.N_of_ascii (String.list_ascii_of_string s).

(** What a [try] block yields: the value it returned or the exception it
    threw (only the message of the exception is kept). *)
Inductive Try (A : Type) : Type :=
| Returned (a : A)
| Thrown (message : JsString).
Arguments Returned {A} a.
Arguments Thrown {A} message.

(** ** The users table ([@shared/schema], as [UserSafe] declares it) *)

Module PlanType.
Inductive t := free | pro | enterprise.
End PlanType.

Module SubscriptionStatus.
Inductive t := free | active | past_due | cancelled.
End SubscriptionStatus.

Inductive Role := ADMIN | CLIENT.

Record User := mkUser {
  id : string;
  email : string;
  name : string;
  role : Role;
  aiGenerationsUsed : Z;
  aiGenerationsLimit : Z;
  planType : PlanType.t;
  subscriptionStatus : SubscriptionStatus.t
}.

(** A row of [aiGenerations], as [logAiGeneration] inserts it (the
    generated key and timestamp are the store's). *)
Record AiGeneration := mkAiGeneration {
  gen_userId : string;
  gen_prompt : JsString;
  gen_result : JsString;
  gen_tokensUsed : Z
}.

(** The relational store: [users] by primary key, [aiGenerations] in
    insertion order. *)
Record Db := mkDb {
  users : gmap string User;
  aiGenerations : list AiGeneration
}.

(** The object given to [db.update(users).set(...)]: only the columns it
    names are written. *)
Record UserUpdate := mkUserUpdate {
  set_planType : option PlanType.t;
  set_subscriptionStatus : option SubscriptionStatus.t;
  set_aiGenerationsLimit : option Z;
  set_aiGenerationsUsed : option Z
}.

Definition apply_update (upd : UserUpdate) (u : User) : User :=
  {| id := id u;
     email := email u;
     name := name u;
     role := role u;
     aiGenerationsUsed := default (aiGenerationsUsed u) (set_aiGenerationsUsed upd);
     aiGenerationsLimit := default (aiGenerationsLimit u) (set_aiGenerationsLimit upd);
     planType := default (planType u) (set_planType upd);
     subscriptionStatus := default (subscriptionStatus u) (set_subscriptionStatus upd) |}.

(** [db.update(users).set(upd).where(eq(users.id, userId))] *)
Definition update_users_where_id (userId : string) (upd : UserUpdate) (d : Db) : Db :=
  {| users := alter (apply_update upd) userId (users d);
     aiGenerations := aiGenerations d |}.

(** ** The storage monad: every [IStorage] method reads and writes the store *)

Definition Storage (A : Type) : Type := Db -> A * Db.

Definition ret {A} (a : A) : Storage A := fun d => (a, d).

Definition bind {A B} (m : Storage A) (k : A -> Storage B) : Storage B :=
  fun d => let (a, d') := m d in k a d'.

Notation "'let*' x := m 'in' k" := (bind m (fun x => k))
  (at level 10, x name, m at level 100, k at level 200).

Definition query {A} (f : Db -> A) : Storage A := fun d => (f d, d).
Definition exec (f : Db -> Db) : Storage unit := fun d => (tt, f d).

(** ** [DatabaseStorage] *)

Definition getUser (userId : string) : Storage (option User) :=
  query (fun d => users d !! userId).

Record AiUsage := mkAiUsage { used : Z; limit : Z; remaining : Z }.

Definition getAiUsage (userId : string) : Storage AiUsage :=
  let* user := getUser userId in
  match user with
  | None => ret {| used := 0; limit := 3; remaining := 3 |}
  | Some user =>
      let used := aiGenerationsUsed user in
      let limit := aiGenerationsLimit user in
      ret {| used := used; limit := limit; remaining := Z.max 0 (limit - used) |}
  end.

Definition hasPaidPlan (p : PlanType.t) : bool :=
  match p with
  | PlanType.pro | PlanType.enterprise => true
  | PlanType.free => false
  end.

Definition isActiveSubscription (s : SubscriptionStatus.t) : bool :=
  match s with
  | SubscriptionStatus.active => true
  | _ => false
  end.

Definition incrementAiUsage (userId : string) : Storage bool :=
  let* user := getUser userId in
  match user with
  | None => ret false
  | Some user =>
      if hasPaidPlan (planType user) && isActiveSubscription (subscriptionStatus user)
      then ret true
      else if aiGenerationsUsed user >=? aiGenerationsLimit user
      then ret false
      else
        let* _ := exec (update_users_where_id userId
                    {| set_planType := None;
                       set_subscriptionStatus := None;
                       set_aiGenerationsLimit := None;
                       set_aiGenerationsUsed := Some (aiGenerationsUsed user + 1) |}) in
        ret true
  end.

Definition logAiGeneration (userId : string) (prompt result : JsString) (tokensUsed : Z)
  : Storage AiGeneration :=
  let generation := {| gen_userId := userId; gen_prompt := prompt;
                       gen_result := result; gen_tokensUsed := tokensUsed |} in
  let* _ := exec (fun d => {| users := users d;
                              aiGenerations := aiGenerations d ++ [generation] |}) in
  ret generation.

Record Subscription := mkSubscription {
  sub_planType : PlanType.t;
  sub_status : SubscriptionStatus.t;
  isBlocked : bool;
  canUseAi : bool
}.

Definition status_isBlocked (s : SubscriptionStatus.t) : bool :=
  match s with
  | SubscriptionStatus.past_due | SubscriptionStatus.cancelled => true
  | _ => false
  end.

Definition getSubscriptionStatus (userId : string) : Storage Subscription :=
  let* user := getUser userId in
  match user with
  | None => ret {| sub_planType := PlanType.free; sub_status := SubscriptionStatus.free;
                   isBlocked := false; canUseAi := true |}
  | Some user =>
      let planType := planType user in
      let status := subscriptionStatus user in
      let isBlocked := status_isBlocked status in
      let hasCredits := aiGenerationsUsed user <? aiGenerationsLimit user in
      let hasPaidPlan := hasPaidPlan planType in
      let canUseAi := negb isBlocked && (hasCredits || hasPaidPlan) in
      ret {| sub_planType := planType; sub_status := status;
             isBlocked := isBlocked; canUseAi := canUseAi |}
  end.

(** The [limits] table of [updateSubscription]. *)
Definition limits (p : PlanType.t) : Z :=
  match p with
  | PlanType.free => 3
  | PlanType.pro => 999999
  | PlanType.enterprise => 999999
  end.

Definition updateSubscription (userId : string) (planType : PlanType.t)
    (status : SubscriptionStatus.t) : Storage unit :=
  let updateData :=
    {| set_planType := Some planType;
       set_subscriptionStatus := Some status;
       set_aiGenerationsLimit := Some (limits planType);
       set_aiGenerationsUsed :=
         match planType with
         | PlanType.free => Some 0
         | _ => None
         end |} in
  exec (update_users_where_id userId updateData).

(** The row [incrementAiUsage] leaves behind when it charges a credit. *)
Definition bump (u : User) : User :=
  apply_update {| set_planType := None; set_subscriptionStatus := None;
                  set_aiGenerationsLimit := None;
                  set_aiGenerationsUsed := Some (aiGenerationsUsed u + 1) |} u.

(** [n] calls of [incrementAiUsage] in a row: the answers, oldest first,
    and the store they leave. *)
Fixpoint incrementAiUsage_times (n : nat) (userId : string) : Storage (list bool) :=
  match n with
  | O => ret []
  | S n' =>
      let* b := incrementAiUsage userId in
      let* bs := incrementAiUsage_times n' userId in
      ret (b :: bs)
  end.

(** ** [POST /api/ai/generate] *)

(** What [aiGenerateSchema.parse] leaves of a body it accepts; the handler
    reads the prompt only. *)
Record AiGenerateData := mkAiGenerateData { prompt : JsString }.

(** [aiGenerateSchema.parse(req.body)]: the validated data, or a [ZodError]
    whose first issue carries [message]. *)
Inductive ZodResult :=
| ZodOk (validatedData : AiGenerateData)
| ZodError (message : JsString).

(** The request as [authMiddleware] hands it over: the caller's id from the
    verified token, and the body. *)
Record AuthRequest (Body : Type) := mkAuthRequest {
  user_id : string;
  body : Body
}.
Arguments user_id {Body} _.
Arguments body {Body} _.

Inductive ResponseBody :=
| PaymentBody (message : JsString) (requiresPayment : bool) (subscription : Subscription)
| UpgradeBody (message : JsString) (requiresUpgrade : bool) (subscription : Subscription)
| MessageBody (message : JsString)
| ResultBody (result : JsString) (tokensUsed : Z) (usage : AiUsage).

(** [res.status(code).json(body)]; [res.json(body)] answers 200. *)
Record Response := mkResponse { status : Z; json : ResponseBody }.

(** [Math.floor(prompt.length * 1.5)].  A length times 1.5 is a multiple of
    one half far below 2^53, so the double product is the exact rational. *)
Definition estimateTokens (prompt : JsString) : Z :=
  Qfloor (inject_Z (Z.of_nat (length prompt)) * (15 # 10))%Q.

(** The estimate as the specification words it,
    [ceil(prompt.length * 1.5)], to compare with [estimateTokens]. *)
Definition estimateTokens_ceil (prompt : JsString) : Z :=
  Qceiling (inject_Z (Z.of_nat (length prompt)) * (15 # 10))%Q.

(** The body of the handler's inner [try] as [routes.ts] has it today: a
    placeholder text, no upstream call. *)
Definition placeholderProvider (prompt : JsString) : Try JsString :=
  Returned (js "Generated content for: " ++ prompt ++
            js ". This is a placeholder - connect OpenAI API for real AI generation.").

Section Generate.
Context {Body : Type}.
(** [aiGenerateSchema] lives in [@shared/schema]. *)
Variable aiGenerateSchema_parse : Body -> ZodResult.
(** What the inner [try] computes for [result]: the provider's text, or
    the exception the [catch] turns into a 503. *)
Variable aiProvider : JsString -> Try JsString.

Definition post_api_ai_generate (req : AuthRequest Body) : Storage Response :=
  match aiGenerateSchema_parse (body req) with
  | ZodError message => ret {| status := 400; json := MessageBody message |}
  | ZodOk validatedData =>
      let* subscription := getSubscriptionStatus (user_id req) in
      if isBlocked subscription then
        ret {| status := 402;
               json := PaymentBody
                 (js "Your subscription requires payment. Please upgrade to continue using AI features.")
                 true subscription |}
      else if negb (canUseAi subscription) then
        ret {| status := 403;
               json := UpgradeBody
                 (js "AI generation limit reached. Upgrade your plan for unlimited generations.")
                 true subscription |}
      else
        let* usage := getAiUsage (user_id req) in
        match aiProvider (prompt validatedData) with
        | Thrown aiError =>
            ret {| status := 503;
                   json := MessageBody
                     (js "AI service temporarily unavailable. Please try again. Your credits were not used.") |}
        | Returned result =>
            let tokensUsed := estimateTokens (prompt validatedData) in
            let* canIncrement := incrementAiUsage (user_id req) in
            if negb canIncrement then
              ret {| status := 403;
                     json := MessageBody
                       (js "AI generation limit reached. Upgrade your plan for more generations.") |}
            else
              let* _ := logAiGeneration (user_id req) (prompt validatedData) result tokensUsed in
              let* updatedUsage := getAiUsage (user_id req) in
              ret {| status := 200; json := ResultBody result tokensUsed updatedUsage |}
        end
  end.
End Generate.

(** ** Code units under the [i] flag *)

(** Equality of code units under the [i] flag: without the [u] flag a
    code unit outside ASCII never folds onto an ASCII one, so against the
    ASCII patterns used here only the two cases of a Latin letter match. *)
Definition upper (c : N) : N :=
  if ((97 <=? c) && (c <=? 122))%N then (c - 32)%N else c.

Definition eq_case (a b : N) : bool := (a =? b)%N.
Definition eq_nocase (a b : N) : bool := (upper a =? upper b)%N.

(** ** Regular expressions *)

(** The patterns of the parser are sequences of single characters, some
    of them starred or optional; there is no alternation and the one
    group holds a single atom. *)
Inductive CharClass :=
| Lit (c : N)
| AnyChar
| NotChar (c : N).

Inductive Atom :=
| One (cls : CharClass)
| Opt (cls : CharClass)
| Star (cls : CharClass)
| StarLazy (cls : CharClass).

Definition accepts (ignoreCase : bool) (cls : CharClass) (c : N) : bool :=
  match cls with
  | Lit p => if ignoreCase then eq_nocase p c else eq_case p c
  | AnyChar => true
  | NotChar p => negb (if ignoreCase then eq_nocase p c else eq_case p c)
  end.

(** The literal [text] as a pattern. *)
Definition lits (text : JsString) : list Atom := map (fun c => One (Lit c)) text.

(** One more code unit for the atom at the head of a match. *)
Definition longer (r : option (list nat)) : option (list nat) :=
  match r with
  | Some (n :: ns) => Some (S n :: ns)
  | _ => None
  end.

(** The backtracking matcher at a fixed start: the number of code units
    each atom consumed in the first match the priorities of the pattern
    lead to (a greedy atom tries more before less, a lazy one less before
    more). *)
Fixpoint match_here (ignoreCase : bool) (atoms : list Atom)
  : JsString -> option (list nat) :=
  match atoms with
  | [] => fun _ => Some []
  | One cls :: rest => fun s =>
      match s with
      | c :: s' =>
          if accepts ignoreCase cls c
          then cons 1%nat <$> match_here ignoreCase rest s'
          else None
      | [] => None
      end
  | Opt cls :: rest => fun s =>
      let skip := cons 0%nat <$> match_here ignoreCase rest s in
      match s with
      | c :: s' =>
          if accepts ignoreCase cls c then
            match match_here ignoreCase rest s' with
            | Some ns => Some (1%nat :: ns)
            | None => skip
            end
          else skip
      | [] => skip
      end
  | Star cls :: rest =>
      fix star (s : JsString) : option (list nat) :=
        let stop := cons 0%nat <$> match_here ignoreCase rest s in
        match s with
        | c :: s' =>
            if accepts ignoreCase cls c then
              match longer (star s') with
              | Some ns => Some ns
              | None => stop
              end
            else stop
        | [] => stop
        end
  | StarLazy cls :: rest =>
      fix star (s : JsString) : option (list nat) :=
        match match_here ignoreCase rest s with
        | Some ns => Some (0%nat :: ns)
        | None =>
            match s with
            | c :: s' => if accepts ignoreCase cls c then longer (star s') else None
            | [] => None
            end
        end
  end.

(** The length of the match at the start of [s], if there is one. *)
Definition match_length (ignoreCase : bool) (atoms : list Atom) (s : JsString)
  : option nat :=
  sum_list <$> match_here ignoreCase atoms s.

(** [re.exec(s)] for a pattern without the [g] flag: the leftmost start
    at which the matcher succeeds, with what each atom consumed. *)
Fixpoint regexp_exec (ignoreCase : bool) (atoms : list Atom) (s : JsString)
  : option (nat * list nat) :=
  match match_here ignoreCase atoms s with
  | Some ns => Some (O, ns)
  | None =>
      match s with
      | [] => None
      | _ :: s' => (fun r => (S (fst r), snd r)) <$> regexp_exec ignoreCase atoms s'
      end
  end.

(** ** [String.prototype] methods *)

(** [s.replace(re, "")] for a global [re]: [re s'] is the length of the
    match of [re] at the start of [s'], if any; after a match the scan
    goes on behind it.  [skip] counts the code units of the current match
    still to be dropped. *)
Fixpoint remove_matches (re : JsString -> option nat) (skip : nat) (s : JsString)
  : JsString :=
  match s with
  | [] => []
  | c :: s' =>
      match skip with
      | S k => remove_matches re k s'
      | O =>
          match re s with
          | Some (S k) => remove_matches re k s'
          | _ => c :: remove_matches re O s'
          end
      end
  end.

Definition replace_all (re : JsString -> option nat) (s : JsString) : JsString :=
  remove_matches re O s.

(** White space and line terminators, as [String.prototype.trim] strips. *)
Definition is_white_space (c : N) : bool :=
  bool_decide (c ∈ [9; 10; 11; 12; 13; 32; 160; 5760; 8232; 8233; 8239; 8287;
                    12288; 65279]%N)
  || ((8192 <=? c) && (c <=? 8202))%N.

Fixpoint trimStart (s : JsString) : JsString :=
  match s with
  | c :: s' => if is_white_space c then trimStart s' else s
  | [] => []
  end.

Definition trimEnd (s : JsString) : JsString := reverse (trimStart (reverse s)).

Definition trim (s : JsString) : JsString := trimEnd (trimStart s).

(** ** The patterns of the response parser *)

(** [/```json\n?/g] and [/```\n?/g] *)
Definition fence_json_re : list Atom := lits (js "```json") ++ [Opt (Lit 10)].
Definition fence_re : list Atom := lits (js "```") ++ [Opt (Lit 10)].

(** [/<!DOCTYPE html>[\s\S]*<\/html>/i] *)
Definition html_re : list Atom :=
  lits (js "<!DOCTYPE html>") ++ [Star AnyChar] ++ lits (js "</html>").

(** [/<style[^>]*>([\s\S]*?)<\/style>/i]; the group is the atom of index
    8, the lazy star. *)
Definition style_re : list Atom :=
  lits (js "<style") ++ [Star (NotChar 62)] ++ lits (js ">") ++
  [StarLazy AnyChar] ++ lits (js "</style>").

(** [htmlMatch[0]] of [htmlMatch = content.match(html_re)]: the whole
    match. *)
Definition htmlMatch (content : JsString) : option JsString :=
  m ← regexp_exec true html_re content;
  Some (take (sum_list (snd m)) (drop (fst m) content)).

(** [cssMatch[1]] of [cssMatch = content.match(style_re)]: what the group
    matched. *)
Definition cssMatch (content : JsString) : option JsString :=
  m ← regexp_exec true style_re content;
  Some (take (snd m !!! 8%nat) (drop (fst m + sum_list (take 8 (snd m))) content)).

(** ** What the patterns match, in closed form *)

(** [pat] matches at the start of [s]. *)
Fixpoint matches_at (eqb : N -> N -> bool) (pat s : JsString) : bool :=
  match pat, s with
  | [], _ => true
  | _ :: _, [] => false
  | p :: pat', c :: s' => eqb p c && matches_at eqb pat' s'
  end.

(** How a pattern compares code units, with and without the [i] flag. *)
Definition eqb_of (ignoreCase : bool) : N -> N -> bool :=
  if ignoreCase then eq_nocase else eq_case.

(** [m] is [pat] up to [eqb], code unit by code unit. *)
Definition agree (eqb : N -> N -> bool) (pat m : JsString) : Prop :=
  Forall2 (fun p c => eqb p c = true) pat m.

(** No code unit of [s] is, up to [eqb], one of [pat]. *)
Definition foreign (eqb : N -> N -> bool) (pat s : JsString) : bool :=
  forallb (fun c => forallb (fun p => negb (eqb p c)) pat) s.

(** Index of the leftmost place where [pat] matches. *)
Fixpoint search (eqb : N -> N -> bool) (pat s : JsString) : option nat :=
  if matches_at eqb pat s then Some O
  else match s with
       | [] => None
       | _ :: s' => S <$> search eqb pat s'
       end.

(** Index of the rightmost place where [pat] matches. *)
Fixpoint search_last (eqb : N -> N -> bool) (pat s : JsString) : option nat :=
  match s with
  | [] => if matches_at eqb pat [] then Some O else None
  | _ :: s' =>
      match search_last eqb pat s' with
      | Some i => Some (S i)
      | None => if matches_at eqb pat s then Some O else None
      end
  end.

(** The length of the match of [/fence\n?/] at the start of [s]: the
    literal [fence] and, greedily, one line feed. *)
Definition fence_length (fence : JsString) (s : JsString) : option nat :=
  if matches_at eq_case fence s then
    Some (length fence +
          match drop (length fence) s with
          | c :: _ => if (c =? 10)%N then 1 else 0
          | [] => 0
          end)%nat
  else None.

(** The match of [html_re]: it starts at the leftmost doctype and, the
    star being greedy, ends with the last [</html>] after it; when none
    follows the leftmost doctype none follows a later one either. *)
Definition html_span (content : JsString) : option JsString :=
  i ← search eq_nocase (js "<!DOCTYPE html>") content;
  j ← search_last eq_nocase (js "</html>") (drop (i + 15) content);
  Some (take (15 + j + 7) (drop i content)).

(** The group of [style_re]: after the leftmost [<style], [[^>]*>] runs
    to the first [>], and the lazy star stops at the first [</style>]
    after it. *)
Definition style_span (content : JsString) : option JsString :=
  i ← search eq_nocase (js "<style") content;
  let attributes := drop (i + 6) content in
  k ← search eq_case (js ">") attributes;
  let inner := drop (k + 1) attributes in
  j ← search eq_nocase (js "</style>") inner;
  Some (take j inner).

(** [m] occurs in [s]. *)
Definition substring (m s : JsString) : Prop :=
  exists pre post, s = pre ++ m ++ post.

(** A full HTML document as the pattern reads one: from a doctype to a
    closing [html] tag, letters in either case. *)
Definition html_document (doc : JsString) : Prop :=
  exists d inner e,
    doc = d ++ inner ++ e /\
    agree eq_nocase (js "<!DOCTYPE html>") d /\
    agree eq_nocase (js "</html>") e.

(** [doc] is the document the pattern takes from [content]: it starts
    with the leftmost doctype of [content] and ends with the last closing
    [html] tag that follows that doctype. *)
Definition html_document_span (content doc : JsString) : Prop :=
  exists pre d inner e post,
    content = pre ++ d ++ inner ++ e ++ post /\
    doc = d ++ inner ++ e /\
    agree eq_nocase (js "<!DOCTYPE html>") d /\
    agree eq_nocase (js "</html>") e /\
    search eq_nocase (js "<!DOCTYPE html>") content = Some (length pre) /\
    search_last eq_nocase (js "</html>") (inner ++ e ++ post) = Some (length inner).

(** [style] is the content of the first inline style block of [content]:
    of the block opened by the leftmost [<style], whose tag ends at the
    first [>], up to the first closing tag after it. *)
Definition first_style_block (content style : JsString) : Prop :=
  exists pre o attributes e post,
    content = pre ++ o ++ attributes ++ [62%N] ++ style ++ e ++ post /\
    agree eq_nocase (js "<style") o /\
    (62%N ∉ attributes) /\
    agree eq_nocase (js "</style>") e /\
    search eq_nocase (js "<style") content = Some (length pre) /\
    search eq_nocase (js "</style>") (style ++ e ++ post) = Some (length style).

(** ** [JSON.parse] *)

(** A JSON number literal, kept exact: (-1)^neg * digits * 10^exponent. *)
Record JsonNumber := mkJsonNumber {
  negative : bool;
  digits : N;
  exponent : Z
}.

#[warnings="-register-all"]
Inductive JsonValue :=
| JNull
| JBool (b : bool)
| JNumber (n : JsonNumber)
| JString (s : JsString)
| JArray (elements : list JsonValue)
| JObject (members : list (JsString * JsonValue)).

Inductive Token :=
| TLBrace | TRBrace | TLBracket | TRBracket | TColon | TComma
| TScalar (v : JsonValue).

(** Where the scanner stands inside a number literal. *)
Inductive NumState :=
| NMinus | NZero | NInt | NPoint | NFrac | NExp | NExpSign | NExpDigits.

Record NumAcc := mkNumAcc {
  acc_negative : bool;
  acc_digits : N;
  acc_scale : Z;
  acc_exp_negative : bool;
  acc_exp : Z
}.

Definition num_value (a : NumAcc) : JsonNumber :=
  {| negative := acc_negative a;
     digits := acc_digits a;
     exponent := (if acc_exp_negative a then - acc_exp a else acc_exp a) - acc_scale a |}.

Inductive LexState :=
| LIdle
| LString (acc : JsString)
| LEscape (acc : JsString)
| LUnicode (acc : JsString) (seen : nat) (code : N)
| LNumber (st : NumState) (a : NumAcc)
| LWord (rest : JsString) (tok : Token).

Definition digit_of (c : N) : option N :=
  if ((48 <=? c) && (c <=? 57))%N then Some (c - 48)%N else None.

Definition hex_of (c : N) : option N :=
  if ((48 <=? c) && (c <=? 57))%N then Some (c - 48)%N
  else if ((65 <=? c) && (c <=? 70))%N then Some (c - 55)%N
  else if ((97 <=? c) && (c <=? 102))%N then Some (c - 87)%N
  else None.

Definition push_digit (a : NumAcc) (d : N) (fraction : bool) : NumAcc :=
  {| acc_negative := acc_negative a;
     acc_digits := (acc_digits a * 10 + d)%N;
     acc_scale := if fraction then acc_scale a + 1 else acc_scale a;
     acc_exp_negative := acc_exp_negative a;
     acc_exp := acc_exp a |}.

Definition push_exp_digit (a : NumAcc) (d : N) : NumAcc :=
  {| acc_negative := acc_negative a;
     acc_digits := acc_digits a;
     acc_scale := acc_scale a;
     acc_exp_negative := acc_exp_negative a;
     acc_exp := acc_exp a * 10 + Z.of_N d |}.

Definition set_exp_negative (a : NumAcc) : NumAcc :=
  {| acc_negative := acc_negative a;
     acc_digits := acc_digits a;
     acc_scale := acc_scale a;
     acc_exp_negative := true;
     acc_exp := acc_exp a |}.

Definition num_start (neg : bool) (d : N) : NumAcc :=
  {| acc_negative := neg; acc_digits := d; acc_scale := 0;
     acc_exp_negative := false; acc_exp := 0 |}.

Definition is_e (c : N) : bool := ((c =? 101) || (c =? 69))%N.

(** One more code unit of a number literal, if [c] continues it. *)
Definition num_step (st : NumState) (a : NumAcc) (c : N) : option (NumState * NumAcc) :=
  match st with
  | NMinus =>
      d ← digit_of c;
      Some (if (d =? 0)%N then NZero else NInt, push_digit a d false)
  | NZero =>
      if (c =? 46)%N then Some (NPoint, a)
      else if is_e c then Some (NExp, a)
      else None
  | NInt =>
      match digit_of c with
      | Some d => Some (NInt, push_digit a d false)
      | None =>
          if (c =? 46)%N then Some (NPoint, a)
          else if is_e c then Some (NExp, a)
          else None
      end
  | NPoint => d ← digit_of c; Some (NFrac, push_digit a d true)
  | NFrac =>
      match digit_of c with
      | Some d => Some (NFrac, push_digit a d true)
      | None => if is_e c then Some (NExp, a) else None
      end
  | NExp =>
      match digit_of c with
      | Some d => Some (NExpDigits, push_exp_digit a d)
      | None =>
          if (c =? 43)%N then Some (NExpSign, a)
          else if (c =? 45)%N then Some (NExpSign, set_exp_negative a)
          else None
      end
  | NExpSign => d ← digit_of c; Some (NExpDigits, push_exp_digit a d)
  | NExpDigits => d ← digit_of c; Some (NExpDigits, push_exp_digit a d)
  end.

Definition num_complete (st : NumState) : bool :=
  match st with
  | NZero | NInt | NFrac | NExpDigits => true
  | _ => false
  end.

(** JSON white space: space, tab, line feed, carriage return. *)
Definition is_json_space (c : N) : bool :=
  ((c =? 32) || (c =? 9) || (c =? 10) || (c =? 13))%N.

(** A code unit met between tokens. *)
Definition idle_step (c : N) : option (LexState * list Token) :=
  if is_json_space c then Some (LIdle, [])
  else if (c =? 123)%N then Some (LIdle, [TLBrace])
  else if (c =? 125)%N then Some (LIdle, [TRBrace])
  else if (c =? 91)%N then Some (LIdle, [TLBracket])
  else if (c =? 93)%N then Some (LIdle, [TRBracket])
  else if (c =? 58)%N then Some (LIdle, [TColon])
  else if (c =? 44)%N then Some (LIdle, [TComma])
  else if (c =? 34)%N then Some (LString [], [])
  else if (c =? 45)%N then
    Some (LNumber NMinus
            {| acc_negative := true; acc_digits := 0; acc_scale := 0;
               acc_exp_negative := false; acc_exp := 0 |}, [])
  else if (c =? 116)%N then Some (LWord (js "rue") (TScalar (JBool true)), [])
  else if (c =? 102)%N then Some (LWord (js "alse") (TScalar (JBool false)), [])
  else if (c =? 110)%N then Some (LWord (js "ull") (TScalar JNull), [])
  else
    d ← digit_of c;
    Some (LNumber (if (d =? 0)%N then NZero else NInt) (num_start false d), []).

(** The character an escape letter stands for. *)
Definition escape_of (c : N) : option N :=
  if (c =? 34)%N then Some 34%N
  else if (c =? 92)%N then Some 92%N
  else if (c =? 47)%N then Some 47%N
  else if (c =? 98)%N then Some 8%N
  else if (c =? 102)%N then Some 12%N
  else if (c =? 110)%N then Some 10%N
  else if (c =? 114)%N then Some 13%N
  else if (c =? 116)%N then Some 9%N
  else None.

Definition lex_step (st : LexState) (c : N) : option (LexState * list Token) :=
  match st with
  | LIdle => idle_step c
  | LString acc =>
      if (c =? 34)%N then Some (LIdle, [TScalar (JString (reverse acc))])
      else if (c =? 92)%N then Some (LEscape acc, [])
      else if (c <? 32)%N then None
      else Some (LString (c :: acc), [])
  | LEscape acc =>
      if (c =? 117)%N then Some (LUnicode acc 0 0%N, [])
      else e ← escape_of c; Some (LString (e :: acc), [])
  | LUnicode acc seen code =>
      h ← hex_of c;
      let code' := (code * 16 + h)%N in
      Some (if (seen =? 3)%nat then LString (code' :: acc)
            else LUnicode acc (S seen) code', [])
  | LNumber nst a =>
      match num_step nst a c with
      | Some (nst', a') => Some (LNumber nst' a', [])
      | None =>
          if num_complete nst then
            '(st', toks) ← idle_step c;
            Some (st', TScalar (JNumber (num_value a)) :: toks)
          else None
      end
  | LWord rest tok =>
      match rest with
      | [] => None
      | x :: rest' =>
          if (c =? x)%N then
            Some (match rest' with
                  | [] => (LIdle, [tok])
                  | _ => (LWord rest' tok, [])
                  end)
          else None
      end
  end.

Definition lex_end (st : LexState) : option (list Token) :=
  match st with
  | LIdle => Some []
  | LNumber nst a =>
      if num_complete nst then Some [TScalar (JNumber (num_value a))] else None
  | _ => None
  end.

Fixpoint lex (st : LexState) (text : JsString) : option (list Token) :=
  match text with
  | [] => lex_end st
  | c :: text' =>
      '(st', toks) ← lex_step st c;
      rest ← lex st' text';
      Some (toks ++ rest)
  end.

(** The containers still open, innermost first: an array with the elements
    read so far, an object with its members read so far, a member name
    waiting for its value (all newest first). *)
Inductive Frame :=
| FArray (elements : list JsonValue)
| FObject (members : list (JsString * JsonValue))
| FName (name : JsString).

Inductive Expect :=
| EValue          (* a value *)
| EValueOrClose   (* a value or ], just after [ *)
| ENameOrClose    (* a member name or }, just after { *)
| EName           (* a member name, after a comma *)
| EColon          (* the colon after a member name *)
| ECommaOrClose   (* a comma or the closing bracket of the open container *)
| EEnd (v : JsonValue).  (* the text is complete *)

(** A value has been read in full: hand it to the enclosing container. *)
Definition complete (v : JsonValue) (stack : list Frame) : option (list Frame * Expect) :=
  match stack with
  | [] => Some ([], EEnd v)
  | FArray els :: stack' => Some (FArray (v :: els) :: stack', ECommaOrClose)
  | FName k :: FObject ms :: stack' => Some (FObject ((k, v) :: ms) :: stack', ECommaOrClose)
  | _ => None
  end.

Definition parse_step (state : list Frame * Expect) (tok : Token)
  : option (list Frame * Expect) :=
  let (stack, expect) := state in
  match expect, tok with
  | (EValue | EValueOrClose), TScalar v => complete v stack
  | (EValue | EValueOrClose), TLBracket => Some (FArray [] :: stack, EValueOrClose)
  | (EValue | EValueOrClose), TLBrace => Some (FObject [] :: stack, ENameOrClose)
  | EValueOrClose, TRBracket =>
      match stack with
      | FArray _ :: stack' => complete (JArray []) stack'
      | _ => None
      end
  | ENameOrClose, TRBrace =>
      match stack with
      | FObject _ :: stack' => complete (JObject []) stack'
      | _ => None
      end
  | (ENameOrClose | EName), TScalar (JString k) => Some (FName k :: stack, EColon)
  | EColon, TColon => Some (stack, EValue)
  | ECommaOrClose, TComma =>
      match stack with
      | FArray _ :: _ => Some (stack, EValue)
      | FObject _ :: _ => Some (stack, EName)
      | _ => None
      end
  | ECommaOrClose, TRBracket =>
      match stack with
      | FArray els :: stack' => complete (JArray (reverse els)) stack'
      | _ => None
      end
  | ECommaOrClose, TRBrace =>
      match stack with
      | FObject ms :: stack' => complete (JObject (reverse ms)) stack'
      | _ => None
      end
  | _, _ => None
  end.

Fixpoint parse_tokens (state : list Frame * Expect) (toks : list Token)
  : option JsonValue :=
  match toks with
  | [] => match snd state with
          | EEnd v => Some v
          | _ => None
          end
  | tok :: toks' => state' ← parse_step state tok; parse_tokens state' toks'
  end.

(** [JSON.parse(text)]: the value, or the [SyntaxError] it throws. *)
Definition JSON_parse (text : JsString) : Try JsonValue :=
  match lex LIdle text ≫= parse_tokens ([], EValue) with
  | Some v => Returned v
  | None => Thrown (js "SyntaxError")
  end.

(** ** Reading a parsed value *)

(** [ToBoolean] of a number literal: its double is zero when the literal
    has no non-zero digit, or when its magnitude is at most 2^-1075 and so
    rounds to zero. *)
Definition number_is_zero (n : JsonNumber) : bool :=
  (digits n =? 0)%N ||
  ((exponent n <? 0) && (Z.of_N (digits n) * 2 ^ 1075 <=? 10 ^ (- exponent n))).

Definition truthy (v : JsonValue) : bool :=
  match v with
  | JNull => false
  | JBool b => b
  | JNumber n => negb (number_is_zero n)
  | JString s => negb (bool_decide (s = []))
  | JArray _ | JObject _ => true
  end.

(** The member [name] of an object literal; of a repeated name the last
    one counts. *)
Fixpoint member (name : JsString) (members : list (JsString * JsonValue))
  : option JsonValue :=
  match members with
  | [] => None
  | (k, v) :: members' =>
      match member name members' with
      | Some v' => Some v'
      | None => if decide (k = name) then Some v else None
      end
  end.

(** [parsed.name], for one of the names [html] and [css], which no
    prototype defines: [None] is [undefined]; reading a property of [null]
    throws a [TypeError]. *)
Definition get (parsed : JsonValue) (name : JsString) : Try (option JsonValue) :=
  match parsed with
  | JNull => Thrown (js "TypeError")
  | JObject members => Returned (member name members)
  | _ => Returned None
  end.

(** [value || fallback] *)
Definition or_else (value : option JsonValue) (fallback : JsonValue) : JsonValue :=
  match value with
  | Some v => if truthy v then v else fallback
  | None => fallback
  end.

#[global] Instance Try_bind : MBind Try := fun A B f m =>
  match m with
  | Returned a => f a
  | Thrown e => Thrown e
  end.

(** ** [generateWebsite] and [regenerateSection], from the provider's
       response on *)

(** What the functions return; the fields are whatever the response held
    under [html] and [css], strings when the provider kept to the format. *)
Record GeneratedWebsite := mkGeneratedWebsite {
  html : JsonValue;
  css : JsonValue
}.

(** A chat completion, each choice reduced to the content of its message
    ([None] for [null]). *)
Record ChatCompletion := mkChatCompletion {
  choices : list (option JsString)
}.

(** [response.choices[0]?.message?.content || ""] *)
Definition content_of (response : ChatCompletion) : JsString :=
  match choices response with
  | Some content :: _ => content
  | _ => []
  end.

(** [content.replace(/```json\n?/g, "").replace(/```\n?/g, "").trim()] *)
Definition cleanedContent (content : JsString) : JsString :=
  trim (replace_all (match_length false fence_re)
          (replace_all (match_length false fence_json_re) content)).

Definition generateWebsite_parse (content : JsString) : Try GeneratedWebsite :=
  let attempt :=
    parsed ← JSON_parse (cleanedContent content);
    parsed_html ← get parsed (js "html");
    parsed_css ← get parsed (js "css");
    Returned {| html := or_else parsed_html (JString []);
                css := or_else parsed_css (JString []) |} in
  match attempt with
  | Returned site => Returned site
  | Thrown error =>
      match htmlMatch content with
      | Some document =>
          Returned {| html := JString document;
                      css := match cssMatch content with
                             | Some style => JString style
                             | None => JString []
                             end |}
      | None => Thrown (js "Failed to generate website. Please try again.")
      end
  end.

Definition generateWebsite (response : ChatCompletion) : Try GeneratedWebsite :=
  generateWebsite_parse (content_of response).

Definition regenerateSection_parse (currentHtml currentCss : JsString)
    (content : JsString) : Try GeneratedWebsite :=
  let attempt :=
    parsed ← JSON_parse (cleanedContent content);
    parsed_html ← get parsed (js "html");
    parsed_css ← get parsed (js "css");
    Returned {| html := or_else parsed_html (JString currentHtml);
                css := or_else parsed_css (JString currentCss) |} in
  match attempt with
  | Returned site => Returned site
  | Thrown error =>
      match htmlMatch content with
      | Some document => Returned {| html := JString document; css := JString [] |}
      | None => Thrown (js "Failed to update website section. Please try again.")
      end
  end.

Definition regenerateSection (currentHtml currentCss : JsString)
    (response : ChatCompletion) : Try GeneratedWebsite :=
  regenerateSection_parse currentHtml currentCss (content_of response).

(** ** Sample responses *)

(** A literal in which ['] stands for the double quote. *)
Definition jsq (s : string) : JsString :=
  map (fun c => if (c =? 39)%N then 34%N else c) (js s).

Definition LF : JsString := [10%N].

(** [text] between a [```json] fence and a closing fence, each on a line
    of its own. *)
Definition fenced (text : JsString) : JsString :=
  js "```json" ++ LF ++ text ++ LF ++ js "```".

(** The same with a fence that names no language. *)
Definition fenced_plain (text : JsString) : JsString :=
  js "```" ++ LF ++ text ++ LF ++ js "```".

Definition site_document : JsString :=
  js "<!DOCTYPE html><html><head><style>body{margin:0}</style></head><body>Hi</body></html>".

(** A response that keeps to the format, one that wraps the document in
    prose, and one with neither JSON nor a document. *)
Definition site_json : JsString :=
  jsq "{'html':'<!DOCTYPE html><html><body>Hi</body></html>','css':'body{margin:0}'}".

Definition site_prose : JsString :=
  js "Here is your site: " ++ site_document ++ js " Enjoy!".

Definition site_refusal : JsString := js "Sorry, I cannot help with that.".

(** ** Sample store *)

Definition account (uid : string) (plan : PlanType.t) (st : SubscriptionStatus.t)
    (nUsed nLimit : Z) : User :=
  {| id := uid; email := uid +:+ "@example.com"; name := uid; role := CLIENT;
     aiGenerationsUsed := nUsed; aiGenerationsLimit := nLimit;
     planType := plan; subscriptionStatus := st |}.

Definition alice := account "alice" PlanType.free SubscriptionStatus.free 1 3.
Definition bob := account "bob" PlanType.pro SubscriptionStatus.active 7 999999.
Definition carol := account "carol" PlanType.pro SubscriptionStatus.free 2 3.
Definition dave := account "dave" PlanType.enterprise SubscriptionStatus.past_due 0 999999.
Definition erin := account "erin" PlanType.free SubscriptionStatus.free 3 3.
Definition frank := account "frank" PlanType.free SubscriptionStatus.active 0 3.

Definition store0 : Db :=
  {| users := list_to_map
       (map (fun u => (id u, u)) [alice; bob; carol; dave; erin; frank]);
     aiGenerations := [] |}.

(** A schema that asks for nothing but a string prompt. *)
Definition promptSchema (b : JsString) : ZodResult := ZodOk {| prompt := b |}.

Definition request (uid : string) (text : string) : AuthRequest JsString :=
  {| user_id := uid; body := js text |}.

Definition failingProvider (prompt : JsString) : Try JsString :=
  Thrown (js "connect ECONNREFUSED").

(** ** The other routes of [routes.ts], with the middleware of [auth.ts] *)

(** The row of an account after [k] credits were charged to it. *)
Definition charged (k : Z) (u : User) : User :=
  apply_update {| set_planType := None; set_subscriptionStatus := None;
                  set_aiGenerationsLimit := None;
                  set_aiGenerationsUsed := Some (aiGenerationsUsed u + k) |} u.

(** The store after [logAiGeneration] appended the record of a
    generation. *)
Definition logged (userId : string) (data : AiGenerateData) (result : JsString)
    (d : Db) : Db :=
  {| users := users d;
     aiGenerations := aiGenerations d ++
       [{| gen_userId := userId; gen_prompt := prompt data; gen_result := result;
           gen_tokensUsed := estimateTokens (prompt data) |}] |}.

(** [{ ...usage, ...subscription }], the answer of [GET /api/ai/usage]. *)
Record UsageReport := mkUsageReport {
  report_used : Z;
  report_limit : Z;
  report_remaining : Z;
  report_planType : PlanType.t;
  report_status : SubscriptionStatus.t;
  report_isBlocked : bool;
  report_canUseAi : bool
}.

Definition get_api_ai_usage (userId : string) : Storage UsageReport :=
  let* usage := getAiUsage userId in
  let* subscription := getSubscriptionStatus userId in
  ret {| report_used := used usage;
         report_limit := limit usage;
         report_remaining := remaining usage;
         report_planType := sub_planType subscription;
         report_status := sub_status subscription;
         report_isBlocked := isBlocked subscription;
         report_canUseAi := canUseAi subscription |}.

(** What a handler or a middleware sends: [res.status(s).json({ message })],
    [res.status(s).json(payload)] ([res.json(payload)] for 200), or
    [res.status(s).send()]. *)
Inductive Reply (A : Type) : Type :=
| ReplyMessage (status : Z) (message : JsString)
| ReplyJson (status : Z) (payload : A)
| ReplyEmpty (status : Z).
Arguments ReplyMessage {A} status message.
Arguments ReplyJson {A} status payload.
Arguments ReplyEmpty {A} status.

Definition reply_status {A} (r : Reply A) : Z :=
  match r with
  | ReplyMessage s _ | ReplyJson s _ | ReplyEmpty s => s
  end.

(** The payload [generateToken] signs and [verifyToken] gives back. *)
Record TokenClaims := mkTokenClaims {
  claim_id : string;
  claim_email : string;
  claim_role : Role
}.

(** [authMiddleware]: the reply that ends the request, or the [req.user]
    handed to the next handler.  [verifyToken] wraps [jwt.verify]: the
    claims of a token it accepts, [None] for one it refuses. *)
Definition authMiddleware (verifyToken : JsString -> option TokenClaims)
    (authorization : option JsString) : Reply Empty_set + User :=
  match authorization with
  | None => inl (ReplyMessage 401 (js "Authentication required"))
  | Some authHeader =>
      if negb (matches_at eq_case (js "Bearer ") authHeader) then
        inl (ReplyMessage 401 (js "Authentication required"))
      else
        let token := drop 7 authHeader in
        match verifyToken token with
        | None => inl (ReplyMessage 401 (js "Invalid or expired token"))
        | Some decoded =>
            inr {| id := claim_id decoded;
                   email := claim_email decoded;
                   name := "";
                   role := claim_role decoded;
                   aiGenerationsUsed := 0;
                   aiGenerationsLimit := 3;
                   planType := PlanType.free;
                   subscriptionStatus := SubscriptionStatus.free |}
        end
  end.

(** [adminMiddleware]: the 403 that ends the request, or [None] for
    [next()]. *)
Definition adminMiddleware (user : User) : option (Reply Empty_set) :=
  match role user with
  | ADMIN => None
  | CLIENT => Some (ReplyMessage 403 (js "Admin access required"))
  end.

(** A reply of a middleware, as the reply of the route. *)
Definition refused {A} (r : Reply Empty_set) : Reply A :=
  match r with
  | ReplyMessage s m => ReplyMessage s m
  | ReplyJson s p => match p with end
  | ReplyEmpty s => ReplyEmpty s
  end.

(** [db.delete(users).where(eq(users.id, id)).returning()], answered by
    whether a row came back.  Only the [users] table is written here;
    what the store does to rows that refer to the user is the schema's. *)
Definition deleteUser (userId : string) : Storage bool :=
  fun d => (bool_decide (is_Some (users d !! userId)),
            {| users := delete userId (users d); aiGenerations := aiGenerations d |}).

Definition with_role (r : Role) (u : User) : User :=
  {| id := id u; email := email u; name := name u; role := r;
     aiGenerationsUsed := aiGenerationsUsed u;
     aiGenerationsLimit := aiGenerationsLimit u;
     planType := planType u;
     subscriptionStatus := subscriptionStatus u |}.

(** [db.update(users).set({ role }).where(eq(users.id, id)).returning(...)]:
    the updated row, if there is one. *)
Definition updateUserRole (userId : string) (r : Role) : Storage (option User) :=
  fun d =>
    let users' := alter (with_role r) userId (users d) in
    (users' !! userId, {| users := users'; aiGenerations := aiGenerations d |}).

(** [updateRoleSchema.parse(req.body)] for
    [z.object({ role: z.enum(["ADMIN", "CLIENT"]) })]: the role, or [None]
    when the parse throws a [ZodError]. *)
Definition updateRoleSchema_parse (body : JsonValue) : option Role :=
  match body with
  | JObject members =>
      match member (js "role") members with
      | Some (JString r) =>
          if decide (r = js "ADMIN") then Some ADMIN
          else if decide (r = js "CLIENT") then Some CLIENT
          else None
      | _ => None
      end
  | _ => None
  end.

Section AdminRoutes.
Variable verifyToken : JsString -> option TokenClaims.
(** The message of the first issue of the [ZodError] for a body the schema
    refuses, as zod words it. *)
Variable zodMessage : JsonValue -> JsString.

(** [DELETE /api/admin/users/:id] *)
Definition delete_api_admin_users_id (authorization : option JsString)
    (params_id : string) : Storage (Reply unit) :=
  match authMiddleware verifyToken authorization with
  | inl r => ret (refused r)
  | inr user =>
      match adminMiddleware user with
      | Some r => ret (refused r)
      | None =>
          if bool_decide (params_id = id user) then
            ret (ReplyMessage 400 (js "Cannot delete yourself"))
          else
            let* deleted := deleteUser params_id in
            if negb deleted then ret (ReplyMessage 404 (js "User not found"))
            else ret (ReplyEmpty 204)
      end
  end.

(** [PATCH /api/admin/users/:id/role] *)
Definition patch_api_admin_users_id_role (authorization : option JsString)
    (params_id : string) (body : JsonValue) : Storage (Reply User) :=
  match authMiddleware verifyToken authorization with
  | inl r => ret (refused r)
  | inr user =>
      match adminMiddleware user with
      | Some r => ret (refused r)
      | None =>
          match updateRoleSchema_parse body with
          | None => ret (ReplyMessage 400 (zodMessage body))
          | Some validated_role =>
              let* updated := updateUserRole params_id validated_role in
              match updated with
              | None => ret (ReplyMessage 404 (js "User not found"))
              | Some updated => ret (ReplyJson 200 updated)
              end
          end
      end
  end.
End AdminRoutes.

(** ** Projects *)

(** A row of [projects], with the columns [storage.ts] and [routes.ts]
    read: the key, the owner, the status, the template (a string or
    [null]) and the creation time. *)
Record Project := mkProject {
  project_id : string;
  project_userId : string;
  project_status : JsString;
  project_templateId : option JsString;
  project_createdAt : Z
}.

(** The [projects] table, by primary key. *)
Definition getProject (projectId : string) (projects : gmap string Project)
  : option Project :=
  projects !! projectId.

Definition deleteProject (projectId : string) (projects : gmap string Project)
  : bool * gmap string Project :=
  (bool_decide (is_Some (projects !! projectId)), delete projectId projects).

(** [project.userId !== req.user!.id && req.user!.role !== "ADMIN"] *)
Definition access_denied (project : Project) (user : User) : bool :=
  negb (bool_decide (project_userId project = id user)) &&
  negb (match role user with ADMIN => true | CLIENT => false end).

Section ProjectRoutes.
Variable verifyToken : JsString -> option TokenClaims.

(** [GET /api/projects/:id] *)
Definition get_api_projects_id (authorization : option JsString)
    (params_id : string) (projects : gmap string Project) : Reply Project :=
  match authMiddleware verifyToken authorization with
  | inl r => refused r
  | inr user =>
      match getProject params_id projects with
      | None => ReplyMessage 404 (js "Project not found")
      | Some project =>
          if access_denied project user then ReplyMessage 403 (js "Access denied")
          else ReplyJson 200 project
      end
  end.

(** [DELETE /api/projects/:id]: the reply and the table it leaves. *)
Definition delete_api_projects_id (authorization : option JsString)
    (params_id : string) (projects : gmap string Project)
  : Reply unit * gmap string Project :=
  match authMiddleware verifyToken authorization with
  | inl r => (refused r, projects)
  | inr user =>
      match getProject params_id projects with
      | None => (ReplyMessage 404 (js "Project not found"), projects)
      | Some project =>
          if access_denied project user then
            (ReplyMessage 403 (js "Access denied"), projects)
          else
            (ReplyEmpty 204, snd (deleteProject params_id projects))
      end
  end.
End ProjectRoutes.

(** [ORDER BY created_at DESC] by insertion; rows of the same time keep
    the order they came in, where the store is free to choose. *)
Fixpoint insert_newest (p : Project) (sorted : list Project) : list Project :=
  match sorted with
  | [] => [p]
  | q :: rest =>
      if project_createdAt q <? project_createdAt p then p :: sorted
      else q :: insert_newest p rest
  end.

Definition newest_first (rows : list Project) : list Project :=
  foldr insert_newest [] rows.

(** [getProjects]: the rows of [userId], newest first. *)
Definition getProjects (userId : string) (projects : gmap string Project)
  : list Project :=
  newest_first
    (filter (fun p => project_userId p = userId) (snd <$> map_to_list projects)).

Record UserStats := mkUserStats {
  totalProjects : Z;
  publishedSites : Z;
  templatesUsed : Z
}.

(** A [templateId] that [filter((p) => p.templateId)] keeps: a string that
    is not empty. *)
Definition has_template (p : Project) : bool :=
  match project_templateId p with
  | Some t => negb (bool_decide (t = []))
  | None => false
  end.

(** [getUserStats], without the constant [storageUsed]. *)
Definition getUserStats (userId : string) (projects : gmap string Project) : UserStats :=
  let userProjects := getProjects userId projects in
  let publishedCount :=
    length (filter (fun p => project_status p = js "published") userProjects) in
  let templatesUsedCount := length (filter (fun p => has_template p = true) userProjects) in
  {| totalProjects := Z.of_nat (length userProjects);
     publishedSites := Z.of_nat publishedCount;
     templatesUsed := Z.of_nat templatesUsedCount |}.

(** The [templateId] that [POST /api/projects] stores:
    [templateId && templateId !== "none" ? templateId : null]. *)
Definition stored_templateId (templateId : option JsString) : option JsString :=
  match templateId with
  | Some t =>
      if negb (bool_decide (t = [])) && negb (bool_decide (t = js "none"))
      then Some t else None
  | None => None
  end.

(** ** Sample tokens and projects *)

(** Tokens are accepted here when they read [admin:<id>] or
    [client:<id>]. *)
Definition sampleVerify (token : JsString) : option TokenClaims :=
  if matches_at eq_case (js "admin:") token then
    Some {| claim_id := String.string_of_list_ascii (map Ascii.ascii_of_N (drop 6 token));
            claim_email := "root@example.com"; claim_role := ADMIN |}
  else if matches_at eq_case (js "client:") token then
    Some {| claim_id := String.string_of_list_ascii (map Ascii.ascii_of_N (drop 7 token));
            claim_email := "user@example.com"; claim_role := CLIENT |}
  else None.

Definition bearer (token : string) : option JsString := Some (js "Bearer " ++ js token).

Definition sampleProjects : gmap string Project :=
  list_to_map
    (map (fun p => (project_id p, p))
       [ {| project_id := "p1"; project_userId := "alice";
            project_status := js "published"; project_templateId := Some (js "t1");
            project_createdAt := 10 |};
         {| project_id := "p2"; project_userId := "alice";
            project_status := js "draft"; project_templateId := None;
            project_createdAt := 30 |};
         {| project_id := "p3"; project_userId := "bob";
            project_status := js "published"; project_templateId := Some (js "t2");
            project_createdAt := 20 |} ]).

(** * Properties *)

(** ** The embedded built-ins on small inputs *)

Example JSON_parse_object :
  JSON_parse (jsq " { 'a' : [1, -2.50e+3, true, null, 'x\nA'], 'b' : {'c' : []} } ") =
    Returned (JObject
      [(js "a", JArray [JNumber {| negative := false; digits := 1; exponent := 0 |};
                        JNumber {| negative := true; digits := 250; exponent := 1 |};
                        JBool true; JNull; JString [120; 10; 65]%N]);
       (js "b", JObject [(js "c", JArray [])])]).
Proof. reflexivity. Qed.

Example JSON_parse_rejects :
  Forall (fun text => JSON_parse (jsq text) = Thrown (js "SyntaxError"))
    [""; "[1,]"; "{'a':1,}"; "{'a' 1}"; "{a:1}"; "01"; "1."; "-"; "+1"; ".5"; "tru";
     "true false"; "'abc"; "[}"; "{} x"; "<!DOCTYPE html><html></html>"].
Proof. repeat constructor. Qed.

Example JSON_parse_scalars :
  JSON_parse (js "null") = Returned JNull /\
  JSON_parse (js " 0 ") = Returned (JNumber {| negative := false; digits := 0; exponent := 0 |}) /\
  JSON_parse (jsq "'A\u00e9\/'") = Returned (JString [65; 233; 47]%N).
Proof. repeat split. Qed.

Example member_last_wins :
  JSON_parse (jsq "{'html':'a','html':'b'}") =
    Returned (JObject [(js "html", JString (js "a")); (js "html", JString (js "b"))]) /\
  get (JObject [(js "html", JString (js "a")); (js "html", JString (js "b"))]) (js "html") =
    Returned (Some (JString (js "b"))).
Proof. split; reflexivity. Qed.

Example truthy_values :
  truthy (JString []) = false /\ truthy (JString (js "0")) = true /\
  truthy (JNumber {| negative := true; digits := 0; exponent := 0 |}) = false /\
  truthy (JNumber {| negative := false; digits := 5; exponent := -324 |}) = true /\
  truthy (JNumber {| negative := false; digits := 2; exponent := -324 |}) = false /\
  truthy (JArray []) = true /\ truthy (JObject []) = true /\ truthy JNull = false.
Proof. repeat split. Qed.

Example cleanedContent_fence :
  cleanedContent (js "```json" ++ LF ++ js "{}" ++ LF ++ js "```" ++ LF) = js "{}" /\
  cleanedContent (js "  ```{}``` ") = js "{}" /\
  cleanedContent (js "a```b") = js "ab".
Proof. repeat split. Qed.

Example generateWebsite_content :
  generateWebsite {| choices := [Some site_json; Some site_refusal] |} =
    generateWebsite_parse site_json /\
  generateWebsite {| choices := [None] |} =
    Thrown (js "Failed to generate website. Please try again.") /\
  regenerateSection (js "<p>old</p>") [] {| choices := [] |} =
    Thrown (js "Failed to update website section. Please try again.").
Proof. repeat split. Qed.

Example htmlMatch_greedy :
  htmlMatch (js "x <!doctype HTML><html>a</html>b</HTML> y <!DOCTYPE html> z") =
    Some (js "<!doctype HTML><html>a</html>b</HTML>") /\
  htmlMatch (js "<!DOCTYPE html><html>") = None /\
  htmlMatch (js "</html><!DOCTYPE html>") = None.
Proof. repeat split. Qed.

Example cssMatch_first :
  cssMatch (js "<STYLE type=x>p{}</style> <style>q{}</style>") = Some (js "p{}") /\
  cssMatch (js "<style>p{}") = None /\
  cssMatch (js "<style p{}</style>") = None.
Proof. repeat split. Qed.

(** ** Equations of the storage methods *)

Lemma getUser_eq userId d : getUser userId d = (users d !! userId, d).
Proof. reflexivity. Qed.

Lemma getSubscriptionStatus_found userId d u :
  users d !! userId = Some u ->
  getSubscriptionStatus userId d =
    ({| sub_planType := planType u; sub_status := subscriptionStatus u;
        isBlocked := status_isBlocked (subscriptionStatus u);
        canUseAi := negb (status_isBlocked (subscriptionStatus u)) &&
                    ((aiGenerationsUsed u <? aiGenerationsLimit u) || hasPaidPlan (planType u)) |}, d).
Proof. intros H. unfold getSubscriptionStatus, bind. rewrite getUser_eq, H. reflexivity. Qed.

Lemma getSubscriptionStatus_missing userId d :
  users d !! userId = None ->
  getSubscriptionStatus userId d =
    ({| sub_planType := PlanType.free; sub_status := SubscriptionStatus.free;
        isBlocked := false; canUseAi := true |}, d).
Proof. intros H. unfold getSubscriptionStatus, bind. rewrite getUser_eq, H. reflexivity. Qed.

Lemma getSubscriptionStatus_reads userId d : snd (getSubscriptionStatus userId d) = d.
Proof.
  destruct (users d !! userId) as [u|] eqn:E.
  - now rewrite (getSubscriptionStatus_found _ _ _ E).
  - now rewrite (getSubscriptionStatus_missing _ _ E).
Qed.

Lemma getAiUsage_found userId d u :
  users d !! userId = Some u ->
  getAiUsage userId d =
    ({| used := aiGenerationsUsed u; limit := aiGenerationsLimit u;
        remaining := Z.max 0 (aiGenerationsLimit u - aiGenerationsUsed u) |}, d).
Proof. intros H. unfold getAiUsage, bind. rewrite getUser_eq, H. reflexivity. Qed.

Lemma getAiUsage_reads userId d : snd (getAiUsage userId d) = d.
Proof.
  unfold getAiUsage, bind. rewrite getUser_eq.
  now destruct (users d !! userId).
Qed.

Lemma alter_const_found (f : User -> User) userId (m : gmap string User) u :
  m !! userId = Some u -> alter f userId m = <[userId := f u]> m.
Proof.
  intros H. apply map_eq. intros k.
  destruct (decide (userId = k)) as [->|Hne].
  - now rewrite lookup_alter_eq, lookup_insert_eq, H.
  - now rewrite lookup_alter_ne, lookup_insert_ne.
Qed.

Lemma incrementAiUsage_missing userId d :
  users d !! userId = None -> incrementAiUsage userId d = (false, d).
Proof. intros H. unfold incrementAiUsage, bind. rewrite getUser_eq, H. reflexivity. Qed.

Lemma incrementAiUsage_unlimited userId d u :
  users d !! userId = Some u ->
  hasPaidPlan (planType u) = true -> subscriptionStatus u = SubscriptionStatus.active ->
  incrementAiUsage userId d = (true, d).
Proof.
  intros H Hp Hs. unfold incrementAiUsage, bind. rewrite getUser_eq, H, Hp, Hs. reflexivity.
Qed.

Lemma incrementAiUsage_limited userId d u :
  users d !! userId = Some u ->
  hasPaidPlan (planType u) && isActiveSubscription (subscriptionStatus u) = false ->
  incrementAiUsage userId d =
    if aiGenerationsUsed u >=? aiGenerationsLimit u then (false, d)
    else (true, {| users := <[userId := bump u]> (users d);
                   aiGenerations := aiGenerations d |}).
Proof.
  intros H Hb. unfold incrementAiUsage, bind. rewrite getUser_eq, H, Hb.
  destruct (aiGenerationsUsed u >=? aiGenerationsLimit u); [reflexivity|].
  unfold exec, update_users_where_id, ret. simpl.
  now rewrite (alter_const_found _ _ _ _ H).
Qed.

(** ** The subscription policy *)

Lemma hasPaidPlan_true p :
  hasPaidPlan p = true <-> p = PlanType.pro \/ p = PlanType.enterprise.
Proof. destruct p; simpl; split; intros H; try tauto; try discriminate; destruct H; discriminate. Qed.

Lemma isActiveSubscription_true s :
  isActiveSubscription s = true <-> s = SubscriptionStatus.active.
Proof. destruct s; simpl; split; intros H; try tauto; discriminate. Qed.


(** C1: for an existing account [getSubscriptionStatus] reads the store
    without changing it and answers the account's plan and status, with
    [isBlocked] true exactly for the statuses past_due and cancelled, and
    [canUseAi] true exactly when the account is not blocked and has either
    credits left (used < limit) or a pro or enterprise plan. *)
Theorem getSubscriptionStatus_policy (userId : string) (d : Db) (u : User) :
  users d !! userId = Some u ->
  exists s, getSubscriptionStatus userId d = (s, d) /\
    sub_planType s = planType u /\
    sub_status s = subscriptionStatus u /\
    (isBlocked s = true <->
       subscriptionStatus u = SubscriptionStatus.past_due \/
       subscriptionStatus u = SubscriptionStatus.cancelled) /\
    (canUseAi s = true <->
       isBlocked s = false /\
       (aiGenerationsUsed u < aiGenerationsLimit u \/
        planType u = PlanType.pro \/ planType u = PlanType.enterprise)).
Proof.
  intros H. eexists. split; [apply (getSubscriptionStatus_found _ _ _ H)|].
  cbn [sub_planType sub_status isBlocked canUseAi].
  split; [reflexivity|]. split; [reflexivity|]. split.
  - destruct (subscriptionStatus u); simpl; split; intros Hs;
      try tauto; try discriminate; destruct Hs; discriminate.
  - rewrite andb_true_iff, negb_true_iff, orb_true_iff, Z.ltb_lt, hasPaidPlan_true.
    tauto.
Qed.


Lemma getSubscriptionStatus_policy_witness :
  exists s, getSubscriptionStatus "alice" store0 = (s, store0) /\
    sub_planType s = PlanType.free /\
    sub_status s = SubscriptionStatus.free /\
    (isBlocked s = true <->
       subscriptionStatus alice = SubscriptionStatus.past_due \/
       subscriptionStatus alice = SubscriptionStatus.cancelled) /\
    (canUseAi s = true <->
       isBlocked s = false /\
       (aiGenerationsUsed alice < aiGenerationsLimit alice \/
        planType alice = PlanType.pro \/ planType alice = PlanType.enterprise)).
Proof. apply (getSubscriptionStatus_policy "alice" store0 alice). reflexivity. Defined.

(** ** The generate handler, step by step *)

Section GenerateFacts.
Context {Body : Type}.
Variable parse : Body -> ZodResult.
Variable provider : JsString -> Try JsString.
Variable req : AuthRequest Body.
Variable data : AiGenerateData.
Hypothesis Hvalid : parse (body req) = ZodOk data.

Lemma generate_blocked d :
  isBlocked (fst (getSubscriptionStatus (user_id req) d)) = true ->
  post_api_ai_generate parse provider req d =
    ({| status := 402;
        json := PaymentBody
          (js "Your subscription requires payment. Please upgrade to continue using AI features.")
          true (fst (getSubscriptionStatus (user_id req) d)) |}, d).
Proof.
  intros Hb. unfold post_api_ai_generate. rewrite Hvalid. unfold bind at 1.
  pose proof (getSubscriptionStatus_reads (user_id req) d) as Hd.
  destruct (getSubscriptionStatus (user_id req) d) as [s d']. simpl in *.
  subst d'. now rewrite Hb.
Qed.

Lemma generate_no_credit d :
  isBlocked (fst (getSubscriptionStatus (user_id req) d)) = false ->
  canUseAi (fst (getSubscriptionStatus (user_id req) d)) = false ->
  post_api_ai_generate parse provider req d =
    ({| status := 403;
        json := UpgradeBody
          (js "AI generation limit reached. Upgrade your plan for unlimited generations.")
          true (fst (getSubscriptionStatus (user_id req) d)) |}, d).
Proof.
  intros Hb Hc. unfold post_api_ai_generate. rewrite Hvalid. unfold bind at 1.
  pose proof (getSubscriptionStatus_reads (user_id req) d) as Hd.
  destruct (getSubscriptionStatus (user_id req) d) as [s d']. simpl in *.
  subst d'. now rewrite Hb, Hc.
Qed.

(** Past the gate the handler is the provider call followed, on success
    only, by the ledger. *)
Lemma generate_past_gate d :
  isBlocked (fst (getSubscriptionStatus (user_id req) d)) = false ->
  canUseAi (fst (getSubscriptionStatus (user_id req) d)) = true ->
  post_api_ai_generate parse provider req d =
    match provider (prompt data) with
    | Thrown _ =>
        ({| status := 503;
            json := MessageBody
              (js "AI service temporarily unavailable. Please try again. Your credits were not used.") |}, d)
    | Returned result =>
        let tokensUsed := estimateTokens (prompt data) in
        let (canIncrement, d1) := incrementAiUsage (user_id req) d in
        if canIncrement then
          let d2 := {| users := users d1;
                       aiGenerations := aiGenerations d1 ++
                         [{| gen_userId := user_id req; gen_prompt := prompt data;
                             gen_result := result; gen_tokensUsed := tokensUsed |}] |} in
          ({| status := 200;
              json := ResultBody result tokensUsed (fst (getAiUsage (user_id req) d2)) |}, d2)
        else
          ({| status := 403;
              json := MessageBody
                (js "AI generation limit reached. Upgrade your plan for more generations.") |}, d1)
    end.
Proof.
  intros Hb Hc. unfold post_api_ai_generate. rewrite Hvalid. unfold bind at 1.
  pose proof (getSubscriptionStatus_reads (user_id req) d) as Hd.
  destruct (getSubscriptionStatus (user_id req) d) as [s d']. simpl in Hb, Hc, Hd.
  subst d'. rewrite Hb, Hc. cbn [negb]. unfold bind at 1.
  pose proof (getAiUsage_reads (user_id req) d) as Hu.
  destruct (getAiUsage (user_id req) d) as [usage d']. simpl in Hu. subst d'.
  destruct (provider (prompt data)) as [result|e]; [|reflexivity].
  unfold bind at 1. cbv zeta.
  destruct (incrementAiUsage (user_id req) d) as [[|] d1]; cbn [negb]; [|reflexivity].
  unfold bind at 1, logAiGeneration at 1, bind at 1, exec, ret at 1.
  unfold bind at 1.
  match goal with |- context [getAiUsage ?i ?x] =>
    pose proof (getAiUsage_reads i x) as Hu; destruct (getAiUsage i x) as [u3 d3] end.
  simpl in Hu. now subst d3.
Qed.
End GenerateFacts.

(** ** The gate of [POST /api/ai/generate] *)

(** C2: for a request whose body the schema accepts, the subscription gate
    is decided before the provider is consulted: when the snapshot of the
    caller's account is blocked the answer is 402 with that snapshot, else
    when [canUseAi] is false the answer is 403 with the snapshot; both hold
    whatever the provider would do and leave the store as it was.  An
    account whose status is past_due or cancelled gets the 402 whatever its
    plan and counters are. *)
Theorem generate_gate_before_provider {Body : Type} (parse : Body -> ZodResult)
    (provider : JsString -> Try JsString) (req : AuthRequest Body)
    (data : AiGenerateData) (d : Db) :
  parse (body req) = ZodOk data ->
  let s := fst (getSubscriptionStatus (user_id req) d) in
  (isBlocked s = true ->
     post_api_ai_generate parse provider req d =
       ({| status := 402;
           json := PaymentBody
             (js "Your subscription requires payment. Please upgrade to continue using AI features.")
             true s |}, d)) /\
  (isBlocked s = false -> canUseAi s = false ->
     post_api_ai_generate parse provider req d =
       ({| status := 403;
           json := UpgradeBody
             (js "AI generation limit reached. Upgrade your plan for unlimited generations.")
             true s |}, d)) /\
  (forall u, users d !! user_id req = Some u ->
     subscriptionStatus u = SubscriptionStatus.past_due \/
     subscriptionStatus u = SubscriptionStatus.cancelled ->
     post_api_ai_generate parse provider req d =
       ({| status := 402;
           json := PaymentBody
             (js "Your subscription requires payment. Please upgrade to continue using AI features.")
             true {| sub_planType := planType u; sub_status := subscriptionStatus u;
                     isBlocked := true; canUseAi := false |} |}, d)).
Proof.
  intros Hvalid s. split; [|split].
  - intros Hb. now apply generate_blocked with (data := data).
  - intros Hb Hc. now apply generate_no_credit with (data := data).
  - intros u Hu Hst.
    assert (Hblk : status_isBlocked (subscriptionStatus u) = true)
      by (destruct Hst as [E|E]; now rewrite E).
    rewrite (generate_blocked parse provider req data Hvalid d);
      rewrite (getSubscriptionStatus_found _ _ _ Hu); simpl; [|exact Hblk].
    now rewrite Hblk.
Qed.

Lemma generate_gate_before_provider_witness :
  post_api_ai_generate promptSchema failingProvider (request "dave" "a landing page") store0 =
    ({| status := 402;
        json := PaymentBody
          (js "Your subscription requires payment. Please upgrade to continue using AI features.")
          true {| sub_planType := PlanType.enterprise;
                  sub_status := SubscriptionStatus.past_due;
                  isBlocked := true; canUseAi := false |} |}, store0) /\
  post_api_ai_generate promptSchema failingProvider (request "erin" "a landing page") store0 =
    ({| status := 403;
        json := UpgradeBody
          (js "AI generation limit reached. Upgrade your plan for unlimited generations.")
          true {| sub_planType := PlanType.free;
                  sub_status := SubscriptionStatus.free;
                  isBlocked := false; canUseAi := false |} |}, store0).
Proof.
  split.
  - apply (generate_gate_before_provider promptSchema failingProvider
             (request "dave" "a landing page") {| prompt := js "a landing page" |} store0
             eq_refl).
    reflexivity.
  - apply (generate_gate_before_provider promptSchema failingProvider
             (request "erin" "a landing page") {| prompt := js "a landing page" |} store0
             eq_refl); reflexivity.
Defined.

(** ** The usage ledger *)

Lemma incrementAiUsage_times_unlimited userId d u n :
  users d !! userId = Some u ->
  hasPaidPlan (planType u) = true -> subscriptionStatus u = SubscriptionStatus.active ->
  incrementAiUsage_times n userId d = (replicate n true, d).
Proof.
  intros Hu Hp Hs. induction n as [|n IH]; [reflexivity|].
  cbn [incrementAiUsage_times]. unfold bind at 1.
  rewrite (incrementAiUsage_unlimited _ _ _ Hu Hp Hs).
  unfold bind at 1. now rewrite IH.
Qed.

(** C3: for an existing account, [incrementAiUsage] answers true and
    leaves the account's [aiGenerationsUsed] as it was exactly when the
    plan is pro or enterprise and the status is active; with a paid plan
    and any other status (or a free plan) the call goes through the
    credit-limited branch; and under the paid and active condition any
    number of calls in a row all answer true and leave the store
    unchanged. *)
Theorem incrementAiUsage_unlimited_iff_paid_active (userId : string) (d : Db) (u : User) :
  users d !! userId = Some u ->
  let paidActive :=
    (planType u = PlanType.pro \/ planType u = PlanType.enterprise) /\
    subscriptionStatus u = SubscriptionStatus.active in
  ((fst (incrementAiUsage userId d) = true /\
    aiGenerationsUsed <$> users (snd (incrementAiUsage userId d)) !! userId
      = Some (aiGenerationsUsed u)) <-> paidActive) /\
  (~ paidActive ->
     incrementAiUsage userId d =
       if aiGenerationsUsed u >=? aiGenerationsLimit u then (false, d)
       else (true, {| users := <[userId := bump u]> (users d);
                      aiGenerations := aiGenerations d |})) /\
  (paidActive -> forall n, incrementAiUsage_times n userId d = (replicate n true, d)).
Proof.
  intros Hu paidActive.
  assert (Hdec : paidActive <->
            hasPaidPlan (planType u) && isActiveSubscription (subscriptionStatus u) = true).
  { unfold paidActive. rewrite andb_true_iff, hasPaidPlan_true, isActiveSubscription_true.
    tauto. }
  destruct (hasPaidPlan (planType u) && isActiveSubscription (subscriptionStatus u)) eqn:E.
  - assert (Hpa : paidActive) by now apply Hdec.
    apply andb_true_iff in E as [Hp Hs]. apply isActiveSubscription_true in Hs.
    rewrite (incrementAiUsage_unlimited _ _ _ Hu Hp Hs). simpl.
    split; [|split].
    + split; [intros _; exact Hpa|]. intros _. now rewrite Hu.
    + intros Hn. now destruct Hn.
    + intros _ n. now apply incrementAiUsage_times_unlimited with (u := u).
  - assert (Hnpa : ~ paidActive) by (intros Hpa; apply Hdec in Hpa; discriminate).
    rewrite (incrementAiUsage_limited _ _ _ Hu E).
    split; [|split].
    + split; [|intros Hpa; now destruct Hnpa].
      destruct (aiGenerationsUsed u >=? aiGenerationsLimit u); simpl.
      * intros [Hf _]. discriminate.
      * rewrite lookup_insert_eq. simpl. intros [_ Hq]. injection Hq as Hq. lia.
    + reflexivity.
    + intros Hpa. now destruct Hnpa.
Qed.

Lemma incrementAiUsage_unlimited_iff_paid_active_witness :
  (forall n, incrementAiUsage_times n "bob" store0 = (replicate n true, store0)) /\
  incrementAiUsage "carol" store0 =
    (true, {| users := <["carol" := bump carol]> (users store0);
              aiGenerations := aiGenerations store0 |}).
Proof.
  split.
  - apply (incrementAiUsage_unlimited_iff_paid_active "bob" store0 bob eq_refl).
    split; [now left | reflexivity].
  - apply (incrementAiUsage_unlimited_iff_paid_active "carol" store0 carol eq_refl).
    intros [_ Hs]. discriminate Hs.
Defined.

(** C4: for a free-plan account whose status is not blocked and whose
    [aiGenerationsUsed] is below its limit, a request the schema accepts
    and the provider answers ends with 200; the store differs from the one
    before in exactly the caller's row, whose [aiGenerationsUsed] is one
    more (all other columns as they were), and in one generation record
    appended for the caller with the prompt, the result and the token
    estimate; the usage reported is the new one.  When instead the counter
    has reached the limit at the time of the ledger call,
    [incrementAiUsage] answers false and changes nothing. *)
Theorem generate_charges_one_credit {Body : Type} (parse : Body -> ZodResult)
    (provider : JsString -> Try JsString) (req : AuthRequest Body)
    (data : AiGenerateData) (d : Db) (u : User) :
  parse (body req) = ZodOk data ->
  users d !! user_id req = Some u ->
  planType u = PlanType.free ->
  (aiGenerationsUsed u < aiGenerationsLimit u ->
   status_isBlocked (subscriptionStatus u) = false ->
   forall result, provider (prompt data) = Returned result ->
     post_api_ai_generate parse provider req d =
       ({| status := 200;
           json := ResultBody result (estimateTokens (prompt data))
                     {| used := aiGenerationsUsed u + 1;
                        limit := aiGenerationsLimit u;
                        remaining := Z.max 0 (aiGenerationsLimit u - (aiGenerationsUsed u + 1)) |} |},
        {| users := <[user_id req :=
                       {| id := id u; email := email u; name := name u; role := role u;
                          aiGenerationsUsed := aiGenerationsUsed u + 1;
                          aiGenerationsLimit := aiGenerationsLimit u;
                          planType := planType u;
                          subscriptionStatus := subscriptionStatus u |}]> (users d);
           aiGenerations := aiGenerations d ++
             [{| gen_userId := user_id req; gen_prompt := prompt data;
                 gen_result := result;
                 gen_tokensUsed := estimateTokens (prompt data) |}] |})) /\
  (aiGenerationsUsed u >= aiGenerationsLimit u ->
   incrementAiUsage (user_id req) d = (false, d)).
Proof.
  intros Hvalid Hu Hfree.
  assert (Hlim : hasPaidPlan (planType u) && isActiveSubscription (subscriptionStatus u) = false)
    by now rewrite Hfree.
  split.
  - intros Hlt Hnb result Hres.
    rewrite (generate_past_gate parse provider req data Hvalid d).
    + rewrite Hres, (incrementAiUsage_limited _ _ _ Hu Hlim).
      replace (aiGenerationsUsed u >=? aiGenerationsLimit u) with false
        by (symmetry; rewrite Z.geb_leb; apply Z.leb_gt; lia).
      cbv zeta.
      erewrite getAiUsage_found by (simpl; apply lookup_insert_eq).
      reflexivity.
    + now rewrite (getSubscriptionStatus_found _ _ _ Hu).
    + rewrite (getSubscriptionStatus_found _ _ _ Hu). simpl.
      rewrite Hnb. simpl. apply orb_true_iff. left. now apply Z.ltb_lt.
  - intros Hge. rewrite (incrementAiUsage_limited _ _ _ Hu Hlim).
    replace (aiGenerationsUsed u >=? aiGenerationsLimit u) with true; [reflexivity|].
    symmetry. rewrite Z.geb_leb. apply Z.leb_le. lia.
Qed.

Lemma generate_charges_one_credit_witness :
  post_api_ai_generate promptSchema placeholderProvider (request "alice" "a bakery") store0 =
    ({| status := 200;
        json := ResultBody
          (js "Generated content for: a bakery. This is a placeholder - connect OpenAI API for real AI generation.")
          12 {| used := 2; limit := 3; remaining := 1 |} |},
     {| users := <["alice" := account "alice" PlanType.free SubscriptionStatus.free 2 3]>
                   (users store0);
        aiGenerations :=
          [{| gen_userId := "alice"; gen_prompt := js "a bakery";
              gen_result := js "Generated content for: a bakery. This is a placeholder - connect OpenAI API for real AI generation.";
              gen_tokensUsed := 12 |}] |}) /\
  incrementAiUsage "erin" store0 = (false, store0).
Proof.
  split.
  - apply (generate_charges_one_credit promptSchema placeholderProvider
             (request "alice" "a bakery") {| prompt := js "a bakery" |} store0 alice
             eq_refl eq_refl eq_refl); [reflexivity | reflexivity | reflexivity].
  - apply (generate_charges_one_credit promptSchema placeholderProvider
             (request "erin" "a bakery") {| prompt := js "a bakery" |} store0 erin
             eq_refl eq_refl eq_refl). simpl. lia.
Defined.

(** ** Plan changes *)

(** C5: for an existing account and any new plan and status,
    [updateSubscription] rewrites the caller's row only: the plan and the
    status become the given ones, the limit becomes the table's entry for
    the new plan (3 for free, 999999 for pro and for enterprise),
    [aiGenerationsUsed] becomes 0 when the new plan is free and keeps its
    value otherwise, and no other column or table changes. *)
Theorem updateSubscription_sets_plan (userId : string) (newPlan : PlanType.t)
    (newStatus : SubscriptionStatus.t) (d : Db) (u : User) :
  users d !! userId = Some u ->
  updateSubscription userId newPlan newStatus d =
    (tt, {| users := <[userId :=
                        {| id := id u; email := email u; name := name u; role := role u;
                           aiGenerationsUsed :=
                             match newPlan with
                             | PlanType.free => 0
                             | _ => aiGenerationsUsed u
                             end;
                           aiGenerationsLimit := limits newPlan;
                           planType := newPlan;
                           subscriptionStatus := newStatus |}]> (users d);
            aiGenerations := aiGenerations d |}) /\
  limits PlanType.free = 3 /\
  limits PlanType.pro = 999999 /\
  limits PlanType.enterprise = 999999.
Proof.
  intros Hu. split; [|now repeat split].
  unfold updateSubscription, exec, update_users_where_id.
  rewrite (alter_const_found _ _ _ _ Hu).
  now destruct newPlan.
Qed.

Lemma updateSubscription_sets_plan_witness :
  updateSubscription "erin" PlanType.pro SubscriptionStatus.active store0 =
    (tt, {| users := <["erin" := account "erin" PlanType.pro SubscriptionStatus.active 3 999999]>
                       (users store0);
            aiGenerations := [] |}) /\
  updateSubscription "bob" PlanType.free SubscriptionStatus.cancelled store0 =
    (tt, {| users := <["bob" := account "bob" PlanType.free SubscriptionStatus.cancelled 0 3]>
                       (users store0);
            aiGenerations := [] |}).
Proof.
  split.
  - apply (updateSubscription_sets_plan "erin" PlanType.pro SubscriptionStatus.active
             store0 erin eq_refl).
  - apply (updateSubscription_sets_plan "bob" PlanType.free SubscriptionStatus.cancelled
             store0 bob eq_refl).
Defined.

(** ** The token estimate *)

Lemma estimateTokens_div (p : JsString) :
  estimateTokens p = (3 * Z.of_nat (length p)) / 2.
Proof.
  unfold estimateTokens. set (n := Z.of_nat (length p)).
  change (Qfloor (inject_Z n * (15 # 10))) with ((n * 15) / 10).
  replace (n * 15) with ((3 * n) * 5) by lia.
  change 10 with (2 * 5). now rewrite Z.div_mul_cancel_r.
Qed.

Lemma estimateTokens_ceil_div (p : JsString) :
  estimateTokens_ceil p = - ((- (3 * Z.of_nat (length p))) / 2).
Proof.
  unfold estimateTokens_ceil. set (n := Z.of_nat (length p)).
  change (Qceiling (inject_Z n * (15 # 10))) with (- ((- (n * 15)) / 10)).
  replace (- (n * 15)) with ((- (3 * n)) * 5) by lia.
  change 10 with (2 * 5). now rewrite Z.div_mul_cancel_r.
Qed.

Lemma estimateTokens_ceil_iff_even (p : JsString) :
  estimateTokens p = estimateTokens_ceil p <-> Z.even (Z.of_nat (length p)) = true.
Proof.
  rewrite estimateTokens_div, estimateTokens_ceil_div.
  set (n := Z.of_nat (length p)).
  rewrite Z.even_spec. split.
  - intros H. exists (3 * n / 2 - n).
    pose proof (Z.div_mod (3 * n) 2 ltac:(lia)) as H1.
    pose proof (Z.div_mod (- (3 * n)) 2 ltac:(lia)) as H2.
    pose proof (Z.mod_pos_bound (3 * n) 2 ltac:(lia)).
    pose proof (Z.mod_pos_bound (- (3 * n)) 2 ltac:(lia)).
    lia.
  - intros [k ->].
    replace (3 * (2 * k)) with ((3 * k) * 2) by lia.
    replace (- (3 * k * 2)) with ((- (3 * k)) * 2) by lia.
    rewrite !Z.div_mul by lia. lia.
Qed.

(** C6, as the code has it: whenever the handler answers with a result,
    the [tokensUsed] of the answer is the floor of one and a half times
    the length of the accepted prompt, that is (3 * length) / 2 rounded
    down; it is the ceiling the specification names exactly for prompts of
    even length. *)
Theorem generate_tokensUsed_floor {Body : Type} (parse : Body -> ZodResult)
    (provider : JsString -> Try JsString) (req : AuthRequest Body) (d : Db)
    (result : JsString) (t : Z) (usage : AiUsage) :
  json (fst (post_api_ai_generate parse provider req d)) = ResultBody result t usage ->
  exists data, parse (body req) = ZodOk data /\
    t = estimateTokens (prompt data) /\
    t = (3 * Z.of_nat (length (prompt data))) / 2 /\
    (t = estimateTokens_ceil (prompt data) <->
       Z.even (Z.of_nat (length (prompt data))) = true).
Proof.
  intros H.
  destruct (parse (body req)) as [data|msg] eqn:Hvalid.
  2:{ unfold post_api_ai_generate in H. rewrite Hvalid in H. discriminate H. }
  exists data. split; [reflexivity|].
  assert (Ht : t = estimateTokens (prompt data)).
  { destruct (isBlocked (fst (getSubscriptionStatus (user_id req) d))) eqn:Hb.
    { rewrite (generate_blocked parse provider req data Hvalid d Hb) in H. discriminate H. }
    destruct (canUseAi (fst (getSubscriptionStatus (user_id req) d))) eqn:Hc.
    2:{ rewrite (generate_no_credit parse provider req data Hvalid d Hb Hc) in H.
        discriminate H. }
    rewrite (generate_past_gate parse provider req data Hvalid d Hb Hc) in H.
    destruct (provider (prompt data)); [|discriminate H].
    cbv zeta in H.
    destruct (incrementAiUsage (user_id req) d) as [[|] d1]; [|discriminate H].
    simpl in H. now injection H as _ <- _. }
  subst t. split; [reflexivity|]. split; [apply estimateTokens_div|].
  apply estimateTokens_ceil_iff_even.
Qed.

Lemma generate_tokensUsed_floor_witness :
  exists data, promptSchema (js "a bakery") = ZodOk data /\
    12 = estimateTokens (prompt data) /\
    12 = (3 * Z.of_nat (length (prompt data))) / 2 /\
    (12 = estimateTokens_ceil (prompt data) <->
       Z.even (Z.of_nat (length (prompt data))) = true).
Proof.
  apply (generate_tokensUsed_floor promptSchema placeholderProvider
           (request "alice" "a bakery") store0
           (js "Generated content for: a bakery. This is a placeholder - connect OpenAI API for real AI generation.")
           12 {| used := 2; limit := 3; remaining := 1 |}).
  reflexivity.
Defined.

(** C6, as the specification words it, fails: for the one-character prompt
    of an account with credits the handler answers 200 with [tokensUsed]
    1, while the ceiling of 1 * 1.5 is 2. *)
Lemma generate_tokensUsed_not_ceil :
  exists result usage,
    json (fst (post_api_ai_generate promptSchema placeholderProvider
                 (request "alice" "a") store0)) = ResultBody result 1 usage /\
    status (fst (post_api_ai_generate promptSchema placeholderProvider
                   (request "alice" "a") store0)) = 200 /\
    estimateTokens_ceil (js "a") = 2.
Proof. do 2 eexists. repeat split. Qed.

(** ** Provider failure *)

(** C7: for a request the schema accepts from a caller who passes the
    gate, a provider call that throws ends the request with 503 and the
    store exactly as it was, so [aiGenerationsUsed] is untouched; and, for
    any accepted request, the store changes only when the provider has
    returned a result. *)
Theorem generate_provider_failure_keeps_quota {Body : Type} (parse : Body -> ZodResult)
    (provider : JsString -> Try JsString) (req : AuthRequest Body)
    (data : AiGenerateData) (d : Db) :
  parse (body req) = ZodOk data ->
  (isBlocked (fst (getSubscriptionStatus (user_id req) d)) = false ->
   canUseAi (fst (getSubscriptionStatus (user_id req) d)) = true ->
   forall e, provider (prompt data) = Thrown e ->
     post_api_ai_generate parse provider req d =
       ({| status := 503;
           json := MessageBody
             (js "AI service temporarily unavailable. Please try again. Your credits were not used.") |},
        d)) /\
  (snd (post_api_ai_generate parse provider req d) <> d ->
   exists result, provider (prompt data) = Returned result).
Proof.
  intros Hvalid. split.
  - intros Hb Hc e He.
    rewrite (generate_past_gate parse provider req data Hvalid d Hb Hc).
    now rewrite He.
  - intros Hchg.
    destruct (isBlocked (fst (getSubscriptionStatus (user_id req) d))) eqn:Hb.
    { rewrite (generate_blocked parse provider req data Hvalid d Hb) in Hchg.
      now destruct Hchg. }
    destruct (canUseAi (fst (getSubscriptionStatus (user_id req) d))) eqn:Hc.
    2:{ rewrite (generate_no_credit parse provider req data Hvalid d Hb Hc) in Hchg.
        now destruct Hchg. }
    rewrite (generate_past_gate parse provider req data Hvalid d Hb Hc) in Hchg.
    destruct (provider (prompt data)) as [result|e]; [now exists result|].
    now destruct Hchg.
Qed.

Lemma generate_provider_failure_keeps_quota_witness :
  post_api_ai_generate promptSchema failingProvider (request "frank" "a bakery") store0 =
    ({| status := 503;
        json := MessageBody
          (js "AI service temporarily unavailable. Please try again. Your credits were not used.") |},
     store0) /\
  aiGenerationsUsed <$> users store0 !! "frank" = Some 0.
Proof.
  split; [|reflexivity].
  apply (proj1 (generate_provider_failure_keeps_quota promptSchema failingProvider
                  (request "frank" "a bakery") {| prompt := js "a bakery" |} store0 eq_refl)
           eq_refl eq_refl (js "connect ECONNREFUSED") eq_refl).
Defined.

(** ** A caller without an account row *)

(** C10: when the caller's id has no row in [users], a request the schema
    accepts passes the gate on the default snapshot (not blocked, may use
    AI), [incrementAiUsage] answers false, and so, once the provider has
    returned (as the placeholder of [routes.ts] always does), the request
    ends with the 403 of the ledger, not a 404, and the store, counters
    and generation records alike, is exactly as it was. *)
Theorem generate_missing_account {Body : Type} (parse : Body -> ZodResult)
    (provider : JsString -> Try JsString) (req : AuthRequest Body)
    (data : AiGenerateData) (d : Db) :
  parse (body req) = ZodOk data ->
  users d !! user_id req = None ->
  getSubscriptionStatus (user_id req) d =
    ({| sub_planType := PlanType.free; sub_status := SubscriptionStatus.free;
        isBlocked := false; canUseAi := true |}, d) /\
  incrementAiUsage (user_id req) d = (false, d) /\
  (forall result, provider (prompt data) = Returned result ->
     post_api_ai_generate parse provider req d =
       ({| status := 403;
           json := MessageBody
             (js "AI generation limit reached. Upgrade your plan for more generations.") |},
        d)) /\
  post_api_ai_generate parse placeholderProvider req d =
    ({| status := 403;
        json := MessageBody
          (js "AI generation limit reached. Upgrade your plan for more generations.") |},
     d).
Proof.
  intros Hvalid Hnone.
  pose proof (getSubscriptionStatus_missing _ _ Hnone) as Hs.
  pose proof (incrementAiUsage_missing _ _ Hnone) as Hi.
  assert (Hgo : forall p result, p (prompt data) = Returned result ->
            post_api_ai_generate parse p req d =
              ({| status := 403;
                  json := MessageBody
                    (js "AI generation limit reached. Upgrade your plan for more generations.") |},
               d)).
  { intros p result Hp.
    rewrite (generate_past_gate parse p req data Hvalid d) by now rewrite Hs.
    now rewrite Hp, Hi. }
  repeat split; try assumption.
  - intros result. apply Hgo.
  - now apply (Hgo placeholderProvider _ eq_refl).
Qed.

Lemma generate_missing_account_witness :
  post_api_ai_generate promptSchema placeholderProvider (request "ghost" "a bakery") store0 =
    ({| status := 403;
        json := MessageBody
          (js "AI generation limit reached. Upgrade your plan for more generations.") |},
     store0).
Proof.
  apply (generate_missing_account promptSchema placeholderProvider
           (request "ghost" "a bakery") {| prompt := js "a bakery" |} store0
           eq_refl eq_refl).
Defined.

(** ** Searching a string *)

Local Open Scope nat_scope.

Lemma agree_length eqb pat m : agree eqb pat m -> length m = length pat.
Proof. intros H. symmetry. exact (Forall2_length _ _ _ H). Qed.

Lemma matches_at_agree eqb pat s :
  matches_at eqb pat s = true <-> exists m rest, s = m ++ rest /\ agree eqb pat m.
Proof.
  revert s. induction pat as [|p pat IH]; intros s; simpl.
  - split; [|done]. intros _. exists [], s. split; [done|constructor].
  - destruct s as [|c s].
    + split; [done|]. intros (m & rest & E & Ha).
      inversion Ha; subst. discriminate.
    + rewrite andb_true_iff, IH. split.
      * intros [Hpc (m & rest & -> & Ha)]. exists (c :: m), rest.
        split; [done|]. now constructor.
      * intros (m & rest & E & Ha).
        inversion Ha as [|? c' ? m' Hpc Ha']; subst.
        injection E as -> ->. split; [done|]. eauto.
Qed.

Lemma occurrence_matches eqb pat pre m post :
  agree eqb pat m -> matches_at eqb pat (drop (length pre) (pre ++ m ++ post)) = true.
Proof.
  intros Ha. rewrite drop_app_length. apply matches_at_agree. eauto.
Qed.

Lemma matches_occurrence eqb pat s i :
  matches_at eqb pat (drop i s) = true -> i <= length s ->
  exists m post, s = take i s ++ m ++ post /\ agree eqb pat m /\ length (take i s) = i.
Proof.
  intros Hm Hi. apply matches_at_agree in Hm as (m & post & E & Ha).
  exists m, post. split; [|split; [done|]].
  - rewrite <- E. now rewrite take_drop.
  - rewrite length_take. lia.
Qed.

Lemma search_Some eqb pat s i :
  search eqb pat s = Some i ->
  matches_at eqb pat (drop i s) = true /\ i <= length s /\
  forall k, k < i -> matches_at eqb pat (drop k s) = false.
Proof.
  revert i. induction s as [|c s IH]; intros i; simpl.
  - destruct (matches_at eqb pat []) eqn:E; [|done].
    intros [= <-]. repeat split; [done|lia|lia].
  - destruct (matches_at eqb pat (c :: s)) eqn:E.
    + intros [= <-]. repeat split; [done|lia|lia].
    + destruct (search eqb pat s) as [j|] eqn:Es; [|done].
      simpl. intros [= <-]. destruct (IH j eq_refl) as (Hm & Hl & Hmin).
      repeat split; [done|lia|].
      intros [|k] Hk; [done|]. simpl. apply Hmin. lia.
Qed.

Lemma search_None eqb pat s :
  search eqb pat s = None -> forall k, matches_at eqb pat (drop k s) = false.
Proof.
  induction s as [|c s IH]; simpl.
  - destruct (matches_at eqb pat []) eqn:E; [done|]. intros _ k. now rewrite drop_nil.
  - destruct (matches_at eqb pat (c :: s)) eqn:E; [done|].
    destruct (search eqb pat s) eqn:Es; [done|]. intros _ [|k]; [done|].
    simpl. now apply IH.
Qed.

Lemma search_last_Some eqb pat s i :
  search_last eqb pat s = Some i ->
  matches_at eqb pat (drop i s) = true /\ i <= length s /\
  forall k, i < k -> k <= length s -> matches_at eqb pat (drop k s) = false.
Proof.
  revert i. induction s as [|c s IH]; intros i; simpl.
  - destruct (matches_at eqb pat []) eqn:E; [|done].
    intros [= <-]. repeat split; [done|lia|lia].
  - destruct (search_last eqb pat s) as [j|] eqn:Es.
    + intros [= <-]. destruct (IH j eq_refl) as (Hm & Hl & Hmax).
      repeat split; [done|lia|].
      intros [|k] Hk Hk'; [lia|]. simpl. apply Hmax; lia.
    + destruct (matches_at eqb pat (c :: s)) eqn:E; [|done].
      intros [= <-]. repeat split; [done|lia|].
      intros [|k] Hk Hk'; [lia|]. simpl.
      clear -Es. revert k. induction s as [|c' s IH']; intros k; simpl in *.
      * destruct (matches_at eqb pat []) eqn:E; [done|]. now rewrite drop_nil.
      * destruct (search_last eqb pat s) eqn:Es'; [done|].
        destruct (matches_at eqb pat (c' :: s)) eqn:E; [done|].
        destruct k as [|k]; [done|]. simpl. now apply IH'.
Qed.

Lemma search_last_None eqb pat s :
  search_last eqb pat s = None -> forall k, matches_at eqb pat (drop k s) = false.
Proof.
  induction s as [|c s IH]; simpl.
  - destruct (matches_at eqb pat []) eqn:E; [done|]. intros _ k. now rewrite drop_nil.
  - destruct (search_last eqb pat s) eqn:Es; [done|].
    destruct (matches_at eqb pat (c :: s)) eqn:E; [done|].
    intros _ [|k]; [done|]. simpl. now apply IH.
Qed.

Lemma search_le eqb pat pre m post :
  agree eqb pat m ->
  exists i, search eqb pat (pre ++ m ++ post) = Some i /\ i <= length pre.
Proof.
  intros Ha. pose proof (occurrence_matches eqb pat pre m post Ha) as Hocc.
  destruct (search eqb pat (pre ++ m ++ post)) as [i|] eqn:E.
  - exists i. split; [done|]. apply search_Some in E as (_ & _ & Hmin).
    destruct (decide (i <= length pre)) as [|Hgt]; [done|].
    rewrite Hmin in Hocc by lia. discriminate.
  - rewrite (search_None _ _ _ E) in Hocc. discriminate.
Qed.

Lemma search_last_ge eqb pat pre m post :
  agree eqb pat m ->
  exists i, search_last eqb pat (pre ++ m ++ post) = Some i /\ length pre <= i.
Proof.
  intros Ha. pose proof (occurrence_matches eqb pat pre m post Ha) as Hocc.
  destruct (search_last eqb pat (pre ++ m ++ post)) as [i|] eqn:E.
  - exists i. split; [done|]. apply search_last_Some in E as (_ & _ & Hmax).
    destruct (decide (length pre <= i)) as [|Hlt]; [done|].
    rewrite Hmax in Hocc; [discriminate|lia|].
    rewrite length_app. lia.
  - rewrite (search_last_None _ _ _ E) in Hocc. discriminate.
Qed.

(** ** The two patterns of the fallback *)

Lemma html_span_Some content doc :
  html_span content = Some doc ->
  substring doc content /\ html_document doc.
Proof.
  unfold html_span. intros H.
  destruct (search eq_nocase (js "<!DOCTYPE html>") content) as [i|] eqn:Ei; [|done].
  simpl in H.
  destruct (search_last eq_nocase (js "</html>") (drop (i + 15) content))
    as [j|] eqn:Ej; [|done].
  simpl in H. injection H as <-.
  apply search_Some in Ei as (Hm & Hi & _).
  apply search_last_Some in Ej as (Hm' & Hj & _).
  apply matches_at_agree in Hm as (d & rest & Ed & Had).
  pose proof (agree_length _ _ _ Had) as Hd. change (length (js "<!DOCTYPE html>")) with 15 in Hd.
  assert (Hrest : drop (i + 15) content = rest).
  { rewrite <- drop_drop, Ed, <- Hd. apply drop_app_length. }
  rewrite Hrest in Hm', Hj.
  apply matches_at_agree in Hm' as (e & post & Ee & Hae).
  pose proof (agree_length _ _ _ Hae) as He. change (length (js "</html>")) with 7 in He.
  assert (Hsplit : rest = take j rest ++ e ++ post) by now rewrite <- Ee, take_drop.
  match goal with |- context [take ?n (drop i content)] =>
    assert (Hdoc : take n (drop i content) = d ++ take j rest ++ e) end.
  { rewrite Ed, Hsplit at 1.
    replace (d ++ take j rest ++ e ++ post) with ((d ++ take j rest ++ e) ++ post)
      by now rewrite <- !app_assoc.
    apply take_app_length'. rewrite !length_app, length_take. lia. }
  rewrite Hdoc. split.
  - exists (take i content), post.
    rewrite <- (take_drop i content) at 1. rewrite Ed. rewrite Hsplit at 1.
    now rewrite <- !app_assoc.
  - now exists d, (take j rest), e.
Qed.

Lemma html_span_None content :
  html_span content = None ->
  forall doc, substring doc content -> ~ html_document doc.
Proof.
  unfold html_span. intros H doc (pre & post & ->) (d & inner & e & -> & Had & Hae).
  pose proof (agree_length _ _ _ Had) as Hd. change (length (js "<!DOCTYPE html>")) with 15 in Hd.
  destruct (search_le eq_nocase (js "<!DOCTYPE html>") pre d (inner ++ e ++ post) Had)
    as (i & Ei & Hi).
  replace (pre ++ (d ++ inner ++ e) ++ post) with (pre ++ d ++ inner ++ e ++ post) in H
    by now rewrite <- !app_assoc.
  rewrite Ei in H. simpl in H.
  set (s := pre ++ d ++ inner ++ e ++ post) in *.
  destruct (search_last eq_nocase (js "</html>") (drop (i + 15) s)) as [j|] eqn:Ej; [done|].
  pose proof (search_last_None _ _ _ Ej (length pre + 15 + length inner - (i + 15))) as Hno.
  rewrite drop_drop in Hno.
  replace (i + 15 + (length pre + 15 + length inner - (i + 15)))
    with (length (pre ++ d ++ inner)) in Hno by (rewrite !length_app; lia).
  unfold s in Hno.
  replace (pre ++ d ++ inner ++ e ++ post) with ((pre ++ d ++ inner) ++ e ++ post) in Hno
    by now rewrite <- !app_assoc.
  rewrite (occurrence_matches _ _ _ _ _ Hae) in Hno. discriminate.
Qed.

Lemma agree_gt c m : agree eq_case [c] m -> m = [c].
Proof.
  intros H. inversion H as [|? x ? m' Hx Hm']; subst. inversion Hm'; subst.
  unfold eq_case in Hx. apply N.eqb_eq in Hx. now subst.
Qed.

Lemma search_char_not_before c s k :
  search eq_case [c] s = Some k -> c ∉ take k s.
Proof.
  intros H Hin. apply search_Some in H as (_ & _ & Hmin).
  apply list_elem_of_lookup in Hin as (k' & Hk').
  pose proof (lookup_lt_Some _ _ _ Hk') as Hlt. rewrite length_take in Hlt.
  rewrite lookup_take_lt in Hk' by lia.
  specialize (Hmin k' ltac:(lia)).
  rewrite (drop_S _ _ _ Hk') in Hmin. simpl in Hmin.
  unfold eq_case in Hmin. rewrite N.eqb_refl in Hmin. discriminate.
Qed.

Lemma style_span_Some content style :
  style_span content = Some style -> first_style_block content style.
Proof.
  unfold style_span. intros H.
  destruct (search eq_nocase (js "<style") content) as [i|] eqn:Ei; [|done].
  cbn [mbind option_bind] in H.
  destruct (search eq_case (js ">") (drop (i + 6) content)) as [k|] eqn:Ek; [|done].
  cbn [mbind option_bind] in H.
  destruct (search eq_nocase (js "</style>") (drop (k + 1) (drop (i + 6) content)))
    as [j|] eqn:Ej; [|done].
  cbn [mbind option_bind] in H. injection H as <-.
  pose proof Ei as Ei'. apply search_Some in Ei' as (Hm & Hi & _).
  apply matches_at_agree in Hm as (o & attrs & Eo & Hao).
  pose proof (agree_length _ _ _ Hao) as Ho. change (length (js "<style")) with 6 in Ho.
  assert (Hattrs : drop (i + 6) content = attrs).
  { rewrite <- drop_drop, Eo, <- Ho. apply drop_app_length. }
  rewrite Hattrs in *.
  pose proof (search_char_not_before _ _ _ Ek) as Hnot.
  pose proof Ek as Ek'. apply search_Some in Ek' as (Hmk & Hk & _).
  apply matches_at_agree in Hmk as (g & inner & Eg & Hag).
  apply agree_gt in Hag. subst g.
  assert (Hinner : drop (k + 1) attrs = inner).
  { rewrite <- drop_drop, Eg. reflexivity. }
  rewrite Hinner in *.
  pose proof Ej as Ej'. apply search_Some in Ej' as (Hmj & Hj & _).
  apply matches_at_agree in Hmj as (e & post & Ee & Hae).
  exists (take i content), o, (take k attrs), e, post.
  assert (Hin : inner = take j inner ++ e ++ post) by now rewrite <- Ee, take_drop.
  repeat split; try done.
  - rewrite <- (take_drop i content) at 1. rewrite Eo. f_equal. f_equal.
    rewrite <- (take_drop k attrs) at 1. f_equal. rewrite Eg. simpl. f_equal.
    exact Hin.
  - rewrite length_take. now replace (i `min` length content) with i by lia.
  - rewrite <- Hin, length_take. now replace (j `min` length inner) with j by lia.
Qed.

Lemma style_span_None content :
  style_span content = None ->
  forall pre o attributes style e post,
    content = pre ++ o ++ attributes ++ [62%N] ++ style ++ e ++ post ->
    agree eq_nocase (js "<style") o -> ~ agree eq_nocase (js "</style>") e.
Proof.
  unfold style_span.
  intros H pre o attributes style e post -> Hao Hae.
  pose proof (agree_length _ _ _ Hao) as Ho. change (length (js "<style")) with 6 in Ho.
  destruct (search_le eq_nocase (js "<style") pre o
              (attributes ++ [62%N] ++ style ++ e ++ post) Hao) as (i & Ei & Hi).
  rewrite Ei in H. cbn [mbind option_bind] in H.
  set (s := pre ++ o ++ attributes ++ [62%N] ++ style ++ e ++ post) in *.
  (* the [>] of the claimed block lies in what follows the leftmost [<style] *)
  assert (Hs1 : drop (i + 6) s =
                drop (i + 6) (pre ++ o ++ attributes) ++ [62%N] ++ style ++ e ++ post).
  { unfold s.
    replace (pre ++ o ++ attributes ++ [62%N] ++ style ++ e ++ post)
      with ((pre ++ o ++ attributes) ++ [62%N] ++ style ++ e ++ post)
      by now rewrite <- !app_assoc.
    rewrite drop_app_le; [done|]. rewrite !length_app. lia. }
  rewrite Hs1 in H.
  assert (Hgt : agree eq_case (js ">") [62%N]) by (repeat constructor).
  destruct (search_le eq_case (js ">") (drop (i + 6) (pre ++ o ++ attributes)) [62%N]
              (style ++ e ++ post) Hgt) as (k & Ek & Hk).
  rewrite Ek in H. cbn [mbind option_bind] in H.
  set (a := drop (i + 6) (pre ++ o ++ attributes)) in *.
  assert (Hs2 : drop (k + 1) (a ++ [62%N] ++ style ++ e ++ post) =
                drop (k + 1) (a ++ [62%N] ++ style) ++ e ++ post).
  { replace (a ++ [62%N] ++ style ++ e ++ post)
      with ((a ++ [62%N] ++ style) ++ e ++ post) by now rewrite <- !app_assoc.
    rewrite drop_app_le; [done|]. rewrite !length_app. simpl. lia. }
  rewrite Hs2 in H.
  destruct (search_le eq_nocase (js "</style>") (drop (k + 1) (a ++ [62%N] ++ style)) e post Hae)
    as (j & Ej & _).
  rewrite Ej in H. discriminate.
Qed.

(** ** The matcher against the closed forms *)

Lemma match_here_lits i pat rest s :
  match_here i (lits pat ++ rest) s =
    if matches_at (eqb_of i) pat s
    then app (replicate (length pat) 1) <$> match_here i rest (drop (length pat) s)
    else None.
Proof.
  revert s. induction pat as [|p pat IH]; intros s.
  - simpl. rewrite drop_0. now destruct (match_here i rest s).
  - destruct s as [|c s]; [reflexivity|].
    change (lits (p :: pat) ++ rest) with (One (Lit p) :: (lits pat ++ rest)).
    cbn [match_here accepts matches_at length replicate drop].
    replace (if i then eq_nocase p c else eq_case p c) with (eqb_of i p c)
      by now destruct i.
    destruct (eqb_of i p c); [|reflexivity].
    rewrite IH. cbn [andb].
    destruct (matches_at (eqb_of i) pat s); [|reflexivity].
    now destruct (match_here i rest (drop (length pat) s)).
Qed.

Lemma match_here_lits_only i pat s :
  match_here i (lits pat) s =
    if matches_at (eqb_of i) pat s then Some (replicate (length pat) 1) else None.
Proof.
  rewrite <- (app_nil_r (lits pat)), match_here_lits.
  destruct (matches_at (eqb_of i) pat s); [|reflexivity].
  simpl. now rewrite app_nil_r.
Qed.

Lemma match_length_fence fence s :
  match_length false (lits fence ++ [Opt (Lit 10)]) s = fence_length fence s.
Proof.
  unfold match_length, fence_length. rewrite match_here_lits.
  change (eqb_of false) with eq_case.
  destruct (matches_at eq_case fence s); [|reflexivity].
  destruct (drop (length fence) s) as [|c t].
  - simpl. rewrite sum_list_with_app, sum_list_replicate. simpl. f_equal. lia.
  - cbn [match_here accepts]. unfold eq_case. rewrite (N.eqb_sym 10 c).
    destruct (c =? 10)%N; simpl;
      rewrite sum_list_with_app, sum_list_replicate; simpl; f_equal; lia.
Qed.

Lemma remove_matches_ext re1 re2 skip s :
  (forall t, re1 t = re2 t) -> remove_matches re1 skip s = remove_matches re2 skip s.
Proof.
  intros Hre. revert skip. induction s as [|c s IH]; intros skip; [reflexivity|].
  simpl. destruct skip as [|k]; [|apply IH].
  rewrite Hre. destruct (re2 (c :: s)) as [[|k]|]; now rewrite ?IH.
Qed.

Lemma cleanedContent_closed content :
  cleanedContent content =
    trim (replace_all (fence_length (js "```"))
            (replace_all (fence_length (js "```json")) content)).
Proof.
  unfold cleanedContent, replace_all, fence_re, fence_json_re.
  rewrite (remove_matches_ext _ _ 0 content (match_length_fence (js "```json"))).
  now rewrite (remove_matches_ext _ _ 0 _ (match_length_fence (js "```"))).
Qed.

Lemma match_here_Star_cons i cls rest c s :
  match_here i (Star cls :: rest) (c :: s) =
    if accepts i cls c then
      match longer (match_here i (Star cls :: rest) s) with
      | Some ns => Some ns
      | None => cons 0 <$> match_here i rest (c :: s)
      end
    else cons 0 <$> match_here i rest (c :: s).
Proof. reflexivity. Qed.

Lemma match_here_Star_nil i cls rest :
  match_here i (Star cls :: rest) [] = cons 0 <$> match_here i rest [].
Proof. reflexivity. Qed.

Lemma match_here_StarLazy i cls rest s :
  match_here i (StarLazy cls :: rest) s =
    match match_here i rest s with
    | Some ns => Some (0 :: ns)
    | None =>
        match s with
        | c :: s' =>
            if accepts i cls c then longer (match_here i (StarLazy cls :: rest) s')
            else None
        | [] => None
        end
    end.
Proof. now destruct s. Qed.

(** [[\s\S]*] before a literal: the star runs to the last place where the
    literal matches. *)
Lemma match_here_star_any pat s :
  match_here true (Star AnyChar :: lits pat) s =
    (fun j => j :: replicate (length pat) 1) <$> search_last eq_nocase pat s.
Proof.
  induction s as [|c s IH].
  - rewrite match_here_Star_nil, match_here_lits_only. simpl.
    change (eqb_of true) with eq_nocase.
    now destruct (matches_at eq_nocase pat []).
  - rewrite match_here_Star_cons, IH, match_here_lits_only.
    change (eqb_of true) with eq_nocase. cbn [accepts search_last].
    destruct (search_last eq_nocase pat s) as [j|]; [reflexivity|].
    cbn [fmap option_fmap option_map longer].
    now destruct (matches_at eq_nocase pat (c :: s)).
Qed.

(** [[\s\S]*?] before a literal: the star stops at the first place where
    the literal matches. *)
Lemma match_here_lazy_any pat s :
  match_here true (StarLazy AnyChar :: lits pat) s =
    (fun j => j :: replicate (length pat) 1) <$> search eq_nocase pat s.
Proof.
  induction s as [|c s IH]; rewrite match_here_StarLazy, match_here_lits_only;
    change (eqb_of true) with eq_nocase; cbn [search].
  - now destruct (matches_at eq_nocase pat []).
  - destruct (matches_at eq_nocase pat (c :: s)); [reflexivity|].
    cbn [accepts]. rewrite IH.
    now destruct (search eq_nocase pat s).
Qed.

Lemma eq_nocase_gt c : eq_nocase 62 c = eq_case 62 c.
Proof.
  unfold eq_nocase, eq_case. change (upper 62) with 62%N. unfold upper.
  destruct ((97 <=? c) && (c <=? 122))%N eqn:E; [|reflexivity].
  apply andb_true_iff in E as [E1 E2]. apply N.leb_le in E1, E2.
  destruct (N.eqb_spec 62 (c - 32)) as [H1|H1], (N.eqb_spec 62 c) as [H2|H2];
    try reflexivity; exfalso; lia.
Qed.

(** [[^>]*>]: the star runs to the first [>], and backing off from there
    cannot help. *)
Lemma match_here_star_not_gt rest s :
  match_here true (Star (NotChar 62) :: One (Lit 62) :: rest) s =
    match search eq_case [62%N] s with
    | Some k => (fun ns => k :: 1 :: ns) <$> match_here true rest (drop (k + 1) s)
    | None => None
    end.
Proof.
  induction s as [|c s IH]; [reflexivity|].
  rewrite match_here_Star_cons, IH. cbn [accepts match_here search matches_at].
  rewrite eq_nocase_gt, andb_true_r.
  destruct (eq_case 62 c); cbn [negb].
  - simpl. rewrite drop_0. now destruct (match_here true rest s).
  - destruct (search eq_case [62%N] s) as [k|]; [|reflexivity].
    cbn [fmap option_fmap option_map]. simpl drop.
    now destruct (match_here true rest (drop (k + 1) s)).
Qed.

Lemma match_here_html s :
  match_here true html_re s =
    if matches_at eq_nocase (js "<!DOCTYPE html>") s
    then (fun j => replicate 15 1 ++ j :: replicate 7 1) <$>
           search_last eq_nocase (js "</html>") (drop 15 s)
    else None.
Proof.
  unfold html_re. rewrite match_here_lits. change (eqb_of true) with eq_nocase.
  destruct (matches_at eq_nocase (js "<!DOCTYPE html>") s); [|reflexivity].
  change ([Star AnyChar] ++ lits (js "</html>")) with (Star AnyChar :: lits (js "</html>")).
  rewrite match_here_star_any.
  change (length (js "<!DOCTYPE html>")) with 15.
  now destruct (search_last eq_nocase (js "</html>") (drop 15 s)).
Qed.

Lemma match_here_style s :
  match_here true style_re s =
    if matches_at eq_nocase (js "<style") s then
      match search eq_case [62%N] (drop 6 s) with
      | Some k =>
          (fun j => replicate 6 1 ++ k :: 1 :: j :: replicate 8 1) <$>
            search eq_nocase (js "</style>") (drop (k + 1) (drop 6 s))
      | None => None
      end
    else None.
Proof.
  unfold style_re. rewrite match_here_lits. change (eqb_of true) with eq_nocase.
  destruct (matches_at eq_nocase (js "<style") s); [|reflexivity].
  change ([Star (NotChar 62)] ++ lits (js ">") ++ [StarLazy AnyChar] ++ lits (js "</style>"))
    with (Star (NotChar 62) :: One (Lit 62) :: StarLazy AnyChar :: lits (js "</style>")).
  rewrite match_here_star_not_gt. change (length (js "<style")) with 6.
  destruct (search eq_case [62%N] (drop 6 s)) as [k|]; [|reflexivity].
  rewrite match_here_lazy_any.
  now destruct (search eq_nocase (js "</style>") (drop (k + 1) (drop 6 s))).
Qed.

Lemma regexp_exec_first i atoms s k ns :
  k <= length s ->
  match_here i atoms (drop k s) = Some ns ->
  (forall k', k' < k -> match_here i atoms (drop k' s) = None) ->
  regexp_exec i atoms s = Some (k, ns).
Proof.
  revert k. induction s as [|c s IH]; intros k Hk Hm Hmin.
  - rewrite drop_nil in Hm. simpl. now rewrite Hm, (proj1 (Nat.le_0_r k) Hk).
  - destruct k as [|k].
    + rewrite drop_0 in Hm. cbn [regexp_exec]. now rewrite Hm.
    + pose proof (Hmin 0 ltac:(lia)) as H0. rewrite drop_0 in H0.
      cbn [regexp_exec]. rewrite H0.
      rewrite (IH k); [reflexivity|simpl in Hk; lia|exact Hm|].
      intros k' Hk'. apply (Hmin (S k')). lia.
Qed.

Lemma regexp_exec_none i atoms s :
  (forall k, match_here i atoms (drop k s) = None) -> regexp_exec i atoms s = None.
Proof.
  induction s as [|c s IH]; intros Hno.
  - pose proof (Hno 0) as H0. rewrite drop_0 in H0. simpl. now rewrite H0.
  - pose proof (Hno 0) as H0. rewrite drop_0 in H0.
    cbn [regexp_exec]. rewrite H0. rewrite IH; [reflexivity|].
    intros k. apply (Hno (S k)).
Qed.

Lemma search_drop_None eqb pat s k :
  search eqb pat s = None -> search eqb pat (drop k s) = None.
Proof.
  revert k. induction s as [|c s IH]; intros k H.
  - now rewrite drop_nil.
  - destruct k as [|k]; [exact H|]. simpl drop. apply IH.
    cbn [search] in H. destruct (matches_at eqb pat (c :: s)); [discriminate|].
    now destruct (search eqb pat s).
Qed.

Lemma search_last_drop_None eqb pat s k :
  search_last eqb pat s = None -> search_last eqb pat (drop k s) = None.
Proof.
  revert k. induction s as [|c s IH]; intros k H.
  - now rewrite drop_nil.
  - destruct k as [|k]; [exact H|]. simpl drop. apply IH.
    cbn [search_last] in H. now destruct (search_last eqb pat s).
Qed.

(** ** Code fences *)

Lemma fence_length_other fence s c :
  c <> 96%N -> fence_length (96%N :: fence) (c :: s) = None.
Proof.
  intros Hc. unfold fence_length. cbn [matches_at]. unfold eq_case at 1.
  destruct (N.eqb_spec 96 c) as [E|_]; [now destruct Hc|]. reflexivity.
Qed.

Lemma remove_matches_clean fence text rest :
  96%N ∉ text ->
  remove_matches (fence_length (96%N :: fence)) 0 (text ++ rest) =
  text ++ remove_matches (fence_length (96%N :: fence)) 0 rest.
Proof.
  induction text as [|c text IH]; intros Hno; [reflexivity|].
  apply not_elem_of_cons in Hno as [Hc Hno].
  simpl. rewrite fence_length_other by congruence.
  now rewrite IH.
Qed.

Lemma replace_all_clean fence text :
  96%N ∉ text -> replace_all (fence_length (96%N :: fence)) text = text.
Proof.
  intros Hno. unfold replace_all.
  rewrite <- (app_nil_r text) at 1. rewrite remove_matches_clean by done.
  simpl. apply app_nil_r.
Qed.

Lemma trimStart_all_white s :
  forallb is_white_space s = true -> trimStart s = [].
Proof.
  induction s as [|c s IH]; simpl; [done|].
  destruct (is_white_space c); simpl; [exact IH|done].
Qed.

Lemma trimStart_snoc s c :
  is_white_space c = true ->
  trimStart (s ++ [c]) = if forallb is_white_space s then [] else trimStart s ++ [c].
Proof.
  intros Hc. induction s as [|x s IH]; simpl.
  - now rewrite Hc.
  - destruct (is_white_space x); simpl; [exact IH|done].
Qed.

Lemma trim_snoc s c : is_white_space c = true -> trim (s ++ [c]) = trim s.
Proof.
  intros Hc. unfold trim, trimEnd. rewrite (trimStart_snoc _ _ Hc).
  destruct (forallb is_white_space s) eqn:E.
  - now rewrite (trimStart_all_white _ E).
  - rewrite reverse_app. simpl. now rewrite Hc.
Qed.

Lemma cleanedContent_clean text : 96%N ∉ text -> cleanedContent text = trim text.
Proof.
  intros Hno. rewrite cleanedContent_closed.
  change (js "```json") with (96%N :: js "``json").
  change (js "```") with (96%N :: js "``").
  rewrite (replace_all_clean (js "``json") text) by done.
  now rewrite (replace_all_clean (js "``") text).
Qed.

Lemma cleanedContent_fenced text :
  96%N ∉ text -> cleanedContent (fenced text) = cleanedContent text.
Proof.
  intros Hno. rewrite (cleanedContent_clean _ Hno).
  rewrite cleanedContent_closed. unfold fenced, replace_all.
  change (js "```json") with (96%N :: js "``json").
  change (js "```") with (96%N :: js "``").
  change (remove_matches (fence_length (96%N :: js "``json")) 0
            ((96%N :: js "``json") ++ LF ++ text ++ LF ++ 96%N :: js "``"))
    with (remove_matches (fence_length (96%N :: js "``json")) 0
            (text ++ LF ++ 96%N :: js "``")).
  rewrite remove_matches_clean by done.
  change (remove_matches (fence_length (96%N :: js "``json")) 0 (LF ++ 96%N :: js "``"))
    with (LF ++ 96%N :: js "``").
  rewrite remove_matches_clean by done.
  change (remove_matches (fence_length (96%N :: js "``")) 0 (LF ++ 96%N :: js "``"))
    with [10%N].
  now apply trim_snoc.
Qed.

(** ** Text around a response that the patterns cannot touch *)

Lemma foreign_cons eqb pat c s :
  foreign eqb pat (c :: s) = true ->
  (forall p, p ∈ pat -> eqb p c = false) /\ foreign eqb pat s = true.
Proof.
  unfold foreign. simpl. rewrite andb_true_iff. intros [Hc Hs]. split; [|done].
  intros p Hp. rewrite forallb_forall in Hc.
  apply list_elem_of_In in Hp. specialize (Hc p Hp). now apply negb_true_iff in Hc.
Qed.

Lemma matches_at_foreign_head eqb p pat c s :
  eqb p c = false -> matches_at eqb (p :: pat) (c :: s) = false.
Proof. intros H. simpl. now rewrite H. Qed.

Lemma search_skip_prefix eqb p pat pre s :
  foreign eqb [p] pre = true ->
  search eqb (p :: pat) (pre ++ s) = (fun i => length pre + i) <$> search eqb (p :: pat) s.
Proof.
  induction pre as [|c pre IH]; intros Hf.
  - simpl. now destruct (search eqb (p :: pat) s).
  - apply foreign_cons in Hf as [Hc Hf].
    change ((c :: pre) ++ s) with (c :: (pre ++ s)).
    cbn [search]. rewrite matches_at_foreign_head by (apply Hc; set_solver).
    rewrite (IH Hf). now destruct (search eqb (p :: pat) s).
Qed.

Lemma matches_at_suffix eqb pat s suf :
  pat <> [] -> foreign eqb pat suf = true ->
  matches_at eqb pat (s ++ suf) = matches_at eqb pat s.
Proof.
  revert s. induction pat as [|p pat IH]; intros s Hne Hf; [done|].
  destruct s as [|y s].
  - simpl. destruct suf as [|c suf]; [done|].
    apply foreign_cons in Hf as [Hc _]. rewrite Hc by set_solver. reflexivity.
  - simpl. destruct pat as [|p' pat]; [reflexivity|].
    rewrite IH; [done|done|].
    unfold foreign in *. rewrite forallb_forall in Hf. apply forallb_forall.
    intros c Hc. specialize (Hf c Hc). simpl in Hf.
    apply andb_true_iff in Hf as [_ Hf]. exact Hf.
Qed.

Lemma search_foreign eqb p pat suf :
  foreign eqb (p :: pat) suf = true -> search eqb (p :: pat) suf = None.
Proof.
  induction suf as [|c suf IH]; intros Hf; [reflexivity|].
  apply foreign_cons in Hf as [Hc Hf].
  cbn [search]. rewrite matches_at_foreign_head by (apply Hc; set_solver).
  now rewrite (IH Hf).
Qed.

Lemma search_last_foreign eqb p pat suf :
  foreign eqb (p :: pat) suf = true -> search_last eqb (p :: pat) suf = None.
Proof.
  induction suf as [|c suf IH]; intros Hf; [reflexivity|].
  apply foreign_cons in Hf as [Hc Hf].
  cbn [search_last]. rewrite (IH Hf).
  now rewrite matches_at_foreign_head by (apply Hc; set_solver).
Qed.

Lemma search_suffix eqb p pat s suf :
  foreign eqb (p :: pat) suf = true ->
  search eqb (p :: pat) (s ++ suf) = search eqb (p :: pat) s.
Proof.
  intros Hf. induction s as [|y s IH].
  - simpl app. now rewrite search_foreign.
  - change ((y :: s) ++ suf) with (y :: (s ++ suf)). cbn [search].
    change (y :: (s ++ suf)) with ((y :: s) ++ suf).
    rewrite matches_at_suffix by done. now rewrite IH.
Qed.

Lemma search_last_suffix eqb p pat s suf :
  foreign eqb (p :: pat) suf = true ->
  search_last eqb (p :: pat) (s ++ suf) = search_last eqb (p :: pat) s.
Proof.
  intros Hf. induction s as [|y s IH].
  - simpl app. now rewrite search_last_foreign.
  - change ((y :: s) ++ suf) with (y :: (s ++ suf)). cbn [search_last].
    change (y :: (s ++ suf)) with ((y :: s) ++ suf).
    rewrite matches_at_suffix by done. now rewrite IH.
Qed.

(** A match found at [i] lies inside the string. *)
Lemma search_bound eqb pat s i :
  search eqb pat s = Some i -> i + length pat <= length s.
Proof.
  intros H. apply search_Some in H as (Hm & Hi & _).
  apply matches_at_agree in Hm as (m & rest & E & Ha).
  apply agree_length in Ha.
  assert (length (drop i s) = length m + length rest) by now rewrite E, length_app.
  rewrite length_drop in *. lia.
Qed.

Lemma search_last_bound eqb pat s i :
  search_last eqb pat s = Some i -> i + length pat <= length s.
Proof.
  intros H. apply search_last_Some in H as (Hm & Hi & _).
  apply matches_at_agree in Hm as (m & rest & E & Ha).
  apply agree_length in Ha.
  assert (length (drop i s) = length m + length rest) by now rewrite E, length_app.
  rewrite length_drop in *. lia.
Qed.

Lemma html_span_prefix pre s :
  foreign eq_nocase [60%N] pre = true ->
  html_span (pre ++ s) = html_span s.
Proof.
  intros Hf. unfold html_span.
  change (js "<!DOCTYPE html>") with (60%N :: js "!DOCTYPE html>").
  rewrite (search_skip_prefix _ _ _ _ _ Hf).
  destruct (search eq_nocase (60%N :: js "!DOCTYPE html>") s) as [i|]; [|done].
  cbn [fmap option_fmap option_map mbind option_bind].
  rewrite <- Nat.add_assoc, !drop_app_add. reflexivity.
Qed.

Lemma html_span_suffix s suf :
  foreign eq_nocase (js "<!DOCTYPE html>") suf = true ->
  foreign eq_nocase (js "</html>") suf = true ->
  html_span (s ++ suf) = html_span s.
Proof.
  intros Hf1 Hf2. unfold html_span.
  change (js "<!DOCTYPE html>") with (60%N :: js "!DOCTYPE html>") in *.
  change (js "</html>") with (60%N :: js "/html>") in *.
  rewrite (search_suffix _ _ _ _ _ Hf1).
  destruct (search eq_nocase (60%N :: js "!DOCTYPE html>") s) as [i|] eqn:Ei; [|done].
  cbn [mbind option_bind].
  apply search_bound in Ei. change (length (60%N :: js "!DOCTYPE html>")) with 15 in Ei.
  rewrite (drop_app_le s suf (i + 15)) by lia.
  rewrite (search_last_suffix _ _ _ _ _ Hf2).
  destruct (search_last eq_nocase (60%N :: js "/html>") (drop (i + 15) s)) as [j|] eqn:Ej;
    [|done].
  cbn [mbind option_bind].
  apply search_last_bound in Ej. change (length (60%N :: js "/html>")) with 7 in Ej.
  rewrite length_drop in Ej.
  rewrite (drop_app_le s suf i) by lia.
  rewrite take_app_le; [done|]. rewrite length_drop. lia.
Qed.

Lemma style_span_prefix pre s :
  foreign eq_nocase [60%N] pre = true ->
  style_span (pre ++ s) = style_span s.
Proof.
  intros Hf. unfold style_span.
  change (js "<style") with (60%N :: js "style").
  rewrite (search_skip_prefix _ _ _ _ _ Hf).
  destruct (search eq_nocase (60%N :: js "style") s) as [i|]; [|done].
  cbn [fmap option_fmap option_map mbind option_bind].
  rewrite <- Nat.add_assoc, !drop_app_add. reflexivity.
Qed.

Lemma style_span_suffix s suf :
  foreign eq_nocase (js "<style") suf = true ->
  foreign eq_case (js ">") suf = true ->
  foreign eq_nocase (js "</style>") suf = true ->
  style_span (s ++ suf) = style_span s.
Proof.
  intros Hf1 Hf2 Hf3. unfold style_span.
  change (js "<style") with (60%N :: js "style") in *.
  change (js ">") with [62%N] in *.
  change (js "</style>") with (60%N :: js "/style>") in *.
  rewrite (search_suffix _ _ _ _ _ Hf1).
  destruct (search eq_nocase (60%N :: js "style") s) as [i|] eqn:Ei; [|done].
  cbn [mbind option_bind].
  apply search_bound in Ei. change (length (60%N :: js "style")) with 6 in Ei.
  rewrite (drop_app_le s suf (i + 6)) by lia.
  rewrite (search_suffix _ _ _ _ _ Hf2).
  destruct (search eq_case [62%N] (drop (i + 6) s)) as [k|] eqn:Ek; [|done].
  cbn [mbind option_bind].
  apply search_bound in Ek. change (length [62%N]) with 1 in Ek.
  rewrite (drop_app_le (drop (i + 6) s) suf (k + 1)) by lia.
  rewrite (search_suffix _ _ _ _ _ Hf3).
  destruct (search eq_nocase (60%N :: js "/style>") (drop (k + 1) (drop (i + 6) s)))
    as [j|] eqn:Ej; [|done].
  cbn [mbind option_bind].
  apply search_bound in Ej.
  rewrite take_app_le; [done|]. lia.
Qed.

Lemma cleanedContent_fenced_plain text :
  96%N ∉ text -> cleanedContent (fenced_plain text) = cleanedContent text.
Proof.
  intros Hno. rewrite (cleanedContent_clean _ Hno).
  rewrite cleanedContent_closed. unfold fenced_plain, replace_all.
  change (js "```json") with (96%N :: js "``json").
  change (remove_matches (fence_length (96%N :: js "``json")) 0
            (js "```" ++ LF ++ text ++ LF ++ js "```"))
    with (js "```" ++ LF ++
          remove_matches (fence_length (96%N :: js "``json")) 0 (text ++ LF ++ js "```")).
  change (js "```") with (96%N :: js "``").
  rewrite (remove_matches_clean (js "``json") text) by done.
  change (remove_matches (fence_length (96%N :: js "``json")) 0 (LF ++ 96%N :: js "``"))
    with (LF ++ 96%N :: js "``").
  change (remove_matches (fence_length (96%N :: js "``")) 0
            ((96%N :: js "``") ++ LF ++ text ++ LF ++ 96%N :: js "``"))
    with (remove_matches (fence_length (96%N :: js "``")) 0 (text ++ LF ++ 96%N :: js "``")).
  rewrite (remove_matches_clean (js "``") text) by done.
  change (remove_matches (fence_length (96%N :: js "``")) 0 (LF ++ 96%N :: js "``"))
    with [10%N].
  now apply trim_snoc.
Qed.

Lemma fenced_split text :
  fenced text = (js "```json" ++ LF) ++ text ++ (LF ++ js "```").
Proof. unfold fenced. now rewrite <- !app_assoc. Qed.

Lemma html_span_fenced text :
  html_span (fenced text) = html_span text.
Proof.
  rewrite fenced_split, html_span_prefix by reflexivity.
  now rewrite html_span_suffix.
Qed.

Lemma style_span_fenced text :
  style_span (fenced text) = style_span text.
Proof.
  rewrite fenced_split, style_span_prefix by reflexivity.
  now rewrite style_span_suffix.
Qed.

Lemma fenced_plain_split text :
  fenced_plain text = (js "```" ++ LF) ++ text ++ (LF ++ js "```").
Proof. unfold fenced_plain. now rewrite <- !app_assoc. Qed.

Lemma html_span_fenced_plain text :
  html_span (fenced_plain text) = html_span text.
Proof.
  rewrite fenced_plain_split, html_span_prefix by reflexivity.
  now rewrite html_span_suffix.
Qed.

Lemma style_span_fenced_plain text :
  style_span (fenced_plain text) = style_span text.
Proof.
  rewrite fenced_plain_split, style_span_prefix by reflexivity.
  now rewrite style_span_suffix.
Qed.

(** ** The two patterns, run by the matcher *)

Lemma htmlMatch_closed content : htmlMatch content = html_span content.
Proof.
  unfold htmlMatch, html_span.
  destruct (search eq_nocase (js "<!DOCTYPE html>") content) as [i|] eqn:Ei.
  - pose proof Ei as Ei'. apply search_Some in Ei' as (Hm & Hi & Hmin).
    cbn [mbind option_bind].
    destruct (search_last eq_nocase (js "</html>") (drop (i + 15) content)) as [j|] eqn:Ej.
    + rewrite (regexp_exec_first true html_re content i
                 (replicate 15 1 ++ j :: replicate 7 1)); [| lia | |].
      * reflexivity.
      * rewrite match_here_html, Hm, drop_drop, Ej. reflexivity.
      * intros k' Hk'. rewrite match_here_html. now rewrite (Hmin k' Hk').
    + rewrite regexp_exec_none; [reflexivity|].
      intros k. rewrite match_here_html.
      destruct (matches_at eq_nocase (js "<!DOCTYPE html>") (drop k content)) eqn:Ek;
        [|reflexivity].
      assert (i <= k).
      { destruct (decide (i <= k)) as [|Hlt]; [done|].
        rewrite Hmin in Ek by lia. discriminate. }
      rewrite drop_drop.
      replace (k + 15) with ((i + 15) + (k - i)) by lia.
      rewrite <- drop_drop. now rewrite (search_last_drop_None _ _ _ _ Ej).
  - rewrite regexp_exec_none; [reflexivity|].
    intros k. rewrite match_here_html. now rewrite (search_None _ _ _ Ei k).
Qed.

Lemma search_drop_le eqb pat s d k k' :
  search eqb pat s = Some k -> search eqb pat (drop d s) = Some k' -> k <= d + k'.
Proof.
  intros Hk Hk'. apply search_Some in Hk as (_ & _ & Hmin).
  apply search_Some in Hk' as (Hm & _ & _). rewrite drop_drop in Hm.
  destruct (decide (k <= d + k')) as [|Hlt]; [done|].
  rewrite Hmin in Hm by lia. discriminate.
Qed.

Lemma cssMatch_closed content : cssMatch content = style_span content.
Proof.
  unfold cssMatch, style_span. change (js ">") with [62%N].
  destruct (search eq_nocase (js "<style") content) as [i|] eqn:Ei.
  - pose proof Ei as Ei'. apply search_Some in Ei' as (Hm & Hi & Hmin).
    cbn [mbind option_bind].
    assert (Hlater : forall k, matches_at eq_nocase (js "<style") (drop k content) = true ->
                       i <= k).
    { intros k Ek. destruct (decide (i <= k)) as [|Hlt]; [done|].
      rewrite Hmin in Ek by lia. discriminate. }
    destruct (search eq_case [62%N] (drop (i + 6) content)) as [k|] eqn:Ek.
    + cbn [mbind option_bind].
      destruct (search eq_nocase (js "</style>") (drop (k + 1) (drop (i + 6) content)))
        as [j|] eqn:Ej.
      * rewrite (regexp_exec_first true style_re content i
                   (replicate 6 1 ++ k :: 1 :: j :: replicate 8 1)); [| lia | |].
        -- cbn [mbind option_bind fst snd]. f_equal.
           change ((replicate 6 1 ++ k :: 1 :: j :: replicate 8 1) !!! 8) with j.
           f_equal. rewrite drop_drop. f_equal. simpl. lia.
        -- rewrite match_here_style, Hm, drop_drop, Ek, Ej. reflexivity.
        -- intros k' Hk'. rewrite match_here_style. now rewrite (Hmin k' Hk').
      * rewrite regexp_exec_none; [reflexivity|].
        intros k0. rewrite match_here_style.
        destruct (matches_at eq_nocase (js "<style") (drop k0 content)) eqn:E0;
          [|reflexivity].
        apply Hlater in E0. rewrite drop_drop.
        destruct (search eq_case [62%N] (drop (k0 + 6) content)) as [k'|] eqn:Ek';
          [|reflexivity].
        replace (k0 + 6) with ((i + 6) + (k0 - i)) in Ek' by lia.
        rewrite <- drop_drop in Ek'.
        pose proof (search_drop_le _ _ _ _ _ _ Ek Ek') as Hle.
        rewrite !drop_drop.
        replace (k0 + 6 + (k' + 1)) with ((i + 6 + (k + 1)) + (k0 - i + k' - k)) by lia.
        rewrite <- drop_drop, <- (drop_drop content).
        now rewrite (search_drop_None _ _ _ _ Ej).
    + rewrite regexp_exec_none; [reflexivity|].
      intros k0. rewrite match_here_style.
      destruct (matches_at eq_nocase (js "<style") (drop k0 content)) eqn:E0;
        [|reflexivity].
      apply Hlater in E0. rewrite drop_drop.
      replace (k0 + 6) with ((i + 6) + (k0 - i)) by lia.
      rewrite <- drop_drop. now rewrite (search_drop_None _ _ _ _ Ek).
  - rewrite regexp_exec_none; [reflexivity|].
    intros k. rewrite match_here_style. now rewrite (search_None _ _ _ Ei k).
Qed.

Lemma htmlMatch_Some content doc :
  htmlMatch content = Some doc -> substring doc content /\ html_document doc.
Proof. rewrite htmlMatch_closed. apply html_span_Some. Qed.

Lemma htmlMatch_None content :
  htmlMatch content = None -> forall doc, substring doc content -> ~ html_document doc.
Proof. rewrite htmlMatch_closed. apply html_span_None. Qed.

Lemma cssMatch_Some content style :
  cssMatch content = Some style -> first_style_block content style.
Proof. rewrite cssMatch_closed. apply style_span_Some. Qed.

Lemma htmlMatch_fenced text : htmlMatch (fenced text) = htmlMatch text.
Proof. rewrite !htmlMatch_closed. apply html_span_fenced. Qed.

Lemma cssMatch_fenced text : cssMatch (fenced text) = cssMatch text.
Proof. rewrite !cssMatch_closed. apply style_span_fenced. Qed.

Lemma htmlMatch_fenced_plain text : htmlMatch (fenced_plain text) = htmlMatch text.
Proof. rewrite !htmlMatch_closed. apply html_span_fenced_plain. Qed.

Lemma cssMatch_fenced_plain text : cssMatch (fenced_plain text) = cssMatch text.
Proof. rewrite !cssMatch_closed. apply style_span_fenced_plain. Qed.

(** ** Fences around any response *)

Lemma startsWith_prefix pat s :
  matches_at eq_case pat s = true <-> exists rest, s = pat ++ rest.
Proof.
  revert s. induction pat as [|p pat IH]; intros s.
  - split; [intros _; now exists s|done].
  - destruct s as [|c s]; simpl.
    + split; [done|]. intros [rest E]. discriminate E.
    + rewrite andb_true_iff, IH. unfold eq_case. rewrite N.eqb_eq. split.
      * intros [-> [rest ->]]. now exists rest.
      * intros [rest E]. injection E as -> ->. split; [done|]. now exists rest.
Qed.

Lemma matches_at_app pat s rest :
  matches_at eq_case pat s = true -> matches_at eq_case pat (s ++ rest) = true.
Proof.
  rewrite !startsWith_prefix. intros [r ->]. exists (r ++ rest). now rewrite app_assoc.
Qed.

Lemma matches_at_sep fence s t :
  fence <> [] -> 10%N ∉ fence ->
  matches_at eq_case fence (s ++ 10%N :: t) = matches_at eq_case fence s.
Proof.
  revert s. induction fence as [|p fence IH]; intros s Hne Hno; [done|].
  apply not_elem_of_cons in Hno as [Hp Hno].
  destruct s as [|c s]; simpl.
  - unfold eq_case. destruct (N.eqb_spec p 10) as [E|_]; [now subst|reflexivity].
  - destruct fence as [|p' fence]; [reflexivity|]. now rewrite IH.
Qed.

Lemma remove_matches_skip re k s :
  remove_matches re k s = remove_matches re 0 (drop k s).
Proof.
  revert k. induction s as [|c s IH]; intros [|k]; try reflexivity.
  simpl. apply IH.
Qed.

Lemma remove_fence_match fence s :
  fence <> [] -> matches_at eq_case fence s = true ->
  remove_matches (fence_length fence) 0 s =
  remove_matches (fence_length fence) 0
    (drop (length fence +
           match drop (length fence) s with
           | c :: _ => if (c =? 10)%N then 1 else 0
           | [] => 0
           end) s).
Proof.
  intros Hne Hm. destruct s as [|c s]; [now destruct fence|].
  assert (E : fence_length fence (c :: s) =
    Some (length fence +
          match drop (length fence) (c :: s) with
          | c :: _ => if (c =? 10)%N then 1 else 0
          | [] => 0
          end)) by (unfold fence_length; now rewrite Hm).
  cbn [remove_matches]. rewrite E.
  destruct fence as [|p fence]; [done|]. cbn [length Nat.add].
  now rewrite remove_matches_skip.
Qed.

Lemma remove_fence_nomatch fence c s :
  matches_at eq_case fence (c :: s) = false ->
  remove_matches (fence_length fence) 0 (c :: s) =
  c :: remove_matches (fence_length fence) 0 s.
Proof.
  intros Hm.
  assert (E : fence_length fence (c :: s) = None)
    by (unfold fence_length; now rewrite Hm).
  cbn [remove_matches]. now rewrite E.
Qed.

(** An opening fence with its line feed goes as a whole. *)
Lemma remove_fence_open fence rest :
  fence <> [] ->
  remove_matches (fence_length fence) 0 (fence ++ 10%N :: rest) =
  remove_matches (fence_length fence) 0 rest.
Proof.
  intros Hne. rewrite remove_fence_match; [|done|].
  - rewrite drop_app_length. cbn [N.eqb Pos.eqb].
    now rewrite drop_app_add.
  - apply startsWith_prefix. now exists (10%N :: rest).
Qed.

(** What follows a line feed is scanned on its own; the line feed stays
    unless the text before it ends with a fence, which takes it. *)
Lemma remove_fence_sep fence :
  fence <> [] -> 10%N ∉ fence ->
  forall n s t, length s <= n ->
    exists b : bool,
      remove_matches (fence_length fence) 0 (s ++ 10%N :: t) =
      remove_matches (fence_length fence) 0 s ++ (if b then [10%N] else []) ++
      remove_matches (fence_length fence) 0 t.
Proof.
  intros Hne Hno.
  assert (Hlf : forall t, remove_matches (fence_length fence) 0 (10%N :: t) =
                          10%N :: remove_matches (fence_length fence) 0 t).
  { intros t. apply remove_fence_nomatch.
    change (10%N :: t) with ([] ++ 10%N :: t).
    rewrite (matches_at_sep fence [] t Hne Hno). now destruct fence. }
  induction n as [|n IH]; intros s t Hn.
  - destruct s; [|simpl in Hn; lia]. exists true. apply Hlf.
  - destruct s as [|c s]; [exists true; apply Hlf|].
    destruct (matches_at eq_case fence (c :: s)) eqn:Em.
    + pose proof Em as Em'. apply startsWith_prefix in Em' as [rest E].
      rewrite E. destruct rest as [|x rest].
      * rewrite app_nil_r. exists false.
        rewrite (remove_fence_open fence t Hne).
        rewrite (remove_fence_match fence fence Hne)
          by (apply startsWith_prefix; exists []; now rewrite app_nil_r).
        rewrite drop_ge by lia. reflexivity.
      * assert (Hlen : length (c :: s) = length fence + S (length rest))
          by (rewrite E, length_app; reflexivity).
        rewrite <- app_assoc.
        rewrite (remove_fence_match fence (fence ++ (x :: rest) ++ 10%N :: t) Hne)
          by (apply startsWith_prefix; eauto).
        rewrite (remove_fence_match fence (fence ++ x :: rest) Hne)
          by (apply startsWith_prefix; eauto).
        rewrite !drop_app_length. cbn [app]. rewrite !drop_app_add.
        destruct (x =? 10)%N.
        -- change (drop 1 (x :: rest ++ 10%N :: t)) with (rest ++ 10%N :: t).
           change (drop 1 (x :: rest)) with rest.
           apply IH. destruct fence; [done|]. simpl in *. lia.
        -- change (drop 0 (x :: rest ++ 10%N :: t)) with ((x :: rest) ++ 10%N :: t).
           change (drop 0 (x :: rest)) with (x :: rest).
           apply IH. destruct fence; [done|]. simpl in *. lia.
    + rewrite (remove_fence_nomatch fence c s Em).
      change ((c :: s) ++ 10%N :: t) with (c :: (s ++ 10%N :: t)).
      rewrite remove_fence_nomatch
        by (change (c :: (s ++ 10%N :: t)) with ((c :: s) ++ 10%N :: t);
            now rewrite matches_at_sep).
      destruct (IH s t ltac:(simpl in Hn; lia)) as [b Eb].
      exists b. now rewrite Eb.
Qed.

(** A closing fence right behind a text goes without a trace, also when
    it follows backquotes of the text. *)
Lemma remove_fence_close n : forall x,
  length x <= n ->
  remove_matches (fence_length (js "```")) 0 (x ++ js "```") =
  remove_matches (fence_length (js "```")) 0 x.
Proof.
  assert (Hne : js "```" <> []) by discriminate.
  induction n as [|n IH]; intros x Hn.
  - destruct x; [|simpl in Hn; lia]. vm_compute. reflexivity.
  - destruct x as [|c x]; [vm_compute; reflexivity|].
    destruct (matches_at eq_case (js "```") (c :: x)) eqn:Em.
    + pose proof Em as Em'. apply startsWith_prefix in Em' as [rest E].
      rewrite E. destruct rest as [|y rest].
      * vm_compute. reflexivity.
      * assert (Hlen : length (c :: x) = 3 + S (length rest))
          by (rewrite E, length_app; reflexivity).
        rewrite <- app_assoc.
        rewrite (remove_fence_match _ (js "```" ++ (y :: rest) ++ js "```") Hne)
          by (apply startsWith_prefix; eauto).
        rewrite (remove_fence_match _ (js "```" ++ y :: rest) Hne)
          by (apply startsWith_prefix; eauto).
        rewrite !drop_app_length. cbn [app]. rewrite !drop_app_add.
        destruct (y =? 10)%N.
        -- change (drop 1 (y :: rest ++ js "```")) with (rest ++ js "```").
           change (drop 1 (y :: rest)) with rest.
           apply IH. simpl in *. lia.
        -- change (drop 0 (y :: rest ++ js "```")) with ((y :: rest) ++ js "```").
           change (drop 0 (y :: rest)) with (y :: rest).
           apply IH. simpl in *. lia.
    + destruct (matches_at eq_case (js "```") ((c :: x) ++ js "```")) eqn:Em2.
      * apply startsWith_prefix in Em2 as [rest E].
        destruct x as [|c2 [|c3 x]].
        -- injection E as -> _. vm_compute. reflexivity.
        -- injection E as -> -> _. vm_compute. reflexivity.
        -- injection E as -> -> -> _.
           assert (Ht : matches_at eq_case (js "```") (js "```" ++ x) = true)
             by (apply startsWith_prefix; now exists x).
           pose proof (eq_trans (eq_sym Ht) Em) as Habs. discriminate Habs.
      * rewrite (remove_fence_nomatch _ c x Em).
        change ((c :: x) ++ js "```") with (c :: (x ++ js "```")) in *.
        rewrite (remove_fence_nomatch _ c _ Em2).
        f_equal. apply IH. simpl in Hn. lia.
Qed.

Lemma closing_fence x (b : bool) :
  trim (remove_matches (fence_length (js "```")) 0
          (x ++ (if b then [10%N] else []) ++ js "```")) =
  trim (remove_matches (fence_length (js "```")) 0 x).
Proof.
  destruct b.
  - destruct (remove_fence_sep (js "```") ltac:(discriminate)
                ltac:(apply (bool_decide_unpack _); vm_compute; exact I)
                (length x) x (js "```") (Nat.le_refl _)) as [b E].
    change ([10%N] ++ js "```") with (10%N :: js "```"). rewrite E.
    change (remove_matches (fence_length (js "```")) 0 (js "```")) with (@nil N).
    rewrite app_nil_r. destruct b; [|now rewrite app_nil_r].
    now apply trim_snoc.
  - cbn [app]. now rewrite (remove_fence_close (length x) x (Nat.le_refl _)).
Qed.

(** The text between the fences is scanned as it is alone; of the
    closing line its line feed at most is left, for [trim]. *)
Lemma fenced_body text :
  exists b : bool,
    remove_matches (fence_length (js "```json")) 0 (text ++ LF ++ js "```") =
    remove_matches (fence_length (js "```json")) 0 text ++
    (if b then [10%N] else []) ++ js "```".
Proof.
  destruct (remove_fence_sep (js "```json") ltac:(discriminate)
              ltac:(apply (bool_decide_unpack _); vm_compute; exact I)
              (length text) text (js "```") (Nat.le_refl _)) as [b E].
  exists b. exact E.
Qed.

Lemma cleanedContent_fenced_any text :
  cleanedContent (fenced text) = cleanedContent text.
Proof.
  rewrite !cleanedContent_closed. unfold fenced, replace_all.
  change (js "```json" ++ LF ++ text ++ LF ++ js "```")
    with (js "```json" ++ 10%N :: (text ++ LF ++ js "```")).
  rewrite (remove_fence_open (js "```json")) by discriminate.
  destruct (fenced_body text) as [b ->].
  apply closing_fence.
Qed.

(** The opening fence without the tag is left by the first pattern. *)
Lemma plain_fence_kept rest :
  remove_matches (fence_length (js "```json")) 0 (js "```" ++ 10%N :: rest) =
  js "```" ++ 10%N :: remove_matches (fence_length (js "```json")) 0 rest.
Proof.
  assert (Hno : 10%N ∉ js "```json")
    by (apply (bool_decide_unpack _); vm_compute; exact I).
  assert (Hne : js "```json" <> []) by discriminate.
  assert (Hm : forall pre, length pre <= 3 ->
            matches_at eq_case (js "```json") (pre ++ 10%N :: rest) = false).
  { intros pre Hpre. rewrite (matches_at_sep _ pre rest Hne Hno).
    destruct (matches_at eq_case (js "```json") pre) eqn:E; [|reflexivity].
    apply startsWith_prefix in E as [r ->]. rewrite length_app in Hpre.
    change (length (js "```json")) with 7 in Hpre. lia. }
  change (js "```" ++ 10%N :: rest) with (96%N :: 96%N :: 96%N :: 10%N :: rest).
  rewrite (remove_fence_nomatch (js "```json") 96 (96%N :: 96%N :: 10%N :: rest))
    by exact (Hm [96%N; 96%N; 96%N] ltac:(simpl; lia)).
  rewrite (remove_fence_nomatch (js "```json") 96 (96%N :: 10%N :: rest))
    by exact (Hm [96%N; 96%N] ltac:(simpl; lia)).
  rewrite (remove_fence_nomatch (js "```json") 96 (10%N :: rest))
    by exact (Hm [96%N] ltac:(simpl; lia)).
  rewrite (remove_fence_nomatch (js "```json") 10 rest)
    by exact (Hm [] ltac:(simpl; lia)).
  reflexivity.
Qed.

Lemma cleanedContent_fenced_plain_any text :
  cleanedContent (fenced_plain text) = cleanedContent text.
Proof.
  rewrite !cleanedContent_closed. unfold fenced_plain, replace_all.
  change (js "```" ++ LF ++ text ++ LF ++ js "```")
    with (js "```" ++ 10%N :: (text ++ LF ++ js "```")).
  rewrite plain_fence_kept.
  rewrite (remove_fence_open (js "```")) by discriminate.
  destruct (fenced_body text) as [b ->].
  apply closing_fence.
Qed.

(** ** The document and the style block, exactly *)

Lemma html_span_document content doc :
  html_span content = Some doc <-> html_document_span content doc.
Proof.
  unfold html_span. split.
  - intros H.
    destruct (search eq_nocase (js "<!DOCTYPE html>") content) as [i|] eqn:Ei; [|done].
    simpl in H.
    destruct (search_last eq_nocase (js "</html>") (drop (i + 15) content))
      as [j|] eqn:Ej; [|done].
    simpl in H. injection H as <-.
    pose proof Ei as Ei'. apply search_Some in Ei' as (Hm & Hi & _).
    pose proof Ej as Ej'. apply search_last_Some in Ej' as (Hm' & Hj & _).
    apply matches_at_agree in Hm as (d & rest & Ed & Had).
    pose proof (agree_length _ _ _ Had) as Hd.
    change (length (js "<!DOCTYPE html>")) with 15 in Hd.
    assert (Hrest : drop (i + 15) content = rest).
    { rewrite <- drop_drop, Ed, <- Hd. apply drop_app_length. }
    rewrite Hrest in Hm', Hj, Ej.
    apply matches_at_agree in Hm' as (e & post & Ee & Hae).
    pose proof (agree_length _ _ _ Hae) as He.
    change (length (js "</html>")) with 7 in He.
    assert (Hsplit : rest = take j rest ++ e ++ post) by now rewrite <- Ee, take_drop.
    exists (take i content), d, (take j rest), e, post.
    assert (Hi' : length (take i content) = i) by (rewrite length_take; lia).
    assert (Hj' : length (take j rest) = j) by (rewrite length_take; lia).
    repeat split; try done.
    + rewrite <- (take_drop i content) at 1. rewrite Ed. now rewrite Hsplit at 1.
    + rewrite Ed. rewrite Hsplit at 1.
      replace (d ++ take j rest ++ e ++ post) with ((d ++ take j rest ++ e) ++ post)
        by now rewrite <- !app_assoc.
      apply take_app_length'. rewrite !length_app. lia.
    + now rewrite Hi'.
    + now rewrite <- Hsplit, Hj'.
  - intros (pre & d & inner & e & post & -> & -> & Had & Hae & Ei & Ej).
    pose proof (agree_length _ _ _ Had) as Hd.
    change (length (js "<!DOCTYPE html>")) with 15 in Hd.
    pose proof (agree_length _ _ _ Hae) as He.
    change (length (js "</html>")) with 7 in He.
    rewrite Ei. simpl.
    assert (Hrest : drop (length pre + 15) (pre ++ d ++ inner ++ e ++ post) =
                    inner ++ e ++ post).
    { rewrite <- drop_drop, drop_app_length, <- Hd. apply drop_app_length. }
    rewrite Hrest, Ej. simpl. f_equal.
    rewrite drop_app_length.
    replace (d ++ inner ++ e ++ post) with ((d ++ inner ++ e) ++ post)
      by now rewrite <- !app_assoc.
    apply take_app_length'. rewrite !length_app. lia.
Qed.

Lemma htmlMatch_document content doc :
  htmlMatch content = Some doc <-> html_document_span content doc.
Proof. rewrite htmlMatch_closed. apply html_span_document. Qed.

Lemma cssMatch_None content :
  cssMatch content = None ->
  forall pre o attributes style e post,
    content = pre ++ o ++ attributes ++ [62%N] ++ style ++ e ++ post ->
    agree eq_nocase (js "<style") o -> ~ agree eq_nocase (js "</style>") e.
Proof. rewrite cssMatch_closed. apply style_span_None. Qed.

(** ** The response parser of [generateWebsite] *)

Lemma get_not_null v name :
  v <> JNull ->
  exists x, get v name = Returned x /\
    x = match v with JObject members => member name members | _ => None end.
Proof. intros Hv. destruct v; simpl; eauto. now destruct Hv. Qed.

Lemma or_else_string s fallback :
  or_else (Some (JString s)) (JString fallback) = JString (if decide (s = []) then fallback else s).
Proof.
  unfold or_else, truthy. destruct (decide (s = [])) as [->|Hne].
  - reflexivity.
  - now rewrite bool_decide_eq_false_2.
Qed.

Lemma generateWebsite_parse_json content v h c :
  JSON_parse (cleanedContent content) = Returned v ->
  get v (js "html") = Returned h -> get v (js "css") = Returned c ->
  generateWebsite_parse content =
    Returned {| html := or_else h (JString []); css := or_else c (JString []) |}.
Proof.
  intros Hp Hh Hc. unfold generateWebsite_parse.
  rewrite Hp. cbn [mbind Try_bind]. rewrite Hh. cbn [mbind Try_bind]. now rewrite Hc.
Qed.

Lemma generateWebsite_parse_fallback content :
  (forall v, JSON_parse (cleanedContent content) = Returned v -> v = JNull) ->
  generateWebsite_parse content =
    match htmlMatch content with
    | Some doc =>
        Returned {| html := JString doc;
                    css := JString (default [] (cssMatch content)) |}
    | None => Thrown (js "Failed to generate website. Please try again.")
    end.
Proof.
  intros Hnull. unfold generateWebsite_parse.
  destruct (JSON_parse (cleanedContent content)) as [v|e] eqn:Hp.
  - rewrite (Hnull v eq_refl). cbn [mbind Try_bind get].
    destruct (htmlMatch content); [|done].
    now destruct (cssMatch content).
  - cbn [mbind Try_bind].
    destruct (htmlMatch content); [|done].
    now destruct (cssMatch content).
Qed.

Lemma generateWebsite_parse_fenced content :
  generateWebsite_parse (fenced content) = generateWebsite_parse content.
Proof.
  unfold generateWebsite_parse.
  now rewrite cleanedContent_fenced_any, htmlMatch_fenced, cssMatch_fenced.
Qed.

Lemma generateWebsite_parse_fenced_plain content :
  generateWebsite_parse (fenced_plain content) = generateWebsite_parse content.
Proof.
  unfold generateWebsite_parse.
  now rewrite cleanedContent_fenced_plain_any, htmlMatch_fenced_plain,
    cssMatch_fenced_plain.
Qed.

(** C8, as the code has it: the parser JSON-parses the response with the
    code fences stripped.  When that yields a value other than null, the
    answer holds the value's [html] and [css] members, each replaced by
    the empty string when missing or falsy: an object with string members
    [html] and [css] yields exactly those strings (an empty one included),
    and no failure is raised for want of HTML.  Any response put between an
    opening fence, with or without the [json] tag, and a closing fence is
    cleaned to the same text and parses to the same answer as the response
    alone.  The pattern for the document takes exactly the substring from
    the leftmost doctype to the last closing [html] tag behind it (letters
    in either case).  When the JSON parse throws or yields null, the answer
    is taken from the raw response: [html] is that substring, and [css] is
    the content of the first inline style block, or the empty string when
    the response holds no style block at all; and the call fails, with its
    parse error, exactly when in that case the raw response holds no such
    document. *)
Theorem generateWebsite_parse_spec (content : JsString) :
  (forall v, JSON_parse (cleanedContent content) = Returned v -> v <> JNull ->
     exists h c,
       get v (js "html") = Returned h /\ get v (js "css") = Returned c /\
       generateWebsite_parse content =
         Returned {| html := or_else h (JString []); css := or_else c (JString []) |}) /\
  (forall members h c,
     JSON_parse (cleanedContent content) = Returned (JObject members) ->
     member (js "html") members = Some (JString h) ->
     member (js "css") members = Some (JString c) ->
     generateWebsite_parse content = Returned {| html := JString h; css := JString c |}) /\
  (cleanedContent (fenced content) = cleanedContent content /\
   cleanedContent (fenced_plain content) = cleanedContent content /\
   generateWebsite_parse (fenced content) = generateWebsite_parse content /\
   generateWebsite_parse (fenced_plain content) = generateWebsite_parse content) /\
  (forall doc, htmlMatch content = Some doc <-> html_document_span content doc) /\
  ((forall v, JSON_parse (cleanedContent content) = Returned v -> v = JNull) ->
     (forall doc, htmlMatch content = Some doc ->
        html_document_span content doc /\
        substring doc content /\ html_document doc /\
        generateWebsite_parse content =
          Returned {| html := JString doc;
                      css := JString (default [] (cssMatch content)) |} /\
        (forall style, cssMatch content = Some style ->
           first_style_block content style /\
           generateWebsite_parse content =
             Returned {| html := JString doc; css := JString style |}) /\
        (cssMatch content = None ->
           generateWebsite_parse content =
             Returned {| html := JString doc; css := JString [] |} /\
           forall pre o attributes style e post,
             content = pre ++ o ++ attributes ++ [62%N] ++ style ++ e ++ post ->
             agree eq_nocase (js "<style") o ->
             ~ agree eq_nocase (js "</style>") e)) /\
     (htmlMatch content = None ->
        (forall doc, substring doc content -> ~ html_document doc) /\
        generateWebsite_parse content =
          Thrown (js "Failed to generate website. Please try again."))).
Proof.
  split; [|split; [|split; [|split]]].
  - intros v Hp Hv.
    destruct (get_not_null v (js "html") Hv) as (h & Hh & _).
    destruct (get_not_null v (js "css") Hv) as (c & Hc & _).
    exists h, c. repeat split; try done.
    now apply generateWebsite_parse_json with (v := v).
  - intros members h c Hp Hh Hc.
    rewrite (generateWebsite_parse_json content (JObject members)
               (Some (JString h)) (Some (JString c)) Hp).
    + rewrite !or_else_string. now repeat case_decide; subst.
    + cbn [get]. now rewrite Hh.
    + cbn [get]. now rewrite Hc.
  - split; [apply cleanedContent_fenced_any|].
    split; [apply cleanedContent_fenced_plain_any|]. split.
    + apply generateWebsite_parse_fenced.
    + apply generateWebsite_parse_fenced_plain.
  - intros doc. apply htmlMatch_document.
  - intros Hnull. pose proof (generateWebsite_parse_fallback content Hnull) as Hfb.
    split.
    + intros doc Hdoc. rewrite Hdoc in Hfb.
      destruct (htmlMatch_Some _ _ Hdoc) as [Hsub Hhtml].
      split; [now apply htmlMatch_document|].
      split; [exact Hsub|]. split; [exact Hhtml|]. split; [exact Hfb|]. split.
      * intros style Hstyle. split; [now apply cssMatch_Some|].
        now rewrite Hstyle in Hfb.
      * intros Hstyle. split; [now rewrite Hstyle in Hfb|].
        now apply cssMatch_None.
    + intros Hnone. rewrite Hnone in Hfb. split; [|done].
      now apply htmlMatch_None.
Qed.

Lemma generateWebsite_parse_spec_witness :
  generateWebsite_parse site_json =
    Returned {| html := JString (js "<!DOCTYPE html><html><body>Hi</body></html>");
                css := JString (js "body{margin:0}") |} /\
  generateWebsite_parse (fenced site_json) = generateWebsite_parse site_json /\
  generateWebsite_parse site_prose =
    Returned {| html := JString site_document; css := JString (js "body{margin:0}") |} /\
  generateWebsite_parse site_refusal =
    Thrown (js "Failed to generate website. Please try again.").
Proof.
  destruct (generateWebsite_parse_spec site_json) as (_ & Hjson & Hfence & _).
  destruct (generateWebsite_parse_spec site_prose) as (_ & _ & _ & _ & Hprose).
  destruct (generateWebsite_parse_spec site_refusal) as (_ & _ & _ & _ & Hrefusal).
  split; [|split; [|split]].
  - eapply Hjson; vm_compute; reflexivity.
  - apply Hfence.
  - destruct Hprose as [Hdoc _].
    + intros v Hv. vm_compute in Hv. discriminate Hv.
    + destruct (Hdoc site_document) as (_ & _ & _ & E & _); [vm_compute; reflexivity|].
      exact E.
  - destruct Hrefusal as [_ Hnone].
    + intros v Hv. vm_compute in Hv. discriminate Hv.
    + apply Hnone. vm_compute. reflexivity.
Defined.

(** C8, as the specification words it, fails: [{}] is valid JSON once
    cleaned and holds no HTML for either path, yet the parser answers an
    empty page instead of failing; and [null], valid JSON as well, is not
    answered from the structured parse but ends in the error. *)
Lemma generateWebsite_parse_not_strict :
  (JSON_parse (cleanedContent (js "{}")) = Returned (JObject []) /\
   htmlMatch (js "{}") = None /\
   generateWebsite_parse (js "{}") =
     Returned {| html := JString []; css := JString [] |}) /\
  (JSON_parse (cleanedContent (js "null")) = Returned JNull /\
   generateWebsite_parse (js "null") =
     Thrown (js "Failed to generate website. Please try again.")).
Proof. repeat split. Qed.

(** ** The response parser of [regenerateSection] *)

Lemma regenerateSection_parse_json currentHtml currentCss content v h c :
  JSON_parse (cleanedContent content) = Returned v ->
  get v (js "html") = Returned h -> get v (js "css") = Returned c ->
  regenerateSection_parse currentHtml currentCss content =
    Returned {| html := or_else h (JString currentHtml);
                css := or_else c (JString currentCss) |}.
Proof.
  intros Hp Hh Hc. unfold regenerateSection_parse.
  rewrite Hp. cbn [mbind Try_bind]. rewrite Hh. cbn [mbind Try_bind]. now rewrite Hc.
Qed.

Lemma regenerateSection_parse_fallback currentHtml currentCss content :
  (forall v, JSON_parse (cleanedContent content) = Returned v -> v = JNull) ->
  regenerateSection_parse currentHtml currentCss content =
    match htmlMatch content with
    | Some doc => Returned {| html := JString doc; css := JString [] |}
    | None => Thrown (js "Failed to update website section. Please try again.")
    end.
Proof.
  intros Hnull. unfold regenerateSection_parse.
  destruct (JSON_parse (cleanedContent content)) as [v|e] eqn:Hp.
  - rewrite (Hnull v eq_refl). cbn [mbind Try_bind get].
    now destruct (htmlMatch content).
  - cbn [mbind Try_bind]. now destruct (htmlMatch content).
Qed.

(** C9, as the code has it: the caller's previous HTML and CSS are the
    answer's [html] and [css] when the cleaned response parses as JSON
    (other than null) and the member is missing or falsy, each member on
    its own; in particular a parsed object with neither member answers
    the previous HTML and CSS.  When the JSON parse throws or yields
    null, the previous HTML and CSS are not used: the answer is the
    document extracted from the raw response with an empty [css], and
    when the raw response holds no document the call fails with the
    error of this function. *)
Theorem regenerateSection_parse_spec (currentHtml currentCss content : JsString) :
  (forall v, JSON_parse (cleanedContent content) = Returned v -> v <> JNull ->
     exists h c,
       get v (js "html") = Returned h /\ get v (js "css") = Returned c /\
       regenerateSection_parse currentHtml currentCss content =
         Returned {| html := or_else h (JString currentHtml);
                     css := or_else c (JString currentCss) |}) /\
  (forall members,
     JSON_parse (cleanedContent content) = Returned (JObject members) ->
     member (js "html") members = None ->
     member (js "css") members = None ->
     regenerateSection_parse currentHtml currentCss content =
       Returned {| html := JString currentHtml; css := JString currentCss |}) /\
  ((forall v, JSON_parse (cleanedContent content) = Returned v -> v = JNull) ->
     (forall doc, htmlMatch content = Some doc ->
        substring doc content /\ html_document doc /\
        regenerateSection_parse currentHtml currentCss content =
          Returned {| html := JString doc; css := JString [] |}) /\
     (htmlMatch content = None ->
        (forall doc, substring doc content -> ~ html_document doc) /\
        regenerateSection_parse currentHtml currentCss content =
          Thrown (js "Failed to update website section. Please try again."))).
Proof.
  split; [|split].
  - intros v Hp Hv.
    destruct (get_not_null v (js "html") Hv) as (h & Hh & _).
    destruct (get_not_null v (js "css") Hv) as (c & Hc & _).
    exists h, c. repeat split; try done.
    now apply regenerateSection_parse_json with (v := v).
  - intros members Hp Hh Hc.
    rewrite (regenerateSection_parse_json currentHtml currentCss content
               (JObject members) None None Hp).
    + reflexivity.
    + cbn [get]. now rewrite Hh.
    + cbn [get]. now rewrite Hc.
  - intros Hnull.
    pose proof (regenerateSection_parse_fallback currentHtml currentCss content Hnull) as Hfb.
    split.
    + intros doc Hdoc. rewrite Hdoc in Hfb.
      destruct (htmlMatch_Some _ _ Hdoc) as [Hsub Hhtml]. done.
    + intros Hnone. rewrite Hnone in Hfb. split; [|done].
      now apply htmlMatch_None.
Qed.

Lemma regenerateSection_parse_spec_witness :
  regenerateSection_parse (js "<p>old</p>") (js "p{color:red}") (js "{}") =
    Returned {| html := JString (js "<p>old</p>"); css := JString (js "p{color:red}") |} /\
  regenerateSection_parse (js "<p>old</p>") (js "p{color:red}") site_prose =
    Returned {| html := JString site_document; css := JString [] |} /\
  regenerateSection_parse (js "<p>old</p>") (js "p{color:red}") site_refusal =
    Thrown (js "Failed to update website section. Please try again.").
Proof.
  destruct (regenerateSection_parse_spec (js "<p>old</p>") (js "p{color:red}") (js "{}"))
    as (_ & Hempty & _).
  destruct (regenerateSection_parse_spec (js "<p>old</p>") (js "p{color:red}") site_prose)
    as (_ & _ & Hprose).
  destruct (regenerateSection_parse_spec (js "<p>old</p>") (js "p{color:red}") site_refusal)
    as (_ & _ & Hrefusal).
  split; [|split].
  - eapply Hempty; vm_compute; reflexivity.
  - destruct Hprose as [Hdoc _].
    + intros v Hv. vm_compute in Hv. discriminate Hv.
    + destruct (Hdoc site_document) as (_ & _ & E); [vm_compute; reflexivity|].
      exact E.
  - destruct Hrefusal as [_ Hnone].
    + intros v Hv. vm_compute in Hv. discriminate Hv.
    + apply Hnone. vm_compute. reflexivity.
Defined.

(** C9, as the specification words it, fails: for a response that is not
    JSON but holds a document, pattern extraction succeeds and the answer
    is the extracted document with an empty [css]; neither the previous
    HTML nor the previous CSS is preserved. *)
Lemma regenerateSection_parse_drops_previous :
  (exists e, JSON_parse (cleanedContent site_prose) = Thrown e) /\
  htmlMatch site_prose = Some site_document /\
  regenerateSection_parse (js "<p>old</p>") (js "p{color:red}") site_prose =
    Returned {| html := JString site_document; css := JString [] |} /\
  regenerateSection_parse (js "<p>old</p>") (js "p{color:red}") site_prose <>
    Returned {| html := JString (js "<p>old</p>"); css := JString (js "p{color:red}") |}.
Proof.
  repeat split.
  - eexists. vm_compute. reflexivity.
  - vm_compute. discriminate.
Qed.

(** * Further properties of the code *)

Local Open Scope Z_scope.

(** ** Usage and ledger *)

(** X1: [getAiUsage] only reads the store; what it reports as remaining is
    never negative, is positive exactly when the used count is below the
    limit, and adds up with the used count to the limit whenever the used
    count does not exceed it; for an id without a row it reports 0 used of
    3. *)
Theorem getAiUsage_remaining (userId : string) (d : Db) :
  exists usage, getAiUsage userId d = (usage, d) /\
    0 <= remaining usage /\
    (0 < remaining usage <-> used usage < limit usage) /\
    (used usage <= limit usage -> used usage + remaining usage = limit usage) /\
    (limit usage <= used usage -> remaining usage = 0) /\
    match users d !! userId with
    | Some u => used usage = aiGenerationsUsed u /\ limit usage = aiGenerationsLimit u
    | None => usage = {| used := 0; limit := 3; remaining := 3 |}
    end.
Proof.
  unfold getAiUsage, bind. rewrite getUser_eq.
  destruct (users d !! userId) as [u|]; eexists; (split; [reflexivity|]); simpl.
  - repeat split; lia.
  - repeat split; lia.
Qed.

Lemma charged_0 u : charged 0 u = u.
Proof. destruct u. unfold charged, apply_update. simpl. f_equal. lia. Qed.

Lemma charged_bump k u : charged k (bump u) = charged (k + 1) u.
Proof. unfold charged, bump, apply_update. simpl. f_equal. lia. Qed.

Lemma db_insert_same userId u d :
  users d !! userId = Some u ->
  {| users := <[userId := u]> (users d); aiGenerations := aiGenerations d |} = d.
Proof. intros H. destruct d as [us gs]. simpl in *. now rewrite insert_id. Qed.

(** [n] calls of the ledger for an account outside the unlimited bypass:
    the first [limit - used] of them are charged. *)
Lemma incrementAiUsage_times_limited n : forall userId d u,
  users d !! userId = Some u ->
  hasPaidPlan (planType u) && isActiveSubscription (subscriptionStatus u) = false ->
  let k := Nat.min (Z.to_nat (aiGenerationsLimit u - aiGenerationsUsed u)) n in
  incrementAiUsage_times n userId d =
    (replicate k true ++ replicate (n - k) false,
     {| users := <[userId := charged (Z.of_nat k) u]> (users d);
        aiGenerations := aiGenerations d |}).
Proof.
  induction n as [|n IH]; intros userId d u Hu Hlim k.
  - subst k. rewrite Nat.min_0_r. simpl. rewrite charged_0.
    unfold ret. now rewrite (db_insert_same _ _ _ Hu).
  - cbn [incrementAiUsage_times]. unfold bind at 1.
    rewrite (incrementAiUsage_limited _ _ _ Hu Hlim).
    destruct (aiGenerationsUsed u >=? aiGenerationsLimit u) eqn:E.
    + rewrite Z.geb_leb in E. apply Z.leb_le in E.
      assert (Hk : k = 0%nat) by (subst k; lia). rewrite Hk.
      unfold bind at 1. rewrite (IH _ _ _ Hu Hlim).
      replace (Nat.min (Z.to_nat (aiGenerationsLimit u - aiGenerationsUsed u)) n)
        with 0%nat by lia.
      unfold ret. simpl. now rewrite Nat.sub_0_r.
    + rewrite Z.geb_leb in E. apply Z.leb_gt in E.
      unfold bind at 1.
      set (d1 := {| users := <[userId := bump u]> (users d);
                    aiGenerations := aiGenerations d |}).
      assert (Hu1 : users d1 !! userId = Some (bump u)) by apply lookup_insert_eq.
      pose proof (IH userId d1 (bump u) Hu1 Hlim) as IH1. cbv zeta in IH1.
      change (aiGenerationsLimit (bump u)) with (aiGenerationsLimit u) in IH1.
      change (aiGenerationsUsed (bump u)) with (aiGenerationsUsed u + 1) in IH1.
      rewrite IH1.
      set (k' := Nat.min (Z.to_nat (aiGenerationsLimit u - (aiGenerationsUsed u + 1))) n).
      assert (Hk : k = S k') by (subst k k'; lia). rewrite Hk.
      unfold ret, d1. cbn [replicate app Nat.sub users aiGenerations].
      rewrite insert_insert_eq, charged_bump.
      replace (Z.of_nat k' + 1) with (Z.of_nat (S k')) by lia. reflexivity.
Qed.

(** X2: for an account outside the unlimited bypass (not both a paid plan
    and the active status), of [n] ledger calls in a row exactly the first
    [min(n, limit - used)] are charged (none when the count already
    reached the limit) and the others are refused; the counter ends that
    much higher, so it never passes a limit it was not already over, and
    nothing else in the store changes. *)
Theorem incrementAiUsage_times_quota (n : nat) (userId : string) (d : Db) (u : User) :
  users d !! userId = Some u ->
  hasPaidPlan (planType u) && isActiveSubscription (subscriptionStatus u) = false ->
  let k := Nat.min (Z.to_nat (aiGenerationsLimit u - aiGenerationsUsed u)) n in
  incrementAiUsage_times n userId d =
    (replicate k true ++ replicate (n - k) false,
     {| users := <[userId := charged (Z.of_nat k) u]> (users d);
        aiGenerations := aiGenerations d |}) /\
  aiGenerationsUsed (charged (Z.of_nat k) u) = aiGenerationsUsed u + Z.of_nat k /\
  (aiGenerationsUsed u <= aiGenerationsLimit u ->
   aiGenerationsUsed (charged (Z.of_nat k) u) <= aiGenerationsLimit u).
Proof.
  intros Hu Hlim k. split; [now apply incrementAiUsage_times_limited|].
  split; [reflexivity|]. intros Hle. simpl. subst k. lia.
Qed.

Lemma incrementAiUsage_times_quota_witness :
  incrementAiUsage_times 5 "alice" store0 =
    ([true; true; false; false; false],
     {| users := <["alice" := account "alice" PlanType.free SubscriptionStatus.free 3 3]>
                   (users store0);
        aiGenerations := [] |}).
Proof.
  apply (incrementAiUsage_times_quota 5 "alice" store0 alice eq_refl eq_refl).
Defined.

(** ** Plan changes, followed up *)

Lemma updateSubscription_found userId newPlan newStatus d u :
  users d !! userId = Some u ->
  updateSubscription userId newPlan newStatus d =
    (tt, {| users := <[userId :=
                        {| id := id u; email := email u; name := name u; role := role u;
                           aiGenerationsUsed :=
                             match newPlan with
                             | PlanType.free => 0
                             | _ => aiGenerationsUsed u
                             end;
                           aiGenerationsLimit := limits newPlan;
                           planType := newPlan;
                           subscriptionStatus := newStatus |}]> (users d);
            aiGenerations := aiGenerations d |}).
Proof.
  intros Hu. unfold updateSubscription, exec, update_users_where_id.
  rewrite (alter_const_found _ _ _ _ Hu). now destruct newPlan.
Qed.

Lemma updateSubscription_missing userId newPlan newStatus d :
  users d !! userId = None -> updateSubscription userId newPlan newStatus d = (tt, d).
Proof.
  intros Hu. unfold updateSubscription, exec, update_users_where_id.
  destruct d as [us gs]. simpl in *. f_equal. f_equal.
  apply map_eq. intros k. destruct (decide (userId = k)) as [->|Hne].
  - now rewrite lookup_alter_eq, Hu.
  - now rewrite lookup_alter_ne.
Qed.

(** X3: right after [updateSubscription] the policy depends on the new
    status alone: for an existing account, [getSubscriptionStatus] then
    reports the new plan and status, is blocked exactly for past_due and
    cancelled, and allows AI exactly when it is not blocked, whatever the
    counters were before (a downgrade resets them, a paid plan does not
    need them). *)
Theorem updateSubscription_then_status (userId : string) (newPlan : PlanType.t)
    (newStatus : SubscriptionStatus.t) (d : Db) (u : User) :
  users d !! userId = Some u ->
  fst (getSubscriptionStatus userId (snd (updateSubscription userId newPlan newStatus d))) =
    {| sub_planType := newPlan; sub_status := newStatus;
       isBlocked := status_isBlocked newStatus;
       canUseAi := negb (status_isBlocked newStatus) |}.
Proof.
  intros Hu. rewrite (updateSubscription_found _ _ _ _ _ Hu). cbn [snd].
  erewrite getSubscriptionStatus_found by (simpl; apply lookup_insert_eq).
  cbn [fst planType subscriptionStatus aiGenerationsUsed aiGenerationsLimit].
  f_equal. destruct newPlan; simpl; now rewrite ?orb_true_r, andb_true_r.
Qed.

Lemma updateSubscription_then_status_witness :
  fst (getSubscriptionStatus "erin"
         (snd (updateSubscription "erin" PlanType.free SubscriptionStatus.active store0))) =
    {| sub_planType := PlanType.free; sub_status := SubscriptionStatus.active;
       isBlocked := false; canUseAi := true |} /\
  canUseAi (fst (getSubscriptionStatus "erin" store0)) = false.
Proof.
  split; [|reflexivity].
  apply (updateSubscription_then_status "erin" PlanType.free SubscriptionStatus.active
           store0 erin eq_refl).
Defined.

(** X4: [updateSubscription] writes one row at most: every other row and
    the generation records stay as they were, an id without a row leaves
    the store as it was (no row is created), and doing the same change a
    second time changes nothing more. *)
Theorem updateSubscription_frame (userId : string) (newPlan : PlanType.t)
    (newStatus : SubscriptionStatus.t) (d : Db) :
  let d' := snd (updateSubscription userId newPlan newStatus d) in
  (forall other, other <> userId -> users d' !! other = users d !! other) /\
  dom (users d') = dom (users d) /\
  aiGenerations d' = aiGenerations d /\
  (users d !! userId = None -> d' = d) /\
  snd (updateSubscription userId newPlan newStatus d') = d'.
Proof.
  intros d'. subst d'.
  destruct (users d !! userId) as [u|] eqn:Hu.
  - rewrite (updateSubscription_found _ _ _ _ _ Hu). cbn [snd users aiGenerations].
    repeat split.
    + intros other Hne. now rewrite lookup_insert_ne.
    + now apply dom_insert_lookup_L.
    + discriminate.
    + erewrite updateSubscription_found by (simpl; apply lookup_insert_eq).
      cbn [snd users aiGenerations id email name role aiGenerationsUsed].
      rewrite insert_insert_eq. now destruct newPlan.
  - rewrite (updateSubscription_missing _ _ _ _ Hu). cbn [snd].
    repeat split; try done. now rewrite (updateSubscription_missing _ _ _ _ Hu).
Qed.

(** X5: a downgrade restarts the free quota: after
    [updateSubscription(id, "free", status)] on an existing account, of
    [n] ledger calls in a row exactly the first [min(n, 3)] are charged,
    whatever the account had used before and whatever the status. *)
Theorem downgrade_restarts_quota (n : nat) (userId : string)
    (newStatus : SubscriptionStatus.t) (d : Db) (u : User) :
  users d !! userId = Some u ->
  fst (incrementAiUsage_times n userId
         (snd (updateSubscription userId PlanType.free newStatus d))) =
    replicate (Nat.min 3 n) true ++ replicate (n - Nat.min 3 n) false.
Proof.
  intros Hu. rewrite (updateSubscription_found _ _ _ _ _ Hu). cbn [snd].
  set (u' := {| id := id u; email := email u; name := name u; role := role u;
                aiGenerationsUsed := 0; aiGenerationsLimit := limits PlanType.free;
                planType := PlanType.free; subscriptionStatus := newStatus |}).
  set (d' := {| users := <[userId := u']> (users d); aiGenerations := aiGenerations d |}).
  assert (Hu' : users d' !! userId = Some u') by apply lookup_insert_eq.
  now rewrite (incrementAiUsage_times_limited n userId d' u' Hu' eq_refl).
Qed.

Lemma downgrade_restarts_quota_witness :
  fst (incrementAiUsage_times 4 "bob"
         (snd (updateSubscription "bob" PlanType.free SubscriptionStatus.cancelled store0))) =
    [true; true; true; false].
Proof.
  apply (downgrade_restarts_quota 4 "bob" SubscriptionStatus.cancelled store0 bob eq_refl).
Defined.

(** ** The generate handler as a whole *)

Lemma getAiUsage_users userId d1 d2 :
  users d1 = users d2 -> fst (getAiUsage userId d1) = fst (getAiUsage userId d2).
Proof.
  intros E. unfold getAiUsage, bind. rewrite !getUser_eq, E.
  now destruct (users d2 !! userId).
Qed.

(** The handler on an existing account, for an accepted body and a
    provider that returns. *)
Lemma generate_found {Body : Type} (parse : Body -> ZodResult)
    (provider : JsString -> Try JsString) (req : AuthRequest Body)
    (data : AiGenerateData) (d : Db) (u : User) (result : JsString) :
  parse (body req) = ZodOk data ->
  users d !! user_id req = Some u ->
  provider (prompt data) = Returned result ->
  let s := fst (getSubscriptionStatus (user_id req) d) in
  post_api_ai_generate parse provider req d =
    if status_isBlocked (subscriptionStatus u) then
      ({| status := 402;
          json := PaymentBody
            (js "Your subscription requires payment. Please upgrade to continue using AI features.")
            true s |}, d)
    else if negb ((aiGenerationsUsed u <? aiGenerationsLimit u) || hasPaidPlan (planType u)) then
      ({| status := 403;
          json := UpgradeBody
            (js "AI generation limit reached. Upgrade your plan for unlimited generations.")
            true s |}, d)
    else if hasPaidPlan (planType u) && isActiveSubscription (subscriptionStatus u) then
      ({| status := 200;
          json := ResultBody result (estimateTokens (prompt data))
                    (fst (getAiUsage (user_id req) d)) |},
       logged (user_id req) data result d)
    else if aiGenerationsUsed u >=? aiGenerationsLimit u then
      ({| status := 403;
          json := MessageBody
            (js "AI generation limit reached. Upgrade your plan for more generations.") |}, d)
    else
      ({| status := 200;
          json := ResultBody result (estimateTokens (prompt data))
                    {| used := aiGenerationsUsed u + 1;
                       limit := aiGenerationsLimit u;
                       remaining := Z.max 0 (aiGenerationsLimit u - (aiGenerationsUsed u + 1)) |} |},
       logged (user_id req) data result
         {| users := <[user_id req := bump u]> (users d);
            aiGenerations := aiGenerations d |}).
Proof.
  intros Hvalid Hu Hres s.
  pose proof (getSubscriptionStatus_found _ _ _ Hu) as Hs.
  assert (Hblk : isBlocked s = status_isBlocked (subscriptionStatus u))
    by (subst s; now rewrite Hs).
  assert (Hcan : canUseAi s = negb (status_isBlocked (subscriptionStatus u)) &&
                   ((aiGenerationsUsed u <? aiGenerationsLimit u) || hasPaidPlan (planType u)))
    by (subst s; now rewrite Hs).
  destruct (status_isBlocked (subscriptionStatus u)) eqn:Eb.
  { now apply generate_blocked with (data := data). }
  simpl in Hcan.
  destruct ((aiGenerationsUsed u <? aiGenerationsLimit u) || hasPaidPlan (planType u)) eqn:Ec;
    cbn [negb].
  2:{ now apply generate_no_credit with (data := data). }
  rewrite (generate_past_gate parse provider req data Hvalid d Hblk Hcan), Hres. cbv zeta.
  destruct (hasPaidPlan (planType u) && isActiveSubscription (subscriptionStatus u)) eqn:Epa.
  - apply andb_true_iff in Epa as [Hp Ha]. apply isActiveSubscription_true in Ha.
    rewrite (incrementAiUsage_unlimited _ _ _ Hu Hp Ha). cbv zeta.
    f_equal. f_equal. f_equal. now apply getAiUsage_users.
  - rewrite (incrementAiUsage_limited _ _ _ Hu Epa).
    destruct (aiGenerationsUsed u >=? aiGenerationsLimit u); [reflexivity|].
    cbv zeta. erewrite getAiUsage_found by (simpl; apply lookup_insert_eq).
    reflexivity.
Qed.

Ltac by_cases_on u :=
  destruct (planType u) eqn:?, (subscriptionStatus u) eqn:?;
  rewrite ?Z.geb_leb;
  destruct (Z.ltb_spec (aiGenerationsUsed u) (aiGenerationsLimit u)),
           (Z.leb_spec (aiGenerationsLimit u) (aiGenerationsUsed u));
  try lia; cbn.

(** X6: the outcome of a generate request for an existing account, when
    the schema accepts the body and the provider returns, is decided by
    the account alone: 402 exactly for the statuses past_due and
    cancelled; 200 exactly when the account is not blocked and either has
    credits left or has a paid plan with the active status; and the 403 of
    the ledger (the provider was called, its result is dropped and the
    store is left as it was) exactly for a paid plan whose status is
    still free and whose counter has reached the limit. *)
Theorem generate_outcome {Body : Type} (parse : Body -> ZodResult)
    (provider : JsString -> Try JsString) (req : AuthRequest Body)
    (data : AiGenerateData) (d : Db) (u : User) (result : JsString) :
  parse (body req) = ZodOk data ->
  users d !! user_id req = Some u ->
  provider (prompt data) = Returned result ->
  let r := fst (post_api_ai_generate parse provider req d) in
  let late := MessageBody
    (js "AI generation limit reached. Upgrade your plan for more generations.") in
  (status r = 402 <->
     subscriptionStatus u = SubscriptionStatus.past_due \/
     subscriptionStatus u = SubscriptionStatus.cancelled) /\
  (status r = 200 <->
     status_isBlocked (subscriptionStatus u) = false /\
     (aiGenerationsUsed u < aiGenerationsLimit u \/
      (hasPaidPlan (planType u) = true /\
       subscriptionStatus u = SubscriptionStatus.active))) /\
  (json r = late <->
     hasPaidPlan (planType u) = true /\
     subscriptionStatus u = SubscriptionStatus.free /\
     aiGenerationsLimit u <= aiGenerationsUsed u) /\
  (json r = late -> snd (post_api_ai_generate parse provider req d) = d).
Proof.
  intros Hvalid Hu Hres r late. subst r late.
  rewrite (generate_found parse provider req data d u result Hvalid Hu Hres).
  by_cases_on u;
    repeat split; intros; try discriminate; try lia; try tauto;
    intuition (discriminate || lia).
Qed.

Lemma generate_outcome_witness :
  let d := snd (incrementAiUsage "carol" store0) in
  json (fst (post_api_ai_generate promptSchema placeholderProvider
               (request "carol" "a bakery") d)) =
    MessageBody (js "AI generation limit reached. Upgrade your plan for more generations.") /\
  snd (post_api_ai_generate promptSchema placeholderProvider
         (request "carol" "a bakery") d) = d /\
  canUseAi (fst (getSubscriptionStatus "carol" d)) = true.
Proof.
  intros d.
  destruct (generate_outcome promptSchema placeholderProvider (request "carol" "a bakery")
              {| prompt := js "a bakery" |} d (bump carol)
              (js "Generated content for: a bakery. This is a placeholder - connect OpenAI API for real AI generation.")
              eq_refl eq_refl eq_refl) as (_ & _ & Hlate & Hsame).
  assert (Hc : hasPaidPlan (planType (bump carol)) = true /\
               subscriptionStatus (bump carol) = SubscriptionStatus.free /\
               aiGenerationsLimit (bump carol) <= aiGenerationsUsed (bump carol))
    by (repeat split; simpl; lia).
  split; [apply Hlate, Hc|]. split; [apply Hsame, Hlate, Hc|reflexivity].
Defined.

Lemma generate_cases {Body : Type} (parse : Body -> ZodResult)
    (provider : JsString -> Try JsString) (req : AuthRequest Body) (d : Db) :
  (status (fst (post_api_ai_generate parse provider req d)) <> 200 /\
   snd (post_api_ai_generate parse provider req d) = d) \/
  (exists data result u,
     parse (body req) = ZodOk data /\
     provider (prompt data) = Returned result /\
     users d !! user_id req = Some u /\
     status (fst (post_api_ai_generate parse provider req d)) = 200 /\
     (snd (post_api_ai_generate parse provider req d) = logged (user_id req) data result d \/
      snd (post_api_ai_generate parse provider req d) =
        logged (user_id req) data result
          {| users := <[user_id req := bump u]> (users d);
             aiGenerations := aiGenerations d |})).
Proof.
  destruct (parse (body req)) as [data|msg] eqn:Hvalid.
  2:{ left. unfold post_api_ai_generate. rewrite Hvalid. now split. }
  destruct (isBlocked (fst (getSubscriptionStatus (user_id req) d))) eqn:Hb.
  { left. rewrite (generate_blocked parse provider req data Hvalid d Hb). now split. }
  destruct (canUseAi (fst (getSubscriptionStatus (user_id req) d))) eqn:Hc.
  2:{ left. rewrite (generate_no_credit parse provider req data Hvalid d Hb Hc). now split. }
  destruct (provider (prompt data)) as [result|e] eqn:Hres.
  2:{ left. rewrite (generate_past_gate parse provider req data Hvalid d Hb Hc), Hres.
      now split. }
  destruct (users d !! user_id req) as [u|] eqn:Hu.
  2:{ left. rewrite (generate_past_gate parse provider req data Hvalid d Hb Hc), Hres.
      cbv zeta. rewrite (incrementAiUsage_missing _ _ Hu). now split. }
  rewrite (generate_found parse provider req data d u result Hvalid Hu Hres).
  repeat match goal with
         | |- context [if ?b then _ else _] => destruct b
         end; cbn [fst snd status];
    first [ left; split; [discriminate | reflexivity]
          | right; exists data, result, u; repeat split; tauto ].
Qed.

(** X7: whatever the body, the account and the provider, one generate
    request changes the store only when it answers 200, and then by one
    generation record for the caller (appended after the ones the log
    held) and at most the caller's counter, up by one; no other answer
    writes anything, no row of another account is ever touched, no row is
    created or removed, and a caller without a row never gets a 200. *)
Theorem generate_frame {Body : Type} (parse : Body -> ZodResult)
    (provider : JsString -> Try JsString) (req : AuthRequest Body) (d : Db) :
  let r := fst (post_api_ai_generate parse provider req d) in
  let d' := snd (post_api_ai_generate parse provider req d) in
  (status r <> 200 -> d' = d) /\
  (status r = 200 ->
     exists data result u,
       parse (body req) = ZodOk data /\
       provider (prompt data) = Returned result /\
       users d !! user_id req = Some u /\
       aiGenerations d' = aiGenerations d ++
         [{| gen_userId := user_id req; gen_prompt := prompt data; gen_result := result;
             gen_tokensUsed := estimateTokens (prompt data) |}] /\
       (users d' = users d \/ users d' = <[user_id req := bump u]> (users d))) /\
  (forall other, other <> user_id req -> users d' !! other = users d !! other) /\
  dom (users d') = dom (users d).
Proof.
  intros r d'. subst r d'.
  destruct (generate_cases parse provider req d)
    as [[Hne Hsame] | (data & result & u & Hvalid & Hres & Hu & H200 & Hd)].
  - rewrite Hsame. repeat split; done.
  - split; [intros Hne; now destruct Hne|]. split.
    + intros _. exists data, result, u.
      destruct Hd as [-> | ->]; cbn [logged users aiGenerations]; repeat split; auto.
    + destruct Hd as [-> | ->]; cbn [logged users aiGenerations]; split; try done.
      * intros other Hne. now rewrite lookup_insert_ne.
      * apply dom_insert_lookup_L. now rewrite Hu.
Qed.

Lemma get_api_ai_usage_eq userId d :
  get_api_ai_usage userId d =
    ({| report_used := used (fst (getAiUsage userId d));
        report_limit := limit (fst (getAiUsage userId d));
        report_remaining := remaining (fst (getAiUsage userId d));
        report_planType := sub_planType (fst (getSubscriptionStatus userId d));
        report_status := sub_status (fst (getSubscriptionStatus userId d));
        report_isBlocked := isBlocked (fst (getSubscriptionStatus userId d));
        report_canUseAi := canUseAi (fst (getSubscriptionStatus userId d)) |}, d).
Proof.
  unfold get_api_ai_usage. unfold bind at 1.
  pose proof (getAiUsage_reads userId d) as Hu.
  destruct (getAiUsage userId d) as [usage d1]. simpl in Hu. subst d1.
  unfold bind at 1.
  pose proof (getSubscriptionStatus_reads userId d) as Hs.
  destruct (getSubscriptionStatus userId d) as [s d1]. simpl in Hs. now subst d1.
Qed.

(** X8: what [GET /api/ai/usage] reports is what the gate of the generate
    route decides on the same store: for a body the schema accepts, the
    generate request is answered 402 exactly when the report says
    [isBlocked], and is turned away at the gate (402, or the 403 that
    carries the snapshot) exactly when the report says [canUseAi] is
    false; the report itself leaves the store alone, and for a free plan
    it says [canUseAi] exactly when the account is not blocked and
    [remaining] is positive. *)
Theorem usage_report_predicts_gate {Body : Type} (parse : Body -> ZodResult)
    (provider : JsString -> Try JsString) (req : AuthRequest Body)
    (data : AiGenerateData) (d : Db) :
  parse (body req) = ZodOk data ->
  let report := fst (get_api_ai_usage (user_id req) d) in
  let r := fst (post_api_ai_generate parse provider req d) in
  snd (get_api_ai_usage (user_id req) d) = d /\
  (status r = 402 <-> report_isBlocked report = true) /\
  ((status r = 402 \/ exists m s, json r = UpgradeBody m true s) <->
     report_canUseAi report = false) /\
  (report_planType report = PlanType.free ->
     (report_canUseAi report = true <->
        report_isBlocked report = false /\ 0 < report_remaining report)).
Proof.
  intros Hvalid report r. subst report r.
  rewrite get_api_ai_usage_eq. cbn [fst snd report_isBlocked report_canUseAi
    report_planType report_remaining].
  split; [reflexivity|].
  assert (Hgate : isBlocked (fst (getSubscriptionStatus (user_id req) d)) = true ->
                  canUseAi (fst (getSubscriptionStatus (user_id req) d)) = false).
  { destruct (users d !! user_id req) as [u|] eqn:Hu.
    - rewrite (getSubscriptionStatus_found _ _ _ Hu). simpl. now intros ->.
    - rewrite (getSubscriptionStatus_missing _ _ Hu). discriminate. }
  split; [|split].
  - destruct (isBlocked (fst (getSubscriptionStatus (user_id req) d))) eqn:Hb.
    + now rewrite (generate_blocked parse provider req data Hvalid d Hb).
    + destruct (canUseAi (fst (getSubscriptionStatus (user_id req) d))) eqn:Hc.
      * rewrite (generate_past_gate parse provider req data Hvalid d Hb Hc).
        destruct (provider (prompt data)); [|now split].
        cbv zeta. now destruct (incrementAiUsage (user_id req) d) as [[|] d1].
      * now rewrite (generate_no_credit parse provider req data Hvalid d Hb Hc).
  - destruct (isBlocked (fst (getSubscriptionStatus (user_id req) d))) eqn:Hb.
    + rewrite (generate_blocked parse provider req data Hvalid d Hb).
      split; [intros _; now apply Hgate|]. intros _. now left.
    + destruct (canUseAi (fst (getSubscriptionStatus (user_id req) d))) eqn:Hc.
      * rewrite (generate_past_gate parse provider req data Hvalid d Hb Hc).
        split; [|discriminate]. intros [H|(m & s & H)]; exfalso; revert H.
        -- destruct (provider (prompt data)); [|discriminate].
           cbv zeta. now destruct (incrementAiUsage (user_id req) d) as [[|] d1].
        -- destruct (provider (prompt data)); [|discriminate].
           cbv zeta. now destruct (incrementAiUsage (user_id req) d) as [[|] d1].
      * rewrite (generate_no_credit parse provider req data Hvalid d Hb Hc).
        split; [done|]. intros _. right. eauto.
  - destruct (users d !! user_id req) as [u|] eqn:Hu.
    + rewrite (getSubscriptionStatus_found _ _ _ Hu), (getAiUsage_found _ _ _ Hu).
      cbn [fst sub_planType isBlocked canUseAi remaining]. intros ->. cbn [hasPaidPlan].
      rewrite orb_false_r, andb_true_iff, negb_true_iff, Z.ltb_lt.
      split; intros [H1 H2]; (split; [exact H1|lia]).
    + rewrite (getSubscriptionStatus_missing _ _ Hu).
      unfold getAiUsage, bind. rewrite getUser_eq, Hu. simpl. intros _. split; [|done].
      intros _. split; [done|lia].
Qed.

Lemma usage_report_predicts_gate_witness :
  fst (get_api_ai_usage "erin" store0) =
    {| report_used := 3; report_limit := 3; report_remaining := 0;
       report_planType := PlanType.free; report_status := SubscriptionStatus.free;
       report_isBlocked := false; report_canUseAi := false |} /\
  (status (fst (post_api_ai_generate promptSchema placeholderProvider
                  (request "erin" "a bakery") store0)) = 402 \/
   exists m s, json (fst (post_api_ai_generate promptSchema placeholderProvider
                            (request "erin" "a bakery") store0)) = UpgradeBody m true s).
Proof.
  split; [reflexivity|].
  apply (usage_report_predicts_gate promptSchema placeholderProvider
           (request "erin" "a bakery") {| prompt := js "a bakery" |} store0 eq_refl).
  reflexivity.
Defined.

(** ** What the cleaning of a response leaves *)

Local Open Scope nat_scope.

Lemma remove_fence_other fence c s :
  c <> 96%N ->
  remove_matches (fence_length (96%N :: fence)) 0 (c :: s) =
  c :: remove_matches (fence_length (96%N :: fence)) 0 s.
Proof. intros Hc. cbn [remove_matches]. now rewrite fence_length_other. Qed.

Lemma remove_fence_triple s :
  remove_matches (fence_length (js "```")) 0 (96%N :: 96%N :: 96%N :: s) =
  remove_matches (fence_length (js "```")) 0
    match s with
    | c :: t => if (c =? 10)%N then t else s
    | [] => []
    end.
Proof.
  destruct s as [|c t]; [reflexivity|].
  cbn [remove_matches]. unfold fence_length at 1.
  change (matches_at eq_case (js "```") (96%N :: 96%N :: 96%N :: c :: t)) with true.
  change (drop (length (js "```")) (96%N :: 96%N :: 96%N :: c :: t)) with (c :: t).
  cbn iota. destruct (c =? 10)%N; reflexivity.
Qed.

Lemma remove_fence_short c s :
  matches_at eq_case (js "```") (c :: s) = false ->
  remove_matches (fence_length (js "```")) 0 (c :: s) =
  c :: remove_matches (fence_length (js "```")) 0 s.
Proof.
  intros H. cbn [remove_matches]. unfold fence_length at 1. now rewrite H.
Qed.

(** Where the text does not open with a backquote, neither does what the
    removal leaves of it. *)
Lemma remove_fence_head s :
  head s <> Some 96%N ->
  head (remove_matches (fence_length (js "```")) 0 s) <> Some 96%N.
Proof.
  destruct s as [|c s]; [done|]. intros Hc.
  assert (c <> 96%N) by (intros ->; now apply Hc).
  change (js "```") with (96%N :: js "``").
  rewrite remove_fence_other by done. cbn [head]. congruence.
Qed.

Lemma matches_at_fence s :
  matches_at eq_case (js "```") s = true <->
  exists t, s = 96%N :: 96%N :: 96%N :: t.
Proof.
  split.
  - intros H. apply matches_at_agree in H as (m & rest & -> & Ha).
    inversion Ha as [|? a ? m1 Ea H1]; subst.
    inversion H1 as [|? b ? m2 Eb H2]; subst.
    inversion H2 as [|? c ? m3 Ec H3]; subst. inversion H3; subst.
    unfold eq_case in *. apply N.eqb_eq in Ea, Eb, Ec. subst. now exists rest.
  - intros [t ->]. reflexivity.
Qed.

Lemma search_fence_cons c t :
  search eq_case (js "```") t = None ->
  matches_at eq_case (js "```") (c :: t) = false ->
  search eq_case (js "```") (c :: t) = None.
Proof. intros Ht Hc. cbn [search]. now rewrite Hc, Ht. Qed.

Lemma remove_fence_leaves_none n : forall s,
  length s <= n ->
  search eq_case (js "```") (remove_matches (fence_length (js "```")) 0 s) = None.
Proof.
  induction n as [|n IH]; intros s Hn.
  - destruct s; [reflexivity|simpl in Hn; lia].
  - destruct s as [|c s]; [reflexivity|]. simpl in Hn.
    destruct (matches_at eq_case (js "```") (c :: s)) eqn:Em.
    + apply matches_at_fence in Em as [t Et]. injection Et as -> ->.
      rewrite remove_fence_triple. apply IH.
      destruct t as [|c' t']; simpl in *; [lia|].
      destruct (c' =? 10)%N; simpl; lia.
    + rewrite (remove_fence_short _ _ Em).
      apply search_fence_cons; [apply IH; lia|].
      destruct (matches_at eq_case (js "```")
                  (c :: remove_matches (fence_length (js "```")) 0 s)) eqn:Em'; [|done].
      exfalso. apply matches_at_fence in Em' as [t Et]. injection Et as -> Et.
      (* [c] is a backquote and what is left of [s] opens with two more *)
      destruct s as [|c1 s1]; [discriminate Et|].
      destruct (decide (c1 = 96%N)) as [->|Hc1].
      2:{ apply (remove_fence_head (c1 :: s1)); [simpl; congruence|].
          exact (f_equal head Et). }
      destruct s1 as [|c2 s2].
      { discriminate Et. }
      destruct (decide (c2 = 96%N)) as [->|Hc2]; [discriminate Em|].
      rewrite remove_fence_short in Et.
      2:{ destruct (matches_at eq_case (js "```") (96%N :: c2 :: s2)) eqn:E2; [|done].
          apply matches_at_fence in E2 as [t2 E2]. congruence. }
      injection Et as Et.
      apply (remove_fence_head (c2 :: s2)); [simpl; congruence|].
      exact (f_equal head Et).
Qed.

Lemma trimStart_suffix s : exists pre, s = pre ++ trimStart s.
Proof.
  induction s as [|c s [pre IH]]; [now exists []|]. simpl.
  destruct (is_white_space c).
  - exists (c :: pre). simpl. now f_equal.
  - now exists [].
Qed.

Lemma trimEnd_prefix s : exists post, s = trimEnd s ++ post.
Proof.
  unfold trimEnd. destruct (trimStart_suffix (reverse s)) as [pre E].
  exists (reverse pre). rewrite <- reverse_app, <- E. now rewrite reverse_involutive.
Qed.

Lemma trimStart_fixed s : trimStart (trimStart s) = trimStart s.
Proof.
  induction s as [|c s IH]; [reflexivity|]. simpl.
  destruct (is_white_space c) eqn:E; [exact IH|]. simpl. now rewrite E.
Qed.

Lemma trimEnd_fixed s : trimEnd (trimEnd s) = trimEnd s.
Proof. unfold trimEnd. now rewrite reverse_involutive, trimStart_fixed. Qed.

Lemma trimStart_trimEnd s : trimStart s = s -> trimStart (trimEnd s) = trimEnd s.
Proof.
  intros Hs. destruct (trimEnd_prefix s) as [post E].
  destruct (trimEnd s) as [|c r]; [reflexivity|].
  rewrite E in Hs. simpl in *.
  destruct (is_white_space c); [|reflexivity].
  exfalso. destruct (trimStart_suffix (r ++ post)) as [pre Ep].
  rewrite Hs in Ep. apply (f_equal length) in Ep.
  rewrite !length_app in Ep. simpl in Ep. rewrite ?length_app in Ep. lia.
Qed.

Lemma trim_fixed s : trim (trim s) = trim s.
Proof.
  unfold trim. rewrite (trimStart_trimEnd (trimStart s) (trimStart_fixed s)).
  apply trimEnd_fixed.
Qed.

Lemma search_None_substring eqb pat pre m post :
  search eqb pat (pre ++ m ++ post) = None -> search eqb pat m = None.
Proof.
  intros Hno. destruct (search eqb pat m) as [i|] eqn:E; [|reflexivity].
  apply search_Some in E as (Hm & Hi & _).
  destruct (matches_occurrence _ _ _ _ Hm Hi) as (x & post' & Em & Ha & _).
  rewrite Em in Hno.
  replace (pre ++ (take i m ++ x ++ post') ++ post)
    with ((pre ++ take i m) ++ x ++ (post' ++ post)) in Hno
    by now rewrite <- !app_assoc.
  destruct (search_le eqb pat (pre ++ take i m) x (post' ++ post) Ha) as (j & Ej & _).
  congruence.
Qed.

Lemma trim_keeps_none eqb pat s :
  search eqb pat s = None -> search eqb pat (trim s) = None.
Proof.
  intros H. unfold trim.
  destruct (trimStart_suffix s) as [pre Ep].
  destruct (trimEnd_prefix (trimStart s)) as [post Eq].
  rewrite Ep, Eq in H. now apply search_None_substring in H.
Qed.

Lemma matches_at_longer eqb p1 p2 s :
  matches_at eqb (p1 ++ p2) s = true -> matches_at eqb p1 s = true.
Proof.
  revert s. induction p1 as [|p p1 IH]; intros s; [done|].
  destruct s as [|c s]; [done|]. simpl. rewrite !andb_true_iff.
  intros [H1 H2]. split; [done|]. now apply IH.
Qed.

(** Text without a fence is left alone by either replacement. *)
Lemma replace_all_no_fence more s :
  search eq_case (js "```") s = None ->
  replace_all (fence_length (js "```" ++ more)) s = s.
Proof.
  unfold replace_all. induction s as [|c s IH]; intros Hno; [reflexivity|].
  cbn [remove_matches]. unfold fence_length at 1.
  destruct (matches_at eq_case (js "```" ++ more) (c :: s)) eqn:Em.
  - apply matches_at_longer in Em.
    pose proof (search_None _ _ _ Hno 0) as H0. rewrite drop_0 in H0. congruence.
  - f_equal. apply IH. exact (search_drop_None _ _ _ 1 Hno).
Qed.

(** X9: the cleaned text of a response holds no code fence (three
    backquotes in a row) anywhere, has no white space at either end, and
    is a fixed point of the cleaning: cleaning it again gives it back. *)
Theorem cleanedContent_clean_once (content : JsString) :
  search eq_case (js "```") (cleanedContent content) = None /\
  trim (cleanedContent content) = cleanedContent content /\
  trimStart (cleanedContent content) = cleanedContent content /\
  cleanedContent (cleanedContent content) = cleanedContent content.
Proof.
  assert (Hnone : search eq_case (js "```") (cleanedContent content) = None).
  { rewrite cleanedContent_closed. apply trim_keeps_none.
    unfold replace_all. now apply (remove_fence_leaves_none _ _ (Nat.le_refl _)). }
  assert (Htrim : trim (cleanedContent content) = cleanedContent content).
  { rewrite cleanedContent_closed. apply trim_fixed. }
  split; [exact Hnone|]. split; [exact Htrim|]. split.
  - rewrite cleanedContent_closed. unfold trim.
    apply trimStart_trimEnd, trimStart_fixed.
  - rewrite (cleanedContent_closed (cleanedContent content)).
    change (js "```json") with (js "```" ++ js "json").
    rewrite (replace_all_no_fence (js "json") _ Hnone).
    change (js "```") with (js "```" ++ []) at 1.
    rewrite (replace_all_no_fence [] _ Hnone). exact Htrim.
Qed.

(** ** How [generateWebsite] and [regenerateSection] fail *)

Lemma or_else_truthy value fallback :
  truthy fallback = true -> truthy (or_else value fallback) = true.
Proof.
  intros Hf. unfold or_else. destruct value as [v|]; [|exact Hf].
  destruct (truthy v) eqn:Ev; [exact Ev|exact Hf].
Qed.

Lemma html_document_nonempty doc : html_document doc -> doc <> [].
Proof.
  intros (d & inner & e & -> & Hd & _) E.
  apply agree_length in Hd. apply (f_equal length) in E.
  rewrite length_app in E. rewrite Hd in E. discriminate E.
Qed.

(** X10: the two functions fail on exactly the same responses, whatever
    the current HTML and CSS: on those that neither parse as JSON (or
    parse as [null]) nor hold an HTML document. The only error either
    lets out is its own fixed message; the parser's [SyntaxError] and the
    [TypeError] of reading a property of [null] never reach the caller. *)
Theorem parse_failures_agree (currentHtml currentCss content : JsString) :
  (forall e, generateWebsite_parse content = Thrown e ->
     e = js "Failed to generate website. Please try again.") /\
  (forall e, regenerateSection_parse currentHtml currentCss content = Thrown e ->
     e = js "Failed to update website section. Please try again.") /\
  ((exists e, generateWebsite_parse content = Thrown e) <->
   (exists e, regenerateSection_parse currentHtml currentCss content = Thrown e)) /\
  ((exists e, generateWebsite_parse content = Thrown e) <->
   htmlMatch content = None /\
   (JSON_parse (cleanedContent content) = Returned JNull \/
    exists e, JSON_parse (cleanedContent content) = Thrown e)).
Proof.
  unfold generateWebsite_parse, regenerateSection_parse.
  destruct (JSON_parse (cleanedContent content)) as [parsed|e0] eqn:Ep;
    [destruct parsed|]; cbn; destruct (htmlMatch content) as [doc|];
    repeat split;
    try (intros; discriminate);
    try (intros e [= <-]; reflexivity);
    try (intros [? ?]; discriminate);
    try (intros [? _]; discriminate);
    try (intros [_ [?|[? ?]]]; discriminate);
    try (match goal with H : exists _, _ |- _ => destruct H; discriminate end);
    eauto.
Qed.

(** X11: with a current HTML that is not empty, [regenerateSection] never
    returns an empty (or otherwise falsy) [html]: a missing, [null] or
    empty [html] of the response is replaced by the current one, and a
    document taken by the fallback pattern is never empty. *)
Theorem regenerateSection_html_kept (currentHtml currentCss content : JsString)
    (site : GeneratedWebsite) :
  currentHtml <> [] ->
  regenerateSection_parse currentHtml currentCss content = Returned site ->
  truthy (html site) = true /\ html site <> JString [].
Proof.
  intros Hne Hret.
  assert (Ht : truthy (html site) = true).
  { unfold regenerateSection_parse in Hret.
    destruct (JSON_parse (cleanedContent content)) as [parsed|e0];
      [destruct parsed|]; cbn in Hret;
      try (injection Hret as <-; cbn [html]; try apply or_else_truthy; cbn;
           now rewrite bool_decide_eq_false_2);
      (destruct (htmlMatch content) as [doc|] eqn:Em; [|discriminate];
       injection Hret as <-; cbn;
       apply htmlMatch_Some in Em as [_ Hd];
       now rewrite bool_decide_eq_false_2 by now apply html_document_nonempty). }
  split; [exact Ht|]. intros E. rewrite E in Ht. discriminate Ht.
Qed.

Lemma regenerateSection_html_kept_witness :
  regenerateSection_parse (js "<p>old</p>") (js "p{}") (jsq "{'html':'','css':null}")
    = Returned {| html := JString (js "<p>old</p>"); css := JString (js "p{}") |} /\
  truthy (JString (js "<p>old</p>")) = true.
Proof.
  assert (E : regenerateSection_parse (js "<p>old</p>") (js "p{}") (jsq "{'html':'','css':null}")
    = Returned {| html := JString (js "<p>old</p>"); css := JString (js "p{}") |})
    by (vm_compute; reflexivity).
  split; [exact E|].
  exact (proj1 (regenerateSection_html_kept (js "<p>old</p>") (js "p{}")
           (jsq "{'html':'','css':null}") _ ltac:(discriminate) E)).
Defined.

(** ** The middleware of [auth.ts] *)

Local Open Scope Z_scope.

Lemma drop_prefix {A} (pat rest : list A) : drop (length pat) (pat ++ rest) = rest.
Proof. now rewrite drop_app_length. Qed.

(** X12: [authMiddleware] lets a request through exactly when its
    [Authorization] header reads [Bearer ] (this case, one space) followed
    by a token that [verifyToken] accepts; every other request is answered
    401.  The [req.user] it builds takes the id, e-mail and role from the
    token and nothing from the store: whatever plan the account has, it
    reads free, with 0 of 3 generations used. *)
Theorem authMiddleware_accepts (verifyToken : JsString -> option TokenClaims)
    (authorization : option JsString) :
  (forall user, authMiddleware verifyToken authorization = inr user <->
     exists token claims,
       authorization = Some (js "Bearer " ++ token) /\
       verifyToken token = Some claims /\
       id user = claim_id claims /\ email user = claim_email claims /\
       role user = claim_role claims /\ name user = ""%string /\
       planType user = PlanType.free /\
       subscriptionStatus user = SubscriptionStatus.free /\
       aiGenerationsUsed user = 0 /\ aiGenerationsLimit user = 3) /\
  (forall reply, authMiddleware verifyToken authorization = inl reply ->
     reply_status reply = 401).
Proof.
  unfold authMiddleware. split.
  - intros user. split.
    + destruct authorization as [authHeader|]; [|discriminate].
      destruct (matches_at eq_case (js "Bearer ") authHeader) eqn:Em; [|discriminate].
      apply startsWith_prefix in Em as [token ->]. cbn [negb].
      change 7%nat with (length (js "Bearer ")). rewrite drop_prefix.
      destruct (verifyToken token) as [claims|] eqn:Ev; [|discriminate].
      intros [= <-]. exists token, claims. cbn. repeat split; done.
    + intros (token & claims & -> & Ev & Hid & Hem & Hro & Hna & Hpl & Hst & Hus & Hli).
      rewrite (proj2 (startsWith_prefix (js "Bearer ") _)) by now exists token.
      cbn [negb]. change 7%nat with (length (js "Bearer ")). rewrite drop_prefix, Ev.
      f_equal. destruct user; cbn in *. congruence.
  - intros reply.
    destruct authorization as [authHeader|]; [|now intros [= <-]].
    destruct (negb (matches_at eq_case (js "Bearer ") authHeader)); [now intros [= <-]|].
    destruct (verifyToken (drop 7 authHeader)); [discriminate|now intros [= <-]].
Qed.

(** ** The administration routes *)

Lemma authMiddleware_refusal verifyToken authorization r :
  authMiddleware verifyToken authorization = inl r ->
  exists m, r = ReplyMessage 401 m.
Proof.
  unfold authMiddleware. intros Ea.
  destruct authorization as [authHeader|]; [|injection Ea as <-; eauto].
  destruct (negb (matches_at eq_case (js "Bearer ") authHeader));
    [injection Ea as <-; eauto|].
  destruct (verifyToken (drop 7 authHeader)); [discriminate|].
  injection Ea as <-; eauto.
Qed.

Lemma deleteUser_missing userId d :
  users d !! userId = None -> deleteUser userId d = (false, d).
Proof.
  intros Hm. unfold deleteUser. rewrite Hm, delete_id by exact Hm.
  rewrite bool_decide_eq_false_2 by (intros [? ?]; discriminate).
  now destruct d.
Qed.

Lemma deleteUser_found userId u d :
  users d !! userId = Some u ->
  deleteUser userId d =
    (true, {| users := delete userId (users d); aiGenerations := aiGenerations d |}).
Proof.
  intros Hu. unfold deleteUser. rewrite Hu.
  now rewrite bool_decide_eq_true_2 by eauto.
Qed.

(** X13: [DELETE /api/admin/users/:id] answers 204 exactly when the caller
    holds an admin token, names an id other than the token's own and the
    account exists; the row of that id is then gone.  Every other request is
    answered 401, 403, 400 or 404 and leaves the store as it was.  In no
    case does the route touch another row, the caller's own included, or
    the log of generations. *)
Theorem delete_user_route (verifyToken : JsString -> option TokenClaims)
    (authorization : option JsString) (params_id : string) (d : Db) :
  let out := delete_api_admin_users_id verifyToken authorization params_id d in
  aiGenerations out.2 = aiGenerations d /\
  (forall k, k <> params_id -> users out.2 !! k = users d !! k) /\
  (forall user, authMiddleware verifyToken authorization = inr user ->
     users out.2 !! id user = users d !! id user) /\
  (out.1 = ReplyEmpty 204 <->
     exists user, authMiddleware verifyToken authorization = inr user /\
       role user = ADMIN /\ params_id <> id user /\
       is_Some (users d !! params_id)) /\
  (out.1 = ReplyEmpty 204 -> users out.2 !! params_id = None) /\
  (out.1 <> ReplyEmpty 204 ->
     out.2 = d /\ reply_status out.1 ∈ [401; 403; 400; 404]).
Proof.
  unfold delete_api_admin_users_id.
  destruct (authMiddleware verifyToken authorization) as [r|user] eqn:Ea.
  - destruct (authMiddleware_refusal _ _ _ Ea) as [m ->]. cbn.
    repeat split; try done; try (intros (? & ? & _); discriminate).
    set_solver.
  - unfold adminMiddleware. destruct (role user) eqn:Er.
    + destruct (bool_decide (params_id = id user)) eqn:Eself.
      * apply bool_decide_eq_true in Eself. cbn.
        repeat split; try done.
        -- intros (user' & [= <-] & _ & Hne & _). done.
        -- set_solver.
      * apply bool_decide_eq_false in Eself. unfold bind.
        destruct (users d !! params_id) as [u|] eqn:Eu.
        -- rewrite (deleteUser_found _ _ _ Eu). cbn.
           repeat split; try done.
           ++ intros k Hk. now rewrite lookup_delete_ne.
           ++ intros user' [= <-]. now rewrite lookup_delete_ne.
           ++ intros _. exists user. repeat split; eauto.
           ++ now rewrite lookup_delete_eq.
        -- rewrite (deleteUser_missing _ _ Eu). cbn.
           repeat split; try done.
           ++ intros (_ & _ & _ & _ & [? ?]). discriminate.
           ++ set_solver.
    + cbn. repeat split; try done.
      * intros (user' & [= <-] & Hr & _). congruence.
      * set_solver.
Qed.

Lemma updateUserRole_missing userId r d :
  users d !! userId = None -> updateUserRole userId r d = (None, d).
Proof.
  intros Hm. unfold updateUserRole. cbv zeta.
  assert (E : alter (with_role r) userId (users d) = users d).
  { apply map_eq. intros k. destruct (decide (k = userId)) as [->|Hk].
    - now rewrite lookup_alter_eq, Hm.
    - now rewrite lookup_alter_ne. }
  rewrite E, Hm. now destruct d.
Qed.

Lemma updateUserRole_found userId r u d :
  users d !! userId = Some u ->
  updateUserRole userId r d =
    (Some (with_role r u),
     {| users := <[userId := with_role r u]> (users d);
        aiGenerations := aiGenerations d |}).
Proof.
  intros Hu. unfold updateUserRole. cbv zeta.
  assert (E : alter (with_role r) userId (users d) = <[userId := with_role r u]> (users d)).
  { apply map_eq. intros k. destruct (decide (k = userId)) as [->|Hk].
    - now rewrite lookup_alter_eq, lookup_insert_eq, Hu.
    - now rewrite lookup_alter_ne, lookup_insert_ne. }
  now rewrite E, lookup_insert_eq.
Qed.

(** X14: [PATCH /api/admin/users/:id/role] answers 200 exactly when the
    caller holds an admin token, the body passes the schema and the account
    exists; the row it returns and stores is the old one with the new role,
    every other column as it was.  The route does not compare the id with
    the caller's, so an admin can change their own role.  Every other
    request is answered 401, 403, 400 or 404 and leaves the store as it
    was; no request touches another row or the log of generations. *)
Theorem patch_role_route (verifyToken : JsString -> option TokenClaims)
    (zodMessage : JsonValue -> JsString)
    (authorization : option JsString) (params_id : string) (body : JsonValue)
    (d : Db) :
  let out :=
    patch_api_admin_users_id_role verifyToken zodMessage authorization params_id body d in
  aiGenerations out.2 = aiGenerations d /\
  (forall k, k <> params_id -> users out.2 !! k = users d !! k) /\
  (forall updated, out.1 = ReplyJson 200 updated <->
     exists user r u,
       authMiddleware verifyToken authorization = inr user /\
       role user = ADMIN /\
       updateRoleSchema_parse body = Some r /\
       users d !! params_id = Some u /\
       role updated = r /\ id updated = id u /\ email updated = email u /\
       name updated = name u /\
       aiGenerationsUsed updated = aiGenerationsUsed u /\
       aiGenerationsLimit updated = aiGenerationsLimit u /\
       planType updated = planType u /\
       subscriptionStatus updated = subscriptionStatus u) /\
  (forall updated, out.1 = ReplyJson 200 updated ->
     users out.2 !! params_id = Some updated) /\
  ((forall updated, out.1 <> ReplyJson 200 updated) ->
     out.2 = d /\ reply_status out.1 ∈ [401; 403; 400; 404]).
Proof.
  unfold patch_api_admin_users_id_role.
  destruct (authMiddleware verifyToken authorization) as [r0|user] eqn:Ea.
  - destruct (authMiddleware_refusal _ _ _ Ea) as [m ->]. cbn.
    repeat split; try done; try (intros (? & ? & ? & ? & _); discriminate).
    set_solver.
  - unfold adminMiddleware. destruct (role user) eqn:Er.
    + destruct (updateRoleSchema_parse body) as [r|] eqn:Eb.
      * unfold bind. destruct (users d !! params_id) as [u|] eqn:Eu.
        -- rewrite (updateUserRole_found _ r _ _ Eu). cbn.
           repeat split; try done.
           ++ intros k Hk. now rewrite lookup_insert_ne.
           ++ intros [= <-]. exists user, r, u. repeat split; eauto.
           ++ intros (user' & r' & u' & _ & _ & [= <-] & [= <-] & Hf).
              f_equal. destruct updated, u; cbn in *.
              destruct Hf as (-> & -> & -> & -> & -> & -> & -> & ->). reflexivity.
           ++ intros updated [= <-]. now rewrite lookup_insert_eq.
           ++ match goal with Hno : forall _, _ <> _ |- _ =>
                now destruct (Hno (with_role r u)) end.
           ++ match goal with Hno : forall _, _ <> _ |- _ =>
                now destruct (Hno (with_role r u)) end.
        -- rewrite (updateUserRole_missing _ r _ Eu). cbn.
           repeat split; try done.
           ++ intros (? & ? & ? & _ & _ & _ & E & _). discriminate.
           ++ set_solver.
      * cbn. repeat split; try done.
        -- intros (? & ? & ? & _ & _ & E & _). discriminate.
        -- set_solver.
    + cbn. repeat split; try done.
      * intros (user' & ? & ? & [= <-] & Hr & _). congruence.
      * set_solver.
Qed.

(** ** Who may read and delete a project *)

Lemma access_denied_false project user :
  access_denied project user = false <->
  project_userId project = id user \/ role user = ADMIN.
Proof.
  unfold access_denied.
  destruct (decide (project_userId project = id user)) as [E|E].
  - rewrite bool_decide_eq_true_2 by exact E. cbn. split; auto.
  - rewrite bool_decide_eq_false_2 by exact E. destruct (role user); cbn.
    + split; auto.
    + split; [discriminate|]. intros [?|?]; [done|discriminate].
Qed.

Lemma access_denied_true project user :
  access_denied project user = true <->
  project_userId project <> id user /\ role user = CLIENT.
Proof.
  unfold access_denied.
  destruct (decide (project_userId project = id user)) as [E|E].
  - rewrite bool_decide_eq_true_2 by exact E. cbn. split; [discriminate|]. now intros [? _].
  - rewrite bool_decide_eq_false_2 by exact E. destruct (role user); cbn.
    + split; [discriminate|]. intros [_ ?]; discriminate.
    + split; auto.
Qed.

(** X15: [GET /api/projects/:id] returns the project exactly to its owner
    and to an admin.  A request without a valid token is answered 401; with
    one, the route looks the project up before it looks at the owner: an id
    that names no project is answered 404 to anyone, and an id that names
    someone else's project is answered 403 to a client, who thus learns that
    it exists. *)
Theorem get_project_route (verifyToken : JsString -> option TokenClaims)
    (authorization : option JsString) (params_id : string)
    (projects : gmap string Project) :
  let reply := get_api_projects_id verifyToken authorization params_id projects in
  (forall p, reply = ReplyJson 200 p <->
     exists user, authMiddleware verifyToken authorization = inr user /\
       projects !! params_id = Some p /\
       (project_userId p = id user \/ role user = ADMIN)) /\
  (reply_status reply = 403 <->
     exists user p, authMiddleware verifyToken authorization = inr user /\
       projects !! params_id = Some p /\
       project_userId p <> id user /\ role user = CLIENT) /\
  (reply_status reply = 404 <->
     exists user, authMiddleware verifyToken authorization = inr user /\
       projects !! params_id = None) /\
  (reply_status reply = 401 <->
     forall user, authMiddleware verifyToken authorization <> inr user).
Proof.
  unfold get_api_projects_id, getProject.
  destruct (authMiddleware verifyToken authorization) as [r0|user] eqn:Ea.
  - destruct (authMiddleware_refusal _ _ _ Ea) as [m ->]. cbn.
    repeat split; try done; try (intros (? & ? & _); discriminate);
      try (intros (? & ? & ? & _); discriminate).
  - destruct (projects !! params_id) as [p|] eqn:Ep.
    + destruct (access_denied p user) eqn:Ed.
      * pose proof (proj1 (access_denied_true _ _) Ed) as [Hne Hr]. cbn.
        repeat split; try done.
        -- intros (user' & [= <-] & [= <-] & [?|?]); [done|congruence].
        -- intros _. exists user, p. repeat split; done.
        -- intros (? & ? & ?); discriminate.
        -- intros H. now destruct (H user).
      * pose proof (proj1 (access_denied_false _ _) Ed) as Hok. cbn.
        repeat split; try done.
        -- intros [= <-]. exists user. repeat split; done.
        -- intros (user' & _ & [= <-] & _). reflexivity.
        -- intros (user' & p' & [= <-] & [= <-] & Hne & Hr).
           destruct Hok; [done|congruence].
        -- intros (? & ? & ?); discriminate.
        -- intros H. now destruct (H user).
    + cbn. repeat split; try done.
      * intros (? & ? & ? & _); discriminate.
      * intros (? & ? & ? & ? & _); discriminate.
      * intros _. now exists user.
      * intros H. now destruct (H user).
Qed.

(** X16: [DELETE /api/projects/:id] deletes under the very condition under
    which [GET] on the same id returns the project, and answers 204 then;
    the project is gone afterwards.  Any other request gets the status
    [GET] would give and leaves the table as it was.  Projects under other
    ids are never touched. *)
Theorem delete_project_route (verifyToken : JsString -> option TokenClaims)
    (authorization : option JsString) (params_id : string)
    (projects : gmap string Project) :
  let out := delete_api_projects_id verifyToken authorization params_id projects in
  let reply := get_api_projects_id verifyToken authorization params_id projects in
  (out.1 = ReplyEmpty 204 <-> exists p, reply = ReplyJson 200 p) /\
  (out.1 = ReplyEmpty 204 ->
     out.2 = delete params_id projects /\ out.2 !! params_id = None /\
     is_Some (projects !! params_id)) /\
  (out.1 <> ReplyEmpty 204 ->
     out.2 = projects /\ reply_status out.1 = reply_status reply /\
     reply_status out.1 ∈ [401; 404; 403]) /\
  (forall k, k <> params_id -> out.2 !! k = projects !! k).
Proof.
  unfold delete_api_projects_id, get_api_projects_id, getProject, deleteProject.
  destruct (authMiddleware verifyToken authorization) as [r0|user] eqn:Ea.
  - destruct (authMiddleware_refusal _ _ _ Ea) as [m ->]. cbn.
    repeat split; try done; try (intros (? & ?); discriminate). set_solver.
  - destruct (projects !! params_id) as [p|] eqn:Ep.
    + destruct (access_denied p user) eqn:Ed; cbn.
      * repeat split; try done; try (intros (? & ?); discriminate). set_solver.
      * repeat split; try done; eauto.
        -- now rewrite lookup_delete_eq.
        -- intros k Hk. now rewrite lookup_delete_ne.
    + cbn. repeat split; try done; try (intros (? & ?); discriminate). set_solver.
Qed.

(** ** The projects of a user and their statistics *)

Lemma insert_newest_perm p l : insert_newest p l ≡ₚ p :: l.
Proof.
  induction l as [|q l IH]; [reflexivity|]. simpl.
  destruct (project_createdAt q <? project_createdAt p); [reflexivity|].
  rewrite IH. apply Permutation_swap.
Qed.

Lemma newest_first_perm rows : newest_first rows ≡ₚ rows.
Proof.
  induction rows as [|p rows IH]; [reflexivity|].
  unfold newest_first in *. simpl. now rewrite insert_newest_perm, IH.
Qed.

Lemma insert_newest_sorted p l :
  StronglySorted (fun a b => project_createdAt b <= project_createdAt a) l ->
  StronglySorted (fun a b => project_createdAt b <= project_createdAt a)
    (insert_newest p l).
Proof.
  induction 1 as [|q l Hs IH Hq]; simpl.
  - repeat constructor.
  - destruct (project_createdAt q <? project_createdAt p) eqn:E.
    + apply Z.ltb_lt in E. constructor; [now constructor|].
      constructor; [lia|]. eapply Forall_impl; [exact Hq|]. simpl. intros; lia.
    + apply Z.ltb_ge in E. constructor; [exact IH|].
      rewrite insert_newest_perm. now constructor.
Qed.

Lemma newest_first_sorted rows :
  StronglySorted (fun a b => project_createdAt b <= project_createdAt a)
    (newest_first rows).
Proof.
  induction rows as [|p rows IH]; [constructor|].
  unfold newest_first in *. simpl. now apply insert_newest_sorted.
Qed.

Lemma getProjects_perm userId projects :
  getProjects userId projects ≡ₚ
  filter (fun p => project_userId p = userId) (snd <$> map_to_list projects).
Proof. apply newest_first_perm. Qed.

(** X17: [getProjects] returns the rows of the table that belong to the
    user, all of them and no other, each as often as the table holds it, in
    the order of their creation time, newest first. *)
Theorem getProjects_own_newest_first (userId : string)
    (projects : gmap string Project) :
  (forall p, p ∈ getProjects userId projects <->
     project_userId p = userId /\ exists k, projects !! k = Some p) /\
  getProjects userId projects ≡ₚ
    filter (fun p => project_userId p = userId) (snd <$> map_to_list projects) /\
  StronglySorted (fun a b => project_createdAt b <= project_createdAt a)
    (getProjects userId projects).
Proof.
  split; [|split].
  - intros p. rewrite getProjects_perm, list_elem_of_filter, list_elem_of_fmap.
    split.
    + intros [Hu ([k q] & -> & Hin)]. split; [exact Hu|].
      exists k. now apply elem_of_map_to_list.
    + intros [Hu [k Hk]]. split; [exact Hu|].
      exists (k, p). split; [reflexivity|]. now apply elem_of_map_to_list.
  - apply getProjects_perm.
  - apply newest_first_sorted.
Qed.

Lemma getProjects_insert userId k p projects :
  projects !! k = None ->
  getProjects userId (<[k := p]> projects) ≡ₚ
    if decide (project_userId p = userId)
    then p :: getProjects userId projects
    else getProjects userId projects.
Proof.
  intros Hk. rewrite (getProjects_perm userId (<[k := p]> projects)).
  rewrite (map_to_list_insert projects k p Hk). rewrite fmap_cons. simpl.
  rewrite filter_cons.
  destruct (decide (project_userId p = userId)); now rewrite getProjects_perm.
Qed.

(** X18: creating a project under a fresh key adds one to the owner's
    [totalProjects], one to [publishedSites] if its status is [published],
    one to [templatesUsed] if it has a template id that is not empty, and
    changes nothing in the statistics of any other user. *)
Theorem getUserStats_insert (userId k : string) (p : Project)
    (projects : gmap string Project) :
  projects !! k = None ->
  getUserStats userId (<[k := p]> projects) =
    if decide (project_userId p = userId) then
      {| totalProjects := totalProjects (getUserStats userId projects) + 1;
         publishedSites := publishedSites (getUserStats userId projects) +
           (if decide (project_status p = js "published") then 1 else 0);
         templatesUsed := templatesUsed (getUserStats userId projects) +
           (if has_template p then 1 else 0) |}
    else getUserStats userId projects.
Proof.
  intros Hk. pose proof (getProjects_insert userId k p projects Hk) as Hp.
  unfold getUserStats. cbv zeta. cbn [totalProjects publishedSites templatesUsed].
  destruct (decide (project_userId p = userId)) as [Hu|Hu].
  - rewrite !Hp, !filter_cons. f_equal.
    + cbn [length]. lia.
    + destruct (decide (project_status p = js "published")); cbn [length]; lia.
    + destruct (has_template p) eqn:Et.
      * rewrite decide_True by reflexivity. cbn [length]. lia.
      * rewrite decide_False by discriminate. lia.
  - now rewrite !Hp.
Qed.

Lemma getUserStats_insert_witness :
  getUserStats "alice"
    (<["p4" := {| project_id := "p4"; project_userId := "alice";
                  project_status := js "published";
                  project_templateId := Some (js "");
                  project_createdAt := 40 |}]> sampleProjects) =
  {| totalProjects := 3; publishedSites := 2; templatesUsed := 1 |}.
Proof.
  rewrite (getUserStats_insert "alice" "p4" _ sampleProjects); [|reflexivity].
  vm_compute. reflexivity.
Defined.

(** X19: the statistics of a user never count more published sites or more
    templates than projects, none of the three is negative, and
    [totalProjects] is the number of rows of the table that belong to the
    user. *)
Theorem getUserStats_bounds (userId : string) (projects : gmap string Project) :
  0 <= publishedSites (getUserStats userId projects)
    <= totalProjects (getUserStats userId projects) /\
  0 <= templatesUsed (getUserStats userId projects)
    <= totalProjects (getUserStats userId projects) /\
  totalProjects (getUserStats userId projects) =
    Z.of_nat (length (filter (fun p => project_userId p = userId)
                        (snd <$> map_to_list projects))).
Proof.
  unfold getUserStats. cbv zeta. cbn [totalProjects publishedSites templatesUsed].
  pose proof (length_filter (fun p => project_status p = js "published")
                (getProjects userId projects)).
  pose proof (length_filter (fun p => has_template p = true)
                (getProjects userId projects)).
  repeat split; try lia.
  now rewrite getProjects_perm.
Qed.
